(** * Infernal Descent: the gameplay simulation core

    A shallow embedding of [src/js/game.js] (class [Game]) and of the part of
    [Engine] it drives, with the properties that the design document states
    of it settled against the code.

    Numbers.  JavaScript numbers are IEEE-754 binary64 values; they are
    modelled by Rocq's primitive [float], whose operations are the same
    binary64 operations (round to nearest even, comparisons false on NaN).
    Three families of numbers only ever hold small integers and are kept in
    [Z], where the arithmetic of the source is exact: time stamps in
    milliseconds ([Date.now()], [lastFireTime], [delay]), hit points of
    enemies together with weapon damage (50 minus multiples of 10, 15, 80,
    120), and the armor and ammo counters.

    Objects.  A three.js object (sprite, wall, sphere) is a handle, a [nat]
    drawn from the allocation counter [nextId]; an enemy wrapper is
    identified by the handle of its sprite, which [_spawnEnemy] creates
    together with it.

    Host.  What the game asks of the presentation host (scene membership,
    audio, ray queries, DOM) is recorded as a trace of [Call]s; what the host
    answers in a frame (clock delta, input snapshot, camera direction, ray
    hits) is the [Input] of that frame. *)

From Stdlib Require Import ZArith List Bool Lia Sorted.
From Stdlib Require Import Floats.
From stdpp Require Import base list strings pretty gmap.

Set Warnings "-inexact-float".

(** ** Numbers and vectors *)

Module Num.
Local Open Scope float_scope.

(** [a || b] on numbers: [b] when [a] is falsy, that is 0, -0 or NaN. *)
Definition or (a b : float) : float :=
  if (a =? 0) || negb (a =? a) then b else a.

(** A finite value: neither an infinity nor NaN. *)
Definition finite (a : float) : bool :=
  match Prim2SF a with
  | S754_zero _ | S754_finite _ _ _ => true
  | _ => false
  end.
End Num.

(** THREE.Vector3, with the methods the game calls. *)
Module Vec3.
Local Open Scope float_scope.

Record t := mk { x : float; y : float; z : float }.

Definition zero : t := mk 0 0 0.
Definition set_y (v : t) (y' : float) : t := mk (x v) y' (z v).

Definition add (a v : t) : t := mk (x a + x v) (y a + y v) (z a + z v).
Definition sub (a v : t) : t := mk (x a - x v) (y a - y v) (z a - z v).
Definition subVectors (a b : t) : t := sub a b.
Definition multiplyScalar (a : t) (s : float) : t :=
  mk (x a * s) (y a * s) (z a * s).
Definition divideScalar (a : t) (s : float) : t := multiplyScalar a (1 / s).
Definition length (a : t) : float :=
  sqrt (x a * x a + y a * y a + z a * z a).
Definition normalize (a : t) : t := divideScalar a (Num.or (length a) 1).
Definition crossVectors (a b : t) : t :=
  mk (y a * z b - z a * y b) (z a * x b - x a * z b) (x a * y b - y a * x b).
Definition addScaledVector (a v : t) (s : float) : t :=
  mk (x a + x v * s) (y a + y v * s) (z a + z v * s).
Definition distanceToSquared (a v : t) : float :=
  let dx := x a - x v in
  let dy := y a - y v in
  let dz := z a - z v in
  dx * dx + dy * dy + dz * dz.
Definition distanceTo (a v : t) : float := sqrt (distanceToSquared a v).
End Vec3.

(** ** Global constants *)

Definition PLAYER_SPEED : float := 10.0.
Definition SPRINT_MULTIPLIER : float := 1.5.
Definition GRAVITY : float := 30.0.
Definition JUMP_FORCE : float := 15.0.

Inductive WeaponType := HITSCAN | PROJECTILE | AOE.

Module Weapon.
Record t := mk {
  name : string;
  damage : Z;
  range : float;
  delay : Z;
  type : WeaponType
}.
End Weapon.

(** The table [WEAPONS]; a slot outside 0..3 reads as [undefined]. *)
Definition WEAPONS (idx : nat) : option Weapon.t :=
  match idx with
  | 0 => Some (Weapon.mk "Knuckles" 10 3 500 HITSCAN)
  | 1 => Some (Weapon.mk "Shotgun" 80 15 1000 HITSCAN)
  | 2 => Some (Weapon.mk "Nailgun" 15 40 100 PROJECTILE)
  | 3 => Some (Weapon.mk "Launcher" 120 60 1500 AOE)
  | _ => None
  end.

Definition sfxMap : list string := ["punch"; "shotgun"; "nailgun"; "launcher"].

Definition isHitscan (ty : WeaponType) : bool :=
  match ty with HITSCAN => true | _ => false end.

(** ** Game state *)

Module Ammo.
Record t := mk { current : Z; max : Z }.
End Ammo.

Module Player.
Record t := mk {
  hp : float;
  armor : Z;
  ammo : Ammo.t;
  velocity : Vec3.t;
  canJump : bool;
  currentWeaponIdx : nat;
  lastFireTime : Z
}.

Definition set_hp (h : float) (p : t) : t :=
  mk h (armor p) (ammo p) (velocity p) (canJump p) (currentWeaponIdx p)
     (lastFireTime p).
Definition set_velocity (v : Vec3.t) (p : t) : t :=
  mk (hp p) (armor p) (ammo p) v (canJump p) (currentWeaponIdx p)
     (lastFireTime p).
Definition set_canJump (b : bool) (p : t) : t :=
  mk (hp p) (armor p) (ammo p) (velocity p) b (currentWeaponIdx p)
     (lastFireTime p).
Definition set_currentWeaponIdx (i : nat) (p : t) : t :=
  mk (hp p) (armor p) (ammo p) (velocity p) (canJump p) i (lastFireTime p).
Definition set_lastFireTime (n : Z) (p : t) : t :=
  mk (hp p) (armor p) (ammo p) (velocity p) (canJump p)
     (currentWeaponIdx p) n.
End Player.

Inductive EnemyState := IDLE | CHASE.

Module Enemy.
(** [mesh] is the sprite's handle; [position] and [map] are the sprite's
    position and the texture of its material. *)
Record t := mk {
  mesh : nat;
  position : Vec3.t;
  map : string;
  hp : Z;
  state : EnemyState;
  speed : float;
  attackRange : float
}.

Definition set_hp (h : Z) (e : t) : t :=
  mk (mesh e) (position e) (map e) h (state e) (speed e) (attackRange e).
Definition set_position (p : Vec3.t) (e : t) : t :=
  mk (mesh e) p (map e) (hp e) (state e) (speed e) (attackRange e).
Definition set_chase (texture : string) (e : t) : t :=
  mk (mesh e) (position e) texture (hp e) CHASE (speed e) (attackRange e).
End Enemy.

Module Projectile.
Record t := mk {
  mesh : nat;
  position : Vec3.t;
  velocity : Vec3.t;
  type : WeaponType;
  damage : Z;
  lifetime : float
}.
End Projectile.

Module LevelMesh.
(** A collidable surface; [isSecret] is [userData.isSecret]. *)
Record t := mk {
  mesh : nat;
  position : Vec3.t;
  isSecret : bool
}.
End LevelMesh.

(** The game object: [cameraPos] is the position of the camera, which is
    also the object the pointer-lock controls move. *)
Record State := mkState {
  player : Player.t;
  cameraPos : Vec3.t;
  enemies : list Enemy.t;
  projectiles : list Projectile.t;
  levelGeometry : list LevelMesh.t;
  nextId : nat
}.

Definition set_player (p : Player.t) (st : State) : State :=
  mkState p (cameraPos st) (enemies st) (projectiles st) (levelGeometry st)
          (nextId st).
Definition set_cameraPos (c : Vec3.t) (st : State) : State :=
  mkState (player st) c (enemies st) (projectiles st) (levelGeometry st)
          (nextId st).
Definition set_enemies (es : list Enemy.t) (st : State) : State :=
  mkState (player st) (cameraPos st) es (projectiles st) (levelGeometry st)
          (nextId st).
Definition set_projectiles (ps : list Projectile.t) (st : State) : State :=
  mkState (player st) (cameraPos st) (enemies st) ps (levelGeometry st)
          (nextId st).
Definition set_levelGeometry (g : list LevelMesh.t) (st : State) : State :=
  mkState (player st) (cameraPos st) (enemies st) (projectiles st) g
          (nextId st).
Definition set_nextId (n : nat) (st : State) : State :=
  mkState (player st) (cameraPos st) (enemies st) (projectiles st)
          (levelGeometry st) n.

(** ** The host: calls made and answers received *)

(** The calls the game makes: [engine.playSound(name)] (which the engine
    turns into sound when the buffer of that name was loaded, and passes
    over otherwise), [scene.add] and [scene.remove], the ray query
    [intersectObjects], [lookAt] on a sprite, the assignments to a sprite's
    texture and colour, and [document.exitPointerLock()]. *)
Inductive Call :=
  | PlaySound (name : string)
  | SceneAdd (mesh : nat)
  | SceneRemove (mesh : nat)
  | IntersectObjects (objects : list nat)
  | LookAt (mesh : nat) (x y z : float)
  | SetMap (mesh : nat) (texture : string)
  | SetColor (mesh : nat) (hex : Z)
  | ExitPointerLock.

Module Hit.
(** One entry of a ray query's answer. *)
Record t := mk { distance : float; object : nat }.
End Hit.

Module Keys.
Record t := mk { w : bool; a : bool; s : bool; d : bool;
                 shift : bool; space : bool }.
End Keys.

(** What the host supplies during one frame: the clock delta, the
    pointer-lock flag, the input snapshot, [Date.now()], the camera's world
    direction, and the answers to the two ray queries (against the level and
    against the enemy sprites), nearest hit first. *)
Record Input := mkInput {
  dt : float;
  isLocked : bool;
  keys : Keys.t;
  mouseLeft : bool;
  now : Z;
  camDir : Vec3.t;
  levelHits : list Hit.t;
  enemyHits : list Hit.t
}.

(** ** Operations of [Game] *)

(** *** Level construction *)

Definition initialPlayer : Player.t :=
  Player.mk 100 0 (Ammo.mk 20 50) Vec3.zero false 0 0.

(** The state left by the constructor: nothing built yet, camera at the
    origin. *)
Definition newGame : State := mkState initialPlayer Vec3.zero [] [] [] 0.

Definition addFloor (st : State) : State :=
  let floor := LevelMesh.mk (nextId st) Vec3.zero false in
  set_nextId (S (nextId st))
    (set_levelGeometry (levelGeometry st ++ [floor]) st).

(** [createWall(x, y, z, w, h, mat)]: the [y] argument is not used, the
    wall is centred at height 5.  [secret] stands for the assignment of
    [userData] that follows the call for the secret wall. *)
Definition createWall (x y z w h : float) (secret : bool) (st : State)
  : State :=
  let mesh := LevelMesh.mk (nextId st) (Vec3.mk x 5 z) secret in
  set_nextId (S (nextId st))
    (set_levelGeometry (levelGeometry st ++ [mesh]) st).

Definition _spawnEnemy (position : Vec3.t) (st : State) : State :=
  let enemy := Enemy.mk (nextId st) position "enemy_idle" 50 IDLE 3.0 2.0 in
  set_nextId (S (nextId st)) (set_enemies (enemies st ++ [enemy]) st).

Definition _buildLevel (st : State) : State :=
  let st := addFloor st in
  let st := createWall 0 5 (-50) 100 1 false st in
  let st := createWall 0 5 50 100 1 false st in
  let st := createWall (-50) 5 0 1 100 false st in
  let st := createWall 50 5 0 1 100 false st in
  let st := createWall 0 5 (-49) 10 1 true st in
  let st := _spawnEnemy (Vec3.mk 0 2.5 (-20)) st in
  _spawnEnemy (Vec3.mk 10 2.5 (-10)) st.

(** The state when the loop starts. *)
Definition initialState : State := _buildLevel newGame.

(** The [switchWeapon] listener. *)
Definition switchWeapon (detail : nat) (st : State) : State :=
  set_player (Player.set_currentWeaponIdx detail (player st)) st.

(** *** Player movement *)

Definition cameraUp : Vec3.t := Vec3.mk 0 1 0.

Definition _handleMovement (inp : Input) (st : State) : State :=
  let keys := keys inp in
  let velocity := Player.velocity (player st) in
  let speed :=
    if Keys.shift keys then (PLAYER_SPEED * SPRINT_MULTIPLIER)%float
    else PLAYER_SPEED in
  let front := Vec3.normalize (Vec3.set_y (camDir inp) 0) in
  let side := Vec3.normalize (Vec3.crossVectors front cameraUp) in
  let direction := Vec3.zero in
  let direction := if Keys.w keys then Vec3.add direction front else direction in
  let direction := if Keys.s keys then Vec3.sub direction front else direction in
  let direction := if Keys.a keys then Vec3.sub direction side else direction in
  let direction := if Keys.d keys then Vec3.add direction side else direction in
  let direction := Vec3.normalize direction in
  let vx := (Vec3.x direction * speed)%float in
  let vz := (Vec3.z direction * speed)%float in
  let vy := (Vec3.y velocity - GRAVITY * dt inp)%float in
  let jump := Keys.space keys && Player.canJump (player st) in
  let vy := if jump then JUMP_FORCE else vy in
  let canJump := if jump then false else Player.canJump (player st) in
  let pos := cameraPos st in
  let px := (Vec3.x pos + vx * dt inp)%float in
  let py := (Vec3.y pos + vy * dt inp)%float in
  let pz := (Vec3.z pos + vz * dt inp)%float in
  if (py <? 2.5)%float then
    set_cameraPos (Vec3.mk px 2.5 pz)
      (set_player
         (Player.set_canJump true
            (Player.set_velocity (Vec3.mk vx 0 vz) (player st))) st)
  else
    set_cameraPos (Vec3.mk px py pz)
      (set_player
         (Player.set_canJump canJump
            (Player.set_velocity (Vec3.mk vx vy vz) (player st))) st).

(** *** Environment: the secret wall *)

(** The effect of the trigger on one surface of the level, [object] being
    the surface the nearest hit refers to. *)
Definition openSecret (object : nat) (g : LevelMesh.t) : LevelMesh.t :=
  if Nat.eqb (LevelMesh.mesh g) object then
    if LevelMesh.isSecret g then
      if (-5 <? Vec3.y (LevelMesh.position g))%float then
        LevelMesh.mk (LevelMesh.mesh g)
          (Vec3.set_y (LevelMesh.position g)
             (Vec3.y (LevelMesh.position g) - 0.1)%float)
          (LevelMesh.isSecret g)
      else g
    else g
  else g.

Definition _handleEnvironment (inp : Input) (st : State) : State * list Call :=
  let tr := [IntersectObjects (LevelMesh.mesh <$> levelGeometry st)] in
  match levelHits inp with
  | [] => (st, tr)
  | hit :: _ =>
      if (Hit.distance hit <? 4.0)%float then
        (set_levelGeometry
           (openSecret (Hit.object hit) <$> levelGeometry st) st, tr)
      else (st, tr)
  end.

(** *** Damage *)

(** The object with handle [m], as the array holds it. *)
Definition sameEnemy (m : nat) (e : Enemy.t) : bool := Nat.eqb (Enemy.mesh e) m.

(** [this.enemies.indexOf(enemy)]. *)
Fixpoint indexOf (m : nat) (es : list Enemy.t) : option nat :=
  match es with
  | [] => None
  | e :: rest => if sameEnemy m e then Some 0 else S <$> indexOf m rest
  end.

Definition _killEnemy (enemy : Enemy.t) (st : State) : State * list Call :=
  let tr := [PlaySound "die"; SceneRemove (Enemy.mesh enemy)] in
  match indexOf (Enemy.mesh enemy) (enemies st) with
  | Some idx => (set_enemies (delete idx (enemies st)) st, tr)
  | None => (st, tr)
  end.

(** A write to a field of the enemy object shows in every slot of the array
    that holds the object. *)
Definition storeEnemy (enemy : Enemy.t) (es : list Enemy.t) : list Enemy.t :=
  (fun e => if sameEnemy (Enemy.mesh enemy) e then enemy else e) <$> es.

(** [_damageEnemy]; the timer that reverts the red flash after 100 ms only
    touches the colour and is left to the host. *)
Definition _damageEnemy (enemy : Enemy.t) (damage : Z) (st : State)
  : State * list Call :=
  let enemy := Enemy.set_hp (Enemy.hp enemy - damage) enemy in
  let st := set_enemies (storeEnemy enemy (enemies st)) st in
  let tr := [SetColor (Enemy.mesh enemy) 0xff0000] in
  if (Enemy.hp enemy <=? 0)%Z then
    let '(st, tr') := _killEnemy enemy st in (st, tr ++ tr')
  else (st, tr).

(** *** Shooting *)

Definition _fireHitscan (weapon : Weapon.t) (inp : Input) (st : State)
  : State * list Call :=
  let enemyMeshes := Enemy.mesh <$> enemies st in
  let tr := [IntersectObjects enemyMeshes] in
  match enemyHits inp with
  | [] => (st, tr)
  | hit :: _ =>
      if (Hit.distance hit <=? Weapon.range weapon)%float then
        match List.find (sameEnemy (Hit.object hit)) (enemies st) with
        | Some enemy =>
            let '(st, tr') := _damageEnemy enemy (Weapon.damage weapon) st in
            (st, tr ++ tr')
        | None => (st, tr)
        end
      else (st, tr)
  end.

Definition _fireProjectile (weapon : Weapon.t) (inp : Input) (st : State)
  : State * list Call :=
  let sphere := nextId st in
  let dir := camDir inp in
  let position := Vec3.addScaledVector (cameraPos st) dir 1 in
  let p := Projectile.mk sphere position (Vec3.multiplyScalar dir 30)
             (Weapon.type weapon) (Weapon.damage weapon) 2.0 in
  (set_nextId (S sphere) (set_projectiles (projectiles st ++ [p]) st),
   [SceneAdd sphere]).

(** [None] is the TypeError raised by [weapon.delay] when the slot holds no
    weapon; nothing has been written at that point. *)
Definition _handleShooting (inp : Input) (st : State)
  : option (State * list Call) :=
  if negb (mouseLeft inp) then Some (st, [])
  else
    let idx := Player.currentWeaponIdx (player st) in
    weapon ← WEAPONS idx;
    if (Weapon.delay weapon <? now inp - Player.lastFireTime (player st))%Z
    then
      let st := set_player (Player.set_lastFireTime (now inp) (player st)) st in
      let tr := from_option (fun name => [PlaySound name]) [] (sfxMap !! idx) in
      let '(st, tr') :=
        if isHitscan (Weapon.type weapon) then _fireHitscan weapon inp st
        else _fireProjectile weapon inp st in
      Some (st, tr ++ tr')
    else Some (st, []).

(** *** Projectiles *)

(** The proximity test of the inner loop. *)
Definition near (p : Projectile.t) (enemy : Enemy.t) : bool :=
  (Vec3.distanceTo (Projectile.position p) (Enemy.position enemy) <? 2.0)%float.

(** The move at the head of the loop body. *)
Definition advance (dt : float) (p : Projectile.t) : Projectile.t :=
  Projectile.mk (Projectile.mesh p)
    (Vec3.addScaledVector (Projectile.position p) (Projectile.velocity p) dt)
    (Projectile.velocity p) (Projectile.type p) (Projectile.damage p)
    (Projectile.lifetime p - dt)%float.

(** The body of the loop of [_updateProjectiles] at index [i].  The inner
    [for ... of] with its [break] stops at the first enemy that is near. *)
Definition projectileBody (dt : float) (i : nat) (st : State)
  : State * list Call :=
  match projectiles st !! i with
  | None => (st, [])
  | Some p =>
      let p := advance dt p in
      let st := set_projectiles (<[i := p]> (projectiles st)) st in
      let '(st, hit, tr) :=
        match List.find (near p) (enemies st) with
        | Some enemy =>
            let '(st, tr) := _damageEnemy enemy (Projectile.damage p) st in
            (st, true, tr)
        | None => (st, false, [])
        end in
      if hit || (Projectile.lifetime p <=? 0)%float then
        (set_projectiles (delete i (projectiles st)) st,
         tr ++ [SceneRemove (Projectile.mesh p)])
      else (st, tr)
  end.

(** [for (let i = n - 1; i >= 0; i--)]. *)
Fixpoint projectileLoop (dt : float) (n : nat) (st : State)
  : State * list Call :=
  match n with
  | 0 => (st, [])
  | S i =>
      let '(st, tr) := projectileBody dt i st in
      let '(st, tr') := projectileLoop dt i st in
      (st, tr ++ tr')
  end.

Definition _updateProjectiles (dt : float) (st : State) : State * list Call :=
  projectileLoop dt (length (projectiles st)) st.

(** *** Enemies *)

(** The callback of [this.enemies.forEach]: the enemy, and the player's hit
    points, before and after. *)
Definition updateEnemy (dt : float) (playerPos : Vec3.t) (enemy : Enemy.t)
    (playerHp : float) : Enemy.t * float * list Call :=
  if (Enemy.hp enemy <=? 0)%Z then (enemy, playerHp, [])
  else
    let tr := [LookAt (Enemy.mesh enemy) (Vec3.x playerPos)
                 (Vec3.y (Enemy.position enemy)) (Vec3.z playerPos)] in
    let dist := Vec3.distanceTo (Enemy.position enemy) playerPos in
    if (dist <? 25)%float then
      let '(enemy, tr) :=
        match Enemy.state enemy with
        | IDLE =>
            (Enemy.set_chase "enemy_chase" enemy,
             tr ++ [SetMap (Enemy.mesh enemy) "enemy_chase"; PlaySound "alert"])
        | CHASE => (enemy, tr)
        end in
      if (Enemy.attackRange enemy <? dist)%float then
        let dir :=
          Vec3.normalize (Vec3.subVectors playerPos (Enemy.position enemy)) in
        let dir := Vec3.set_y dir 0 in
        (Enemy.set_position
           (Vec3.addScaledVector (Enemy.position enemy) dir
              (Enemy.speed enemy * dt)%float) enemy,
         playerHp, tr)
      else (enemy, (playerHp - 0.1)%float, tr)
    else (enemy, playerHp, tr).

Fixpoint enemyLoop (dt : float) (playerPos : Vec3.t) (es : list Enemy.t)
    (playerHp : float) : list Enemy.t * float * list Call :=
  match es with
  | [] => ([], playerHp, [])
  | enemy :: rest =>
      let '(enemy, playerHp, tr) := updateEnemy dt playerPos enemy playerHp in
      let '(rest, playerHp, tr') := enemyLoop dt playerPos rest playerHp in
      (enemy :: rest, playerHp, tr ++ tr')
  end.

Definition _updateEnemies (dt : float) (st : State) : State * list Call :=
  let '(es, playerHp, tr) :=
    enemyLoop dt (cameraPos st) (enemies st) (Player.hp (player st)) in
  (set_player (Player.set_hp playerHp (player st)) (set_enemies es st), tr).

(** *** HUD *)

Module Hud.
(** What [_updateHUD] leaves in the page: the armor and ammo texts and
    the face picture.  The health text, [Math.floor] of the hit points,
    is presentation only and is not kept. *)
Record t := mk { armor : string; ammo : string; face : string }.
End Hud.

(** [None] is the TypeError raised by [weapon.name] on an empty slot. *)
Definition _updateHUD (st : State) : option (Hud.t * list Call) :=
  weapon ← WEAPONS (Player.currentWeaponIdx (player st));
  let ammo :=
    pretty (Ammo.current (Player.ammo (player st))) +:+ " | "
      +:+ Weapon.name weapon in
  let faceSrc :=
    if (Player.hp (player st) <=? 0)%float then "assets/images/ui/face_dead.png"
    else if (Player.hp (player st) <? 50)%float
         then "assets/images/ui/face_hurt.png"
         else "assets/images/ui/face_healthy.png" in
  Some (Hud.mk (pretty (Player.armor (player st))) ammo faceSrc,
        if (Player.hp (player st) <=? 0)%float then [ExitPointerLock] else []).

(** *** The frame *)

Definition _gameLoop (inp : Input) (st : State)
  : option (State * list Call * Hud.t) :=
  '(st, tr1) ←
    (if isLocked inp then
       let st := _handleMovement inp st in
       '(st, trS) ← _handleShooting inp st;
       let '(st, trE) := _handleEnvironment inp st in
       Some (st, trS ++ trE)
     else Some (st, []));
  let '(st, tr2) := _updateEnemies (dt inp) st in
  let '(st, tr3) := _updateProjectiles (dt inp) st in
  '(hud, tr4) ← _updateHUD st;
  Some (st, tr1 ++ tr2 ++ tr3 ++ tr4, hud).

(** ** Executions *)

(** One step of the session: a frame, with whatever the host supplies, or a
    weapon switch; [Engine._onKey] dispatches the slots 0 to 3 for the keys
    1 to 4. *)
Inductive Step : State -> State -> Prop :=
  | step_frame inp st st' tr hud :
      _gameLoop inp st = Some (st', tr, hud) -> Step st st'
  | step_switch detail st :
      detail < 4 -> Step st (switchWeapon detail st).

Inductive Steps : State -> State -> Prop :=
  | steps_refl st : Steps st st
  | steps_step st st' st'' : Steps st st' -> Step st' st'' -> Steps st st''.

Definition Reachable (st : State) : Prop := Steps initialState st.

(** Running a list of frames. *)
Fixpoint run (inps : list Input) (st : State) : option State :=
  match inps with
  | [] => Some st
  | inp :: rest => '(st, _, _) ← _gameLoop inp st; run rest st
  end.

(** ** Vocabulary of the statements *)

(** The enemy array after [enemy], standing between [l1] and [l2], has
    taken [damage]: it has lost that many hit points, and it has left the
    array when none remain. *)
Definition afterDamage (enemy : Enemy.t) (damage : Z) (l1 l2 : list Enemy.t)
  : list Enemy.t :=
  if (Enemy.hp enemy - damage <=? 0)%Z then l1 ++ l2
  else l1 ++ Enemy.set_hp (Enemy.hp enemy - damage) enemy :: l2.

(** [enemy] alone took [damage] between the arrays [es] and [es']. *)
Definition Damaged (enemy : Enemy.t) (damage : Z) (es es' : list Enemy.t)
  : Prop :=
  exists l1 l2, es = l1 ++ enemy :: l2 /\ es' = afterDamage enemy damage l1 l2.

(** An enemy object at two moments of its life. *)
Record Ages (e e' : Enemy.t) : Prop := mkAges {
  ages_mesh : Enemy.mesh e' = Enemy.mesh e;
  ages_hp : (Enemy.hp e' <= Enemy.hp e)%Z;
  ages_chase : Enemy.state e = CHASE -> Enemy.state e' = CHASE
}.

(** The active set at two moments: enemies age or leave, none joins. *)
Inductive Evolve : list Enemy.t -> list Enemy.t -> Prop :=
  | evolve_nil : Evolve [] []
  | evolve_keep e e' l l' : Ages e e' -> Evolve l l' -> Evolve (e :: l) (e' :: l')
  | evolve_drop e l l' : Evolve l l' -> Evolve (e :: l) l'.

(** What holds of every state of a session. *)
Record Inv (st : State) : Prop := mkInv {
  inv_nodup : NoDup (Enemy.mesh <$> enemies st);
  inv_alive : Forall (fun e => (0 < Enemy.hp e)%Z) (enemies st);
  inv_damage : Forall (fun p => (0 <= Projectile.damage p)%Z) (projectiles st);
  inv_slot : Player.currentWeaponIdx (player st) < 4;
  inv_ammo : Player.ammo (player st) = Ammo.mk 20 50
}.

(** A call that resolves a shot: the ray query of a hitscan weapon or the
    entry of a new projectile into the scene. *)
Definition isResolution (c : Call) : bool :=
  match c with
  | IntersectObjects _ | SceneAdd _ => true
  | _ => false
  end.

Definition isAlert (c : Call) : bool :=
  match c with
  | PlaySound name => String.eqb name "alert"
  | SetMap _ _ => true
  | _ => false
  end.

(** The vertical part of [_handleMovement]: whether the frame starts a
    jump, the vertical velocity after gravity and jump, and the height the
    camera is moved to before the floor test. *)
Definition jumps (inp : Input) (st : State) : bool :=
  Keys.space (keys inp) && Player.canJump (player st).

Definition verticalVelocity (inp : Input) (st : State) : float :=
  if jumps inp st then JUMP_FORCE
  else (Vec3.y (Player.velocity (player st)) - GRAVITY * dt inp)%float.

Definition integratedHeight (inp : Input) (st : State) : float :=
  (Vec3.y (cameraPos st) + verticalVelocity inp st * dt inp)%float.


(** Whether the trigger of a frame lowers the surface [g]. *)
Definition lowers (inp : Input) (g : LevelMesh.t) : bool :=
  match levelHits inp with
  | [] => false
  | hit :: _ =>
      (Hit.distance hit <? 4.0)%float
      && Nat.eqb (LevelMesh.mesh g) (Hit.object hit)
      && LevelMesh.isSecret g
      && (-5 <? Vec3.y (LevelMesh.position g))%float
  end.

Definition lowered (g : LevelMesh.t) : LevelMesh.t :=
  LevelMesh.mk (LevelMesh.mesh g)
    (Vec3.set_y (LevelMesh.position g)
       (Vec3.y (LevelMesh.position g) - 0.1)%float)
    (LevelMesh.isSecret g).

(** One step of the trigger on the height of the secret wall, the heights
    it passes through from 5 on, and the level with the secret wall at a
    given height. *)
Definition sinkStep (y : float) : float :=
  if (-5 <? y)%float then (y - 0.1)%float else y.

Fixpoint sink (k : nat) : float :=
  match k with
  | 0 => 5%float
  | S k => sinkStep (sink k)
  end.

Definition levelWith (y : float) : list LevelMesh.t :=
  [LevelMesh.mk 0 Vec3.zero false;
   LevelMesh.mk 1 (Vec3.mk 0 5 (-50)) false;
   LevelMesh.mk 2 (Vec3.mk 0 5 50) false;
   LevelMesh.mk 3 (Vec3.mk (-50) 5 0) false;
   LevelMesh.mk 4 (Vec3.mk 50 5 0) false;
   LevelMesh.mk 5 (Vec3.mk 0 y (-49)) true].

(** Whether the enemy strikes the player in its turn of the per-frame
    pass, and the hit points the pass leaves the player with. *)
Definition attacks (playerPos : Vec3.t) (e : Enemy.t) : bool :=
  negb (Enemy.hp e <=? 0)%Z
  && (Vec3.distanceTo (Enemy.position e) playerPos <? 25)%float
  && negb (Enemy.attackRange e
           <? Vec3.distanceTo (Enemy.position e) playerPos)%float.

Definition drain (playerPos : Vec3.t) (es : list Enemy.t) (playerHp : float)
  : float :=
  fold_left
    (fun h e => if attacks playerPos e then (h - 0.1)%float else h) es playerHp.

(** ** Sample frames *)

Definition noKeys : Keys.t := Keys.mk false false false false false false.

Definition ahead : Vec3.t := Vec3.mk 0 0 (-1).

(** A frame of [dt] seconds with the controls locked and nothing held, the
    camera looking down the negative z axis. *)
Definition idleFrame (dt : float) : Input :=
  mkInput dt true noKeys false 0 ahead [] [].

(** A 16 ms frame at time [now] with the primary button held, the ray
    through the view centre meeting the enemy sprites as [hits] tells. *)
Definition fireFrame (now : Z) (hits : list Hit.t) : Input :=
  mkInput 0.016 true noKeys true now ahead [] hits.

(** The session after the player has taken the nailgun and shot once. *)
Definition armedState : State :=
  default initialState (run [fireFrame 1000 []] (switchWeapon 2 initialState)).

(** The nail of [armedState], one frame into its flight. *)
Definition nail : Projectile.t :=
  Projectile.mk 8 (Vec3.mk 0 2.5 (-1.48)) (Vec3.mk 0 0 (-30)) PROJECTILE 15
    1.984.

(** A 250 ms frame with the controls locked and at most the jump key held. *)
Definition jumpFrame (space : bool) : Input :=
  mkInput 0.25 true (Keys.mk false false false false false space) false 0
    ahead [] [].

(** The session five such frames in: the player has landed on the floor,
    jumped, and is on the way down. *)
Definition fallingState : State :=
  default initialState
    (run [jumpFrame false; jumpFrame true; jumpFrame false; jumpFrame false;
          jumpFrame false] initialState).

(** A 16 ms frame in which the view ray first meets the surface with handle
    5, the secret wall, 3 units away. *)
Definition lookFrame : Input :=
  mkInput 0.016 true noKeys false 0 ahead [Hit.mk 3 5] [].

(** The session after [n] idle frames of 16 ms: the two enemies of the
    level close in on the player and then stay at arm's length. *)
Definition siege (n : nat) : State :=
  default initialState (run (repeat (idleFrame 0.016) n) initialState).

(** The first enemy of the level as spawned, 20 units in front of a player
    who stands at the origin, eyes at 2.5. *)
Definition firstSpawn : Enemy.t :=
  Enemy.mk 6 (Vec3.mk 0 2.5 (-20)) "enemy_idle" 50 IDLE 3.0 2.0.

Definition standing : Vec3.t := Vec3.mk 0 2.5 0.

(** An enemy in pursuit, and a camera 12 above and 16 away from it: the
    height 14.5 is where a jump started in a frame of 0.8 s takes the
    camera (see [leapFrame]). *)
Definition chaser : Enemy.t :=
  Enemy.mk 6 (Vec3.mk 0 2.5 (-16)) "enemy_chase" 50 CHASE 3.0 2.0.

Definition airborne : Vec3.t := Vec3.mk 0 14.5 0.

(** A frame of 0.8 s with the jump key held. *)
Definition leapFrame : Input :=
  mkInput 0.8 true (Keys.mk false false false false false true) false 0
    ahead [] [].

(** A player standing at the origin with two enemies at arm's length, one
    in front and one to the right. *)
Definition cornered : State :=
  set_cameraPos standing
    (set_enemies
       [Enemy.mk 6 (Vec3.mk 0 2.5 (-1.5)) "enemy_chase" 50 CHASE 3.0 2.0;
        Enemy.mk 7 (Vec3.mk 1.5 2.5 0) "enemy_chase" 50 CHASE 3.0 2.0]
       initialState).

(** ** The engine: input events *)

(** The game together with the input snapshot the engine keeps for it:
    [engine.keys] and [engine.mouseCheck.left]. *)
Module World.
Record t := mk { game : State; keys : Keys.t; mouseLeft : bool }.

Definition set_game (g : State) (w : t) : t := mk g (keys w) (mouseLeft w).
Definition set_keys (k : Keys.t) (w : t) : t := mk (game w) k (mouseLeft w).
Definition set_mouseLeft (b : bool) (w : t) : t := mk (game w) (keys w) b.
End World.

(** [Engine._onKey]: the [switch] on [e.code].  A digit key that goes down
    dispatches [switchWeapon], which the listener of [_setupListeners]
    handles before [dispatchEvent] returns. *)
Definition _onKey (code : string) (isDown : bool) (w : World.t) : World.t :=
  let k := World.keys w in
  if String.eqb code "KeyW" then
    World.set_keys (Keys.mk isDown (Keys.a k) (Keys.s k) (Keys.d k)
                      (Keys.shift k) (Keys.space k)) w
  else if String.eqb code "KeyA" then
    World.set_keys (Keys.mk (Keys.w k) isDown (Keys.s k) (Keys.d k)
                      (Keys.shift k) (Keys.space k)) w
  else if String.eqb code "KeyS" then
    World.set_keys (Keys.mk (Keys.w k) (Keys.a k) isDown (Keys.d k)
                      (Keys.shift k) (Keys.space k)) w
  else if String.eqb code "KeyD" then
    World.set_keys (Keys.mk (Keys.w k) (Keys.a k) (Keys.s k) isDown
                      (Keys.shift k) (Keys.space k)) w
  else if String.eqb code "ShiftLeft" then
    World.set_keys (Keys.mk (Keys.w k) (Keys.a k) (Keys.s k) (Keys.d k)
                      isDown (Keys.space k)) w
  else if String.eqb code "Space" then
    World.set_keys (Keys.mk (Keys.w k) (Keys.a k) (Keys.s k) (Keys.d k)
                      (Keys.shift k) isDown) w
  else if String.eqb code "Digit1" then
    if isDown then World.set_game (switchWeapon 0 (World.game w)) w else w
  else if String.eqb code "Digit2" then
    if isDown then World.set_game (switchWeapon 1 (World.game w)) w else w
  else if String.eqb code "Digit3" then
    if isDown then World.set_game (switchWeapon 2 (World.game w)) w else w
  else if String.eqb code "Digit4" then
    if isDown then World.set_game (switchWeapon 3 (World.game w)) w else w
  else w.

(** The [mousedown] and [mouseup] listeners. *)
Definition onMouseDown (button : Z) (w : World.t) : World.t :=
  if (button =? 0)%Z then World.set_mouseLeft true w else w.

Definition onMouseUp (button : Z) (w : World.t) : World.t :=
  if (button =? 0)%Z then World.set_mouseLeft false w else w.

(** The input of a frame: what the host answers in [host], with the keys
    and the button as the engine has recorded them. *)
Definition snapshot (host : Input) (w : World.t) : Input :=
  mkInput (dt host) (isLocked host) (World.keys w) (World.mouseLeft w)
    (now host) (camDir host) (levelHits host) (enemyHits host).

(** The animation-loop callback of [start]. *)
Definition onFrame (host : Input) (w : World.t)
  : option (World.t * list Call * Hud.t) :=
  '(st, tr, hud) ← _gameLoop (snapshot host w) (World.game w);
  Some (World.set_game st w, tr, hud).

Inductive Event :=
  | KeyDown (code : string)
  | KeyUp (code : string)
  | MouseDown (button : Z)
  | MouseUp (button : Z)
  | AnimationFrame (host : Input).

Definition dispatch (e : Event) (w : World.t) : option World.t :=
  match e with
  | KeyDown code => Some (_onKey code true w)
  | KeyUp code => Some (_onKey code false w)
  | MouseDown button => Some (onMouseDown button w)
  | MouseUp button => Some (onMouseUp button w)
  | AnimationFrame host => '(w, _, _) ← onFrame host w; Some w
  end.

Fixpoint runEvents (evs : list Event) (w : World.t) : option World.t :=
  match evs with
  | [] => Some w
  | e :: rest => w ← dispatch e w; runEvents rest w
  end.

(** The state of a key after the events [evs]: that of its last event, or
    [init] when there is none. *)
Definition lastKey (code : string) (evs : list Event) (init : bool) : bool :=
  fold_left
    (fun b e =>
       match e with
       | KeyDown c => if String.eqb c code then true else b
       | KeyUp c => if String.eqb c code then false else b
       | _ => b
       end) evs init.

Definition lastButton (evs : list Event) (init : bool) : bool :=
  fold_left
    (fun b e =>
       match e with
       | MouseDown button => if (button =? 0)%Z then true else b
       | MouseUp button => if (button =? 0)%Z then false else b
       | _ => b
       end) evs init.

(** ** The engine: assets *)

Module Assets.
(** A texture is the image of a path, or the red square drawn when the
    image fails to load; a sound is a decoded buffer, named here by its
    path, or [null] ([None]) when it fails to load.  A name that was never
    loaded is absent from the table. *)
Inductive Texture := Image (path : string) | RedSquare.

Record t := mk {
  textures : gmap string Texture;
  sounds : gmap string (option string)
}.

Definition empty : t := mk ∅ ∅.
End Assets.

(** The settlement of one [loadTexture(name, path)] or
    [loadSound(name, path)]: [ok] tells whether the loader called [onLoad]
    or [onError].  Either way the promise resolves. *)
Definition loadTexture (name path : string) (ok : bool) (a : Assets.t)
  : Assets.t :=
  Assets.mk
    (<[name := if ok then Assets.Image path else Assets.RedSquare]>
       (Assets.textures a))
    (Assets.sounds a).

Definition loadSound (name path : string) (ok : bool) (a : Assets.t)
  : Assets.t :=
  Assets.mk (Assets.textures a)
    (<[name := if ok then Some path else None]> (Assets.sounds a)).

Module Audio.
(** A playing [THREE.Audio]. *)
Record t := mk { buffer : string; volume : float }.
End Audio.

(** The names every object inherits from [Object.prototype].  The tables
    are plain objects: reading one of these names, when no load has bound
    it, yields the inherited function or object, which is truthy. *)
Definition objectPrototype : list string :=
  ["constructor"; "hasOwnProperty"; "isPrototypeOf"; "propertyIsEnumerable";
   "toLocaleString"; "toString"; "valueOf"; "__proto__";
   "__defineGetter__"; "__defineSetter__"; "__lookupGetter__";
   "__lookupSetter__"].

(** [Engine.playSound]: the sounds it starts.  A [null] entry and a name
    that reads as [undefined] fail the guard and nothing is played.  For an
    inherited name the guard passes, and [play] then raises a TypeError
    when it hands the value read, which is no buffer, to the audio source:
    that is [None]. *)
Definition playSound (name : string) (a : Assets.t) : option (list Audio.t) :=
  match Assets.sounds a !! name with
  | Some (Some buffer) => Some [Audio.mk buffer 0.5]
  | Some None => Some []
  | None => if bool_decide (name ∈ objectPrototype) then None else Some []
  end.

Module Load.
(** A load that has settled. *)
Record t := mk { name : string; path : string; ok : bool }.
End Load.

(** The tables after the loads [ls] have settled, in that order. *)
Definition settleTextures (ls : list Load.t) (a : Assets.t) : Assets.t :=
  fold_left (fun a l => loadTexture (Load.name l) (Load.path l) (Load.ok l) a)
    ls a.

Definition settleSounds (ls : list Load.t) (a : Assets.t) : Assets.t :=
  fold_left (fun a l => loadSound (Load.name l) (Load.path l) (Load.ok l) a)
    ls a.

(** The loads [init] starts, as (name, path). *)
Definition textureRequests : list (string * string) :=
  [("wall", "assets/textures/wall.png");
   ("wall_secret", "assets/textures/wall_secret.png");
   ("floor", "assets/textures/floor.png");
   ("enemy_idle", "assets/images/sprites/enemy_idle.png");
   ("enemy_chase", "assets/images/sprites/enemy_chase.png")].

Definition soundRequests : list (string * string) :=
  [("punch", "assets/sfx/weapon_punch.mp3");
   ("shotgun", "assets/sfx/weapon_shotgun.mp3");
   ("nailgun", "assets/sfx/weapon_nailgun.mp3");
   ("launcher", "assets/sfx/weapon_launcher.mp3");
   ("alert", "assets/sfx/enemy_alert.mp3");
   ("die", "assets/sfx/enemy_die.mp3")].

(** ** Vocabulary of the engine, the frame and the session *)

(** The loads [ls] are those of the requests [reqs], settled in some
    order, each with its own outcome. *)
Definition answers (reqs : list (string * string)) (ls : list Load.t) : Prop :=
  (fun l => (Load.name l, Load.path l)) <$> ls ≡ₚ reqs.

(** The tables when [init] goes on to build the level: the textures have
    settled, then the sounds. *)
Definition initAssets (ts ss : list Load.t) : Assets.t :=
  settleSounds ss (settleTextures ts Assets.empty).

(** A call that names an asset names one that [init] requests. *)
Definition knownCall (c : Call) : Prop :=
  match c with
  | PlaySound name => name ∈ soundRequests.*1
  | SetMap _ texture => texture ∈ textureRequests.*1
  | _ => True
  end.

(** A call that belongs to a shot: the cue of a weapon, a ray query, or
    the entry of a projectile into the scene. *)
Definition isShot (c : Call) : bool :=
  match c with
  | PlaySound name => bool_decide (name ∈ sfxMap)
  | IntersectObjects _ | SceneAdd _ => true
  | _ => false
  end.

(** Whether the frame honours a fire request with [weapon] in hand. *)
Definition fires (inp : Input) (st : State) (weapon : Weapon.t) : bool :=
  isLocked inp && mouseLeft inp
  && (Weapon.delay weapon <? now inp - Player.lastFireTime (player st))%Z.

(** A frame without pointer lock in which the player holds the forward
    key, the jump key and the button, the view rays meeting the secret
    wall and the first enemy. *)
Definition pausedFrame : Input :=
  mkInput 0.016 false (Keys.mk true false false false false true) true 5000
    ahead [Hit.mk 3 5] [Hit.mk 1 6].

(** The projectile carries the type and the damage of a weapon of the
    table that is not hitscan. *)
Definition loaded (p : Projectile.t) : Prop :=
  exists idx weapon,
    WEAPONS idx = Some weapon /\ isHitscan (Weapon.type weapon) = false /\
    Projectile.type p = Weapon.type weapon /\
    Projectile.damage p = Weapon.damage weapon.

(** The enemy [e] against [e0], the enemy it was spawned as: the same
    sprite, speed and attack range; while idle, the same place and
    texture; in pursuit, the texture of pursuit. *)
Definition asSpawned (e0 e : Enemy.t) : Prop :=
  Enemy.mesh e = Enemy.mesh e0 /\
  Enemy.speed e = Enemy.speed e0 /\
  Enemy.attackRange e = Enemy.attackRange e0 /\
  match Enemy.state e with
  | IDLE => Enemy.position e = Enemy.position e0 /\ Enemy.map e = Enemy.map e0
  | CHASE => Enemy.map e = "enemy_chase"
  end.

(** The death cues among the calls of a frame. *)
Definition isDie (c : Call) : bool :=
  match c with
  | PlaySound name => String.eqb name "die"
  | _ => false
  end.

Definition dies (tr : list Call) : nat := length (List.filter isDie tr).

(** The horizontal axes of [_handleMovement]: the view direction flattened
    and normalised, and its normal in the floor plane. *)
Definition frontOf (inp : Input) : Vec3.t :=
  Vec3.normalize (Vec3.set_y (camDir inp) 0).

Definition sideOf (inp : Input) : Vec3.t :=
  Vec3.normalize (Vec3.crossVectors (frontOf inp) cameraUp).

Definition finiteVec (v : Vec3.t) : bool :=
  Num.finite (Vec3.x v) && Num.finite (Vec3.y v) && Num.finite (Vec3.z v).

(** A 16 ms frame under pointer lock with all four movement keys held. *)
Definition allKeysFrame : Input :=
  mkInput 0.016 true (Keys.mk true true true true true false) false 0
    ahead [] [].

(** ** The enemy's turn, the opening frame and the view of the secret wall *)

(** Whether the enemy's turn of the callback takes it from IDLE to CHASE,
    and the calls that mark the transition. *)
Definition turns (playerPos : Vec3.t) (e : Enemy.t) : bool :=
  match Enemy.state e with
  | IDLE => (Vec3.distanceTo (Enemy.position e) playerPos <? 25)%float
  | CHASE => false
  end.

Definition alertOf (playerPos : Vec3.t) (e : Enemy.t) : list Call :=
  if turns playerPos e
  then [SetMap (Enemy.mesh e) "enemy_chase"; PlaySound "alert"]
  else [].

(** A 16 ms frame under pointer lock in which the player runs backwards,
    away from the enemies, the view ray meeting the far wall. *)
Definition retreatFrame : Input :=
  mkInput 0.016 true (Keys.mk false false true false true false) false 0
    ahead [Hit.mk 60 1] [].

(** The session after [n] frames of retreat. *)
Definition fled (n : nat) : State :=
  default initialState (run (repeat retreatFrame n) initialState).

(** The first frame under pointer lock, [dt] long, nothing held: the view
    ray meets the secret wall, 48.5 away. *)
Definition openingFrame (dt : float) : Input :=
  mkInput dt true noKeys false 0 ahead [Hit.mk 48.5 5] [].











(** ** Auxiliary facts *)

Section Lists.
Context {A : Type}.

Lemma find_split (f : A -> bool) (l : list A) (x : A) :
  List.find f l = Some x ->
  exists l1 l2, l = l1 ++ x :: l2 /\ f x = true /\
                Forall (fun y => f y = false) l1.
Proof.
  induction l as [|a l IH]; simpl; [discriminate|].
  destruct (f a) eqn:Ha.
  - intros [= ->]. exists [], l. auto.
  - intros H. destruct (IH H) as (l1 & l2 & -> & Hx & Hl1).
    exists (a :: l1), l2. repeat split; auto.
Qed.

Lemma find_none_Forall (f : A -> bool) (l : list A) :
  List.find f l = None -> Forall (fun y => f y = false) l.
Proof.
  induction l as [|a l IH]; simpl; [constructor|].
  destruct (f a) eqn:Ha; [discriminate|]. auto.
Qed.
End Lists.

Lemma sameEnemy_true m e : sameEnemy m e = true <-> Enemy.mesh e = m.
Proof. unfold sameEnemy. apply Nat.eqb_eq. Qed.

Lemma sameEnemy_false m e : sameEnemy m e = false <-> Enemy.mesh e <> m.
Proof. unfold sameEnemy. apply Nat.eqb_neq. Qed.

Lemma NoDup_meshes_split (l1 l2 : list Enemy.t) (e : Enemy.t) :
  NoDup (Enemy.mesh <$> (l1 ++ e :: l2)) ->
  Forall (fun y => sameEnemy (Enemy.mesh e) y = false) l1 /\
  Forall (fun y => sameEnemy (Enemy.mesh e) y = false) l2.
Proof.
  rewrite fmap_app, fmap_cons, NoDup_app, NoDup_cons.
  intros (_ & Hdisj & Hnot & _).
  split; apply Forall_forall; intros y Hy; apply sameEnemy_false; intros Heq.
  - apply (Hdisj (Enemy.mesh y)).
    + apply list_elem_of_fmap. eauto.
    + rewrite Heq. left.
  - apply Hnot. rewrite <- Heq. apply list_elem_of_fmap. eauto.
Qed.

Lemma storeEnemy_other (e' : Enemy.t) (l : list Enemy.t) :
  Forall (fun y => sameEnemy (Enemy.mesh e') y = false) l -> storeEnemy e' l = l.
Proof.
  unfold storeEnemy. induction 1 as [|y l Hy _ IH]; [reflexivity|].
  rewrite fmap_cons, IH, Hy. reflexivity.
Qed.

Lemma storeEnemy_split (e' e : Enemy.t) (l1 l2 : list Enemy.t) :
  Enemy.mesh e' = Enemy.mesh e ->
  Forall (fun y => sameEnemy (Enemy.mesh e) y = false) l1 ->
  Forall (fun y => sameEnemy (Enemy.mesh e) y = false) l2 ->
  storeEnemy e' (l1 ++ e :: l2) = l1 ++ e' :: l2.
Proof.
  intros Hm H1 H2. rewrite <- Hm in H1, H2.
  pose proof (storeEnemy_other e' l1 H1) as E1.
  pose proof (storeEnemy_other e' l2 H2) as E2.
  unfold storeEnemy in *. rewrite fmap_app, fmap_cons, E1, E2.
  replace (sameEnemy (Enemy.mesh e') e) with true; [reflexivity|].
  symmetry. apply sameEnemy_true. auto.
Qed.

Lemma indexOf_split (m : nat) (e : Enemy.t) (l1 l2 : list Enemy.t) :
  Forall (fun y => sameEnemy m y = false) l1 -> sameEnemy m e = true ->
  indexOf m (l1 ++ e :: l2) = Some (length l1).
Proof.
  intros H1 He. induction H1 as [|y l Hy _ IH]; simpl.
  - rewrite He. reflexivity.
  - rewrite Hy, IH. reflexivity.
Qed.

(** [_damageEnemy] on an enemy of the array, whose slots hold distinct
    objects: only the array changes, and as [afterDamage] says. *)
Lemma damageEnemy_eq (enemy : Enemy.t) (damage : Z) (st : State)
    (l1 l2 : list Enemy.t) :
  enemies st = l1 ++ enemy :: l2 ->
  NoDup (Enemy.mesh <$> enemies st) ->
  (_damageEnemy enemy damage st).1
  = set_enemies (afterDamage enemy damage l1 l2) st.
Proof.
  intros Hes Hnd. rewrite Hes in Hnd.
  destruct (NoDup_meshes_split _ _ _ Hnd) as [H1 H2].
  unfold _damageEnemy, afterDamage. simpl.
  rewrite Hes, (storeEnemy_split _ enemy) by (simpl; auto).
  destruct (Z.leb_spec (Enemy.hp enemy - damage) 0) as [Hle|Hgt].
  - unfold _killEnemy. simpl.
    rewrite (indexOf_split (Enemy.mesh enemy)); simpl; auto.
    + rewrite delete_middle. reflexivity.
    + apply sameEnemy_true. reflexivity.
  - reflexivity.
Qed.

Lemma killEnemy_frame (enemy : Enemy.t) (st : State) :
  exists es, (_killEnemy enemy st).1 = set_enemies es st.
Proof.
  unfold _killEnemy. destruct (indexOf _ _); simpl; eauto.
  exists (enemies st). destruct st; reflexivity.
Qed.

(** Whatever the array holds, [_damageEnemy] writes to the array only, and
    asks the host for no ray query and no new scene object. *)
Lemma damageEnemy_frame (enemy : Enemy.t) (damage : Z) (st : State) :
  (exists es, (_damageEnemy enemy damage st).1 = set_enemies es st) /\
  List.filter isResolution (_damageEnemy enemy damage st).2 = [].
Proof.
  unfold _damageEnemy. simpl.
  destruct (Z.leb _ _).
  - match goal with |- context [_killEnemy ?e ?s] =>
      destruct (killEnemy_frame e s) as [es Hes];
      assert (Htr : (_killEnemy e s).2
                    = [PlaySound "die"; SceneRemove (Enemy.mesh e)])
        by (unfold _killEnemy; destruct (indexOf _ _); reflexivity);
      destruct (_killEnemy e s) as [st2 tr2]
    end.
    simpl in *. subst. split; [|reflexivity]. eauto.
  - simpl. split; [|reflexivity]. eauto.
Qed.

Lemma fireHitscan_frame (weapon : Weapon.t) (inp : Input) (st : State) :
  (exists es, (_fireHitscan weapon inp st).1 = set_enemies es st) /\
  exists tr, (_fireHitscan weapon inp st).2
             = IntersectObjects (Enemy.mesh <$> enemies st) :: tr /\
             List.filter isResolution tr = [].
Proof.
  assert (Hid : st = set_enemies (enemies st) st) by (destruct st; reflexivity).
  unfold _fireHitscan.
  destruct (enemyHits inp) as [|hit rest]; simpl; [split; eauto|].
  destruct (Hit.distance hit <=? Weapon.range weapon)%float; [|split; eauto].
  destruct (List.find _ _) as [enemy|]; [|split; eauto].
  destruct (damageEnemy_frame enemy (Weapon.damage weapon) st) as [[es He] Htr].
  destruct (_damageEnemy enemy (Weapon.damage weapon) st) as [st2 tr2].
  simpl in *. split; eauto.
Qed.

(** ** Firing *)

(** C1.  A fire request (primary button held) with the weapon of any of the
    four slots: while no more than [delay] milliseconds have passed since
    the last shot nothing happens at all, the state is as before and no
    call reaches the host; once more than [delay] have passed,
    [lastFireTime] becomes [now], the cue of the slot is played first, and
    exactly one resolution follows, the ray query for a hitscan weapon (no
    projectile is added) or one new projectile otherwise (no enemy is
    touched). *)
Theorem fire_gate (inp : Input) (st : State) :
  mouseLeft inp = true ->
  Player.currentWeaponIdx (player st) < 4 ->
  exists weapon cue,
    WEAPONS (Player.currentWeaponIdx (player st)) = Some weapon /\
    sfxMap !! Player.currentWeaponIdx (player st) = Some cue /\
    ((now inp - Player.lastFireTime (player st) <= Weapon.delay weapon)%Z ->
     _handleShooting inp st = Some (st, [])) /\
    ((Weapon.delay weapon < now inp - Player.lastFireTime (player st))%Z ->
     exists st' tr,
       _handleShooting inp st = Some (st', PlaySound cue :: tr) /\
       Player.lastFireTime (player st') = now inp /\
       length (List.filter isResolution tr) = 1 /\
       if isHitscan (Weapon.type weapon) then
         projectiles st' = projectiles st /\
         exists tr', tr = IntersectObjects (Enemy.mesh <$> enemies st) :: tr'
       else
         enemies st' = enemies st /\
         exists p, projectiles st' = projectiles st ++ [p] /\
                   Projectile.damage p = Weapon.damage weapon /\
                   tr = [SceneAdd (Projectile.mesh p)]).
Proof.
  intros Hm Hidx.
  assert (Hw : exists weapon cue,
             WEAPONS (Player.currentWeaponIdx (player st)) = Some weapon /\
             sfxMap !! Player.currentWeaponIdx (player st) = Some cue).
  { destruct (Player.currentWeaponIdx (player st)) as [|[|[|[|n]]]];
      simpl; eauto; lia. }
  destruct Hw as (weapon & cue & Hw & Hc). exists weapon, cue.
  split; [exact Hw|]. split; [exact Hc|].
  unfold _handleShooting. rewrite Hm, Hw, Hc. simpl. split.
  - intros Hle. destruct (Z.ltb_spec (Weapon.delay weapon)
      (now inp - Player.lastFireTime (player st))); [lia|reflexivity].
  - intros Hlt. destruct (Z.ltb_spec (Weapon.delay weapon)
      (now inp - Player.lastFireTime (player st))); [|lia].
    set (st1 := set_player _ st).
    destruct (isHitscan (Weapon.type weapon)).
    + destruct (fireHitscan_frame weapon inp st1) as [[es He] (tr & Htr & Hres)].
      destruct (_fireHitscan weapon inp st1) as [st2 tr2]. simpl in *. subst.
      eexists _, _. split; [reflexivity|]. simpl. rewrite Hres.
      repeat split; eauto.
    + simpl. eexists _, _. split; [reflexivity|]. simpl.
      repeat split; eauto.
Qed.

Lemma fire_gate_witness :
  mouseLeft (fireFrame 600 []) = true /\
  Player.currentWeaponIdx (player initialState) < 4 /\
  exists st' tr,
    _handleShooting (fireFrame 600 []) initialState
    = Some (st', PlaySound "punch" :: tr) /\
    Player.lastFireTime (player st') = 600%Z.
Proof.
  split; [reflexivity|]. split; [vm_compute; lia|].
  destruct (fire_gate (fireFrame 600 []) initialState)
    as (weapon & cue & Hw & Hc & _ & Hfire);
    [reflexivity | vm_compute; lia |].
  vm_compute in Hw, Hc. injection Hw as <-. injection Hc as <-.
  destruct Hfire as (st' & tr & H & Ht & _); [vm_compute; reflexivity|].
  exists st', tr. split; [exact H | exact Ht].
Defined.

(** ** Hitscan *)

Lemma afterDamage_changes (enemy : Enemy.t) (damage : Z) (l1 l2 : list Enemy.t) :
  (0 < damage)%Z -> afterDamage enemy damage l1 l2 <> l1 ++ enemy :: l2.
Proof.
  intros Hd. unfold afterDamage. destruct (Z.leb _ _); intros Heq.
  - apply (f_equal length) in Heq. rewrite !length_app in Heq. simpl in Heq. lia.
  - apply app_inv_head in Heq. injection Heq as Heq.
    apply (f_equal Enemy.hp) in Heq. simpl in Heq. lia.
Qed.

Lemma Damaged_changes (enemy : Enemy.t) (damage : Z) (es es' : list Enemy.t) :
  (0 < damage)%Z -> Damaged enemy damage es es' -> es' <> es.
Proof.
  intros Hd (l1 & l2 & -> & ->). apply afterDamage_changes, Hd.
Qed.

(** The first slot holding the object with handle [m] is the slot of any
    enemy with that handle, the handles of the array being distinct. *)
Lemma find_sameEnemy (m : nat) (es : list Enemy.t) (enemy : Enemy.t) :
  NoDup (Enemy.mesh <$> es) -> enemy ∈ es -> Enemy.mesh enemy = m ->
  exists l1 l2, es = l1 ++ enemy :: l2 /\
                List.find (sameEnemy m) es = Some enemy.
Proof.
  intros Hnd Hin Hm.
  apply list_elem_of_split in Hin as (l1 & l2 & ->).
  exists l1, l2. split; [reflexivity|].
  destruct (NoDup_meshes_split _ _ _ Hnd) as [H1 _]. rewrite Hm in H1.
  clear Hnd. induction H1 as [|y l Hy _ IH]; simpl.
  - replace (sameEnemy m enemy) with true; [reflexivity|].
    symmetry. apply sameEnemy_true, Hm.
  - rewrite Hy. exact IH.
Qed.

(** C2.  A hitscan shot, [hit] being the first entry of the ray query's
    answer against the enemy sprites (the nearest intersection: when the
    answer is ordered by distance no entry is nearer).  The enemy whose
    sprite was hit takes the weapon's damage, and it alone, if and only if
    the distance of that hit is at most the weapon's range; beyond the
    range, and when the ray meets no enemy, the state is left as it was,
    so every enemy keeps its hit points. *)
Theorem hitscan_damage (weapon : Weapon.t) (inp : Input) (st : State) :
  NoDup (Enemy.mesh <$> enemies st) ->
  (0 < Weapon.damage weapon)%Z ->
  match enemyHits inp with
  | [] => (_fireHitscan weapon inp st).1 = st
  | hit :: rest =>
      (StronglySorted
         (fun a b => (Hit.distance a <=? Hit.distance b)%float = true)
         (enemyHits inp) ->
       Forall (fun h => (Hit.distance hit <=? Hit.distance h)%float = true)
         rest) /\
      ((Hit.distance hit <=? Weapon.range weapon)%float = false ->
       (_fireHitscan weapon inp st).1 = st) /\
      ((forall e, e ∈ enemies st -> Enemy.mesh e <> Hit.object hit) ->
       (_fireHitscan weapon inp st).1 = st) /\
      forall enemy,
        enemy ∈ enemies st -> Enemy.mesh enemy = Hit.object hit ->
        ((Hit.distance hit <=? Weapon.range weapon)%float = true <->
         Damaged enemy (Weapon.damage weapon) (enemies st)
           (enemies (_fireHitscan weapon inp st).1)) /\
        (_fireHitscan weapon inp st).1
        = set_enemies (enemies (_fireHitscan weapon inp st).1) st
  end.
Proof.
  intros Hnd Hd. unfold _fireHitscan.
  destruct (enemyHits inp) as [|hit rest] eqn:Hhits; [reflexivity|].
  split; [|split; [|split]].
  - intros Hs. apply StronglySorted_inv in Hs as [_ Hs]. exact Hs.
  - intros ->. reflexivity.
  - intros Hno. destruct (Hit.distance hit <=? Weapon.range weapon)%float;
      [|reflexivity].
    destruct (List.find _ _) as [e|] eqn:Hf; [|reflexivity].
    apply find_split in Hf as (l1 & l2 & Hes & He & _).
    exfalso. apply (Hno e).
    + rewrite Hes. apply elem_of_app. right. left.
    + apply sameEnemy_true, He.
  - intros enemy Hin Hm.
    destruct (find_sameEnemy _ _ _ Hnd Hin Hm) as (l1 & l2 & Hes & Hf).
    rewrite Hf.
    destruct (Hit.distance hit <=? Weapon.range weapon)%float eqn:Hr.
    + pose proof (damageEnemy_eq enemy (Weapon.damage weapon) st l1 l2 Hes Hnd)
        as Heq.
      destruct (_damageEnemy enemy (Weapon.damage weapon) st) as [st2 tr2].
      simpl in *. subst st2. simpl. split; [|reflexivity].
      split; [intros _|reflexivity]. exists l1, l2. auto.
    + simpl. split; [|destruct st; reflexivity].
      split; [discriminate|]. intros HD.
      exfalso. exact (Damaged_changes _ _ _ _ Hd HD eq_refl).
Qed.

Lemma hitscan_damage_witness :
  NoDup (Enemy.mesh <$> enemies initialState) /\
  (0 < 80)%Z /\
  enemies (_fireHitscan (Weapon.mk "Shotgun" 80 15 1000 HITSCAN)
             (fireFrame 1200 [Hit.mk 12 7; Hit.mk 20 6]) initialState).1
  ≠ enemies initialState.
Proof.
  assert (Hnd : NoDup (Enemy.mesh <$> enemies initialState)).
  { apply (bool_decide_unpack _). vm_compute. exact I. }
  split; [exact Hnd|]. split; [lia|].
  pose proof (hitscan_damage (Weapon.mk "Shotgun" 80 15 1000 HITSCAN)
                (fireFrame 1200 [Hit.mk 12 7; Hit.mk 20 6]) initialState
                Hnd ltac:(simpl; lia)) as H.
  simpl in H. destruct H as (_ & _ & _ & H).
  destruct (H (Enemy.mk 7 (Vec3.mk 10 2.5 (-10)) "enemy_idle" 50 IDLE 3.0 2.0))
    as [[HD _] _].
  - vm_compute. right. left.
  - reflexivity.
  - apply (Damaged_changes
             (Enemy.mk 7 (Vec3.mk 10 2.5 (-10)) "enemy_idle" 50 IDLE 3.0 2.0) 80);
      [lia|]. apply HD. reflexivity.
Defined.

(** ** Projectiles *)

Lemma find_first {A} (f : A -> bool) (l1 l2 : list A) (x : A) :
  Forall (fun y => f y = false) l1 -> f x = true ->
  List.find f (l1 ++ x :: l2) = Some x.
Proof.
  intros H1 Hx. induction H1 as [|y l Hy _ IH]; simpl.
  - rewrite Hx. reflexivity.
  - rewrite Hy. exact IH.
Qed.

Lemma find_none {A} (f : A -> bool) (l : list A) :
  Forall (fun y => f y = false) l -> List.find f l = None.
Proof.
  induction 1 as [|y l Hy _ IH]; simpl; [reflexivity|]. rewrite Hy. exact IH.
Qed.

Lemma afterDamage_sublist (enemy : Enemy.t) (damage : Z) (l1 l2 : list Enemy.t) :
  (Enemy.mesh <$> afterDamage enemy damage l1 l2)
    `sublist_of` (Enemy.mesh <$> (l1 ++ enemy :: l2)).
Proof.
  unfold afterDamage. destruct (Z.leb _ _); rewrite !fmap_app, ?fmap_cons.
  - apply sublist_app; [reflexivity|]. apply sublist_cons. reflexivity.
  - reflexivity.
Qed.

Lemma afterDamage_NoDup (enemy : Enemy.t) (damage : Z) (l1 l2 : list Enemy.t) :
  NoDup (Enemy.mesh <$> (l1 ++ enemy :: l2)) ->
  NoDup (Enemy.mesh <$> afterDamage enemy damage l1 l2).
Proof. intros H. exact (sublist_NoDup _ _ H (afterDamage_sublist _ _ _ _)). Qed.

(** The calls of [_damageEnemy]: the red flash and, when the enemy dies,
    the death cue and the removal of the sprite from the scene. *)
Lemma damageEnemy_trace (enemy : Enemy.t) (damage : Z) (st : State) :
  (_damageEnemy enemy damage st).2
  = SetColor (Enemy.mesh enemy) 0xff0000
      :: (if (Enemy.hp enemy - damage <=? 0)%Z
          then [PlaySound "die"; SceneRemove (Enemy.mesh enemy)] else []).
Proof.
  unfold _damageEnemy. simpl. destruct (Z.leb _ _); [|reflexivity].
  unfold _killEnemy. simpl. destruct (indexOf _ _); reflexivity.
Qed.

Lemma delete_insert_same {A} (l : list A) (i : nat) (x : A) :
  delete i (<[i:=x]> l) = delete i l.
Proof.
  revert i. induction l as [|a l IH]; intros [|i]; simpl; try reflexivity.
  f_equal. apply IH.
Qed.

(** The loop body when the first enemy near the moved projectile is
    [enemy], standing between [l1] and [l2]. *)
Lemma projectileBody_hit (dt : float) (i : nat) (st : State)
    (p : Projectile.t) (l1 l2 : list Enemy.t) (enemy : Enemy.t) :
  NoDup (Enemy.mesh <$> enemies st) ->
  projectiles st !! i = Some p ->
  enemies st = l1 ++ enemy :: l2 ->
  Forall (fun e => near (advance dt p) e = false) l1 ->
  near (advance dt p) enemy = true ->
  projectileBody dt i st
  = (set_projectiles (delete i (projectiles st))
       (set_enemies (afterDamage enemy (Projectile.damage p) l1 l2) st),
     (_damageEnemy enemy (Projectile.damage p) st).2
       ++ [SceneRemove (Projectile.mesh p)]).
Proof.
  intros Hnd Hp Hes H1 Hn. unfold projectileBody. rewrite Hp. simpl.
  rewrite Hes at 1. rewrite (find_first _ _ _ _ H1 Hn).
  set (st1 := set_projectiles _ st).
  pose proof (damageEnemy_eq enemy (Projectile.damage p) st1 l1 l2 Hes Hnd) as E.
  pose proof (damageEnemy_trace enemy (Projectile.damage p) st1) as T.
  rewrite <- (damageEnemy_trace enemy (Projectile.damage p) st) in T.
  destruct (_damageEnemy enemy (Projectile.damage p) st1) as [st2 tr2].
  simpl in E, T. subst st2 tr2. simpl.
  f_equal. unfold set_projectiles, set_enemies. simpl. f_equal.
  apply delete_insert_same.
Qed.

(** The loop body when no enemy is near the moved projectile. *)
Lemma projectileBody_miss (dt : float) (i : nat) (st : State)
    (p : Projectile.t) :
  projectiles st !! i = Some p ->
  Forall (fun e => near (advance dt p) e = false) (enemies st) ->
  projectileBody dt i st
  = if (Projectile.lifetime (advance dt p) <=? 0)%float
    then (set_projectiles (delete i (projectiles st)) st,
          [SceneRemove (Projectile.mesh p)])
    else (set_projectiles (<[i:=advance dt p]> (projectiles st)) st, []).
Proof.
  intros Hp Hn. unfold projectileBody. rewrite Hp. simpl.
  rewrite (find_none _ _ Hn). simpl.
  destruct (_ <=? 0)%float; [|reflexivity].
  unfold set_projectiles. simpl. rewrite delete_insert_same. reflexivity.
Qed.

Lemma projectileBody_cases (dt : float) (i : nat) (st : State) :
  NoDup (Enemy.mesh <$> enemies st) ->
  (projectiles st !! i = None /\ projectileBody dt i st = (st, [])) \/
  (exists p l1 enemy l2,
      projectiles st !! i = Some p /\ enemies st = l1 ++ enemy :: l2 /\
      (projectileBody dt i st).1
      = set_projectiles (delete i (projectiles st))
          (set_enemies (afterDamage enemy (Projectile.damage p) l1 l2) st)) \/
  (exists p ps,
      projectiles st !! i = Some p /\
      (ps = delete i (projectiles st) \/
       ps = <[i:=advance dt p]> (projectiles st)) /\
      (projectileBody dt i st).1 = set_projectiles ps st).
Proof.
  intros Hnd. destruct (projectiles st !! i) as [p|] eqn:Hp.
  - right. destruct (List.find (near (advance dt p)) (enemies st))
      as [enemy|] eqn:Hf.
    + left. apply find_split in Hf as (l1 & l2 & Hes & Hn & H1).
      exists p, l1, enemy, l2. split; [reflexivity|]. split; [exact Hes|].
      rewrite (projectileBody_hit dt i st p l1 l2 enemy); auto.
    + right. apply find_none_Forall in Hf.
      rewrite (projectileBody_miss dt i st p Hp Hf).
      exists p. destruct (_ <=? 0)%float; eexists; eauto.
  - left. split; [reflexivity|]. unfold projectileBody. rewrite Hp. reflexivity.
Qed.

Lemma projectileBody_NoDup (dt : float) (i : nat) (st : State) :
  NoDup (Enemy.mesh <$> enemies st) ->
  NoDup (Enemy.mesh <$> enemies (projectileBody dt i st).1).
Proof.
  intros Hnd.
  destruct (projectileBody_cases dt i st Hnd)
    as [[_ ->]|[(p & l1 & e & l2 & _ & Hes & ->)|(p & ps & _ & _ & ->)]];
    simpl; auto.
  apply afterDamage_NoDup. rewrite <- Hes. exact Hnd.
Qed.

Lemma projectileBody_below (dt : float) (i j : nat) (st : State) :
  NoDup (Enemy.mesh <$> enemies st) -> j < i ->
  projectiles (projectileBody dt i st).1 !! j = projectiles st !! j.
Proof.
  intros Hnd Hj.
  destruct (projectileBody_cases dt i st Hnd)
    as [[_ ->]|[(p & l1 & e & l2 & _ & _ & ->)
               |(p & ps & _ & [->| ->] & ->)]];
    simpl; auto using list_lookup_delete_lt.
  apply list_lookup_insert_ne. lia.
Qed.

(** Every projectile of the array meets the loop body once in the sweep of
    a frame, at its own index and as the previous frame left it. *)
Lemma projectileLoop_reaches (dt : float) (n i : nat) (st : State)
    (p : Projectile.t) :
  i < n -> NoDup (Enemy.mesh <$> enemies st) ->
  projectiles st !! i = Some p ->
  exists sti tr0,
    projectiles sti !! i = Some p /\
    NoDup (Enemy.mesh <$> enemies sti) /\
    projectileLoop dt n st
    = (let '(s1, t1) := projectileBody dt i sti in
       let '(s2, t2) := projectileLoop dt i s1 in
       (s2, tr0 ++ t1 ++ t2)).
Proof.
  revert st. induction n as [|n IH]; intros st Hi Hnd Hp; [lia|].
  destruct (decide (i = n)) as [->|Hne].
  - exists st, []. repeat split; auto.
  - destruct (IH (projectileBody dt n st).1) as (sti & tr0 & Hpi & Hndi & Heq).
    + lia.
    + apply projectileBody_NoDup, Hnd.
    + rewrite projectileBody_below by (auto; lia). exact Hp.
    + exists sti, ((projectileBody dt n st).2 ++ tr0).
      split; [exact Hpi|]. split; [exact Hndi|].
      simpl. destruct (projectileBody dt n st) as [s1 t1]. simpl in Heq.
      rewrite Heq.
      destruct (projectileBody dt i sti) as [s2 t2].
      destruct (projectileLoop dt i s2) as [s3 t3].
      simpl. rewrite <- app_assoc. reflexivity.
Qed.

(** C3.  Every projectile [p] of the array is handled once in the sweep of
    a frame: the sweep comes to its index [i] in a state [sti] where it
    still stands unchanged.  There it first advances by [velocity * dt]
    (and its lifetime drops by [dt]).  If [enemy] is the first enemy of the
    array, in array order, that is less than 2.0 away from it, whatever the
    distances of the enemies after it, that enemy takes the projectile's
    whole damage while every other enemy is as before, and the projectile
    leaves the array and the scene in that same frame.  If no enemy is that
    near, no enemy changes, and the projectile leaves exactly when its
    lifetime has come to 0 or below. *)
Theorem projectile_resolution (dt : float) (st : State) (i : nat)
    (p : Projectile.t) :
  NoDup (Enemy.mesh <$> enemies st) ->
  projectiles st !! i = Some p ->
  exists sti tr0,
    projectiles sti !! i = Some p /\
    _updateProjectiles dt st
    = (let '(s1, t1) := projectileBody dt i sti in
       let '(s2, t2) := projectileLoop dt i s1 in
       (s2, tr0 ++ t1 ++ t2)) /\
    Projectile.position (advance dt p)
    = Vec3.addScaledVector (Projectile.position p) (Projectile.velocity p) dt /\
    Projectile.lifetime (advance dt p) = (Projectile.lifetime p - dt)%float /\
    (forall l1 enemy l2,
        enemies sti = l1 ++ enemy :: l2 ->
        Forall (fun e => near (advance dt p) e = false) l1 ->
        near (advance dt p) enemy = true ->
        enemies (projectileBody dt i sti).1
        = afterDamage enemy (Projectile.damage p) l1 l2 /\
        projectiles (projectileBody dt i sti).1 = delete i (projectiles sti) /\
        last (projectileBody dt i sti).2
        = Some (SceneRemove (Projectile.mesh p))) /\
    (Forall (fun e => near (advance dt p) e = false) (enemies sti) ->
     enemies (projectileBody dt i sti).1 = enemies sti /\
     if (Projectile.lifetime (advance dt p) <=? 0)%float then
       projectiles (projectileBody dt i sti).1 = delete i (projectiles sti) /\
       (projectileBody dt i sti).2 = [SceneRemove (Projectile.mesh p)]
     else
       projectiles (projectileBody dt i sti).1
       = <[i:=advance dt p]> (projectiles sti) /\
       (projectileBody dt i sti).2 = []).
Proof.
  intros Hnd Hp.
  destruct (projectileLoop_reaches dt (length (projectiles st)) i st p)
    as (sti & tr0 & Hpi & Hndi & Heq); auto.
  { apply lookup_lt_Some in Hp. exact Hp. }
  exists sti, tr0. split; [exact Hpi|]. split; [exact Heq|].
  split; [reflexivity|]. split; [reflexivity|]. split.
  - intros l1 enemy l2 Hes H1 Hn.
    rewrite (projectileBody_hit dt i sti p l1 l2 enemy); auto. simpl.
    repeat split. apply last_snoc.
  - intros Hn. rewrite (projectileBody_miss dt i sti p Hpi Hn).
    destruct (_ <=? 0)%float; simpl; auto.
Qed.

Lemma projectile_resolution_witness :
  NoDup (Enemy.mesh <$> enemies armedState) /\
  projectiles armedState !! 0 = Some nail /\
  exists sti,
    projectiles sti !! 0 = Some nail /\
    (Forall (fun e => near (advance 0.016 nail) e = false) (enemies sti) ->
     projectiles (projectileBody 0.016 0 sti).1
     = <[0:=advance 0.016 nail]> (projectiles sti)).
Proof.
  assert (Hnd : NoDup (Enemy.mesh <$> enemies armedState)).
  { apply (bool_decide_unpack _). vm_compute. exact I. }
  assert (Hp : projectiles armedState !! 0 = Some nail).
  { vm_compute. reflexivity. }
  split; [exact Hnd|]. split; [exact Hp|].
  destruct (projectile_resolution 0.016 armedState 0 nail Hnd Hp)
    as (sti & tr0 & Hpi & _ & _ & _ & _ & Hmiss).
  exists sti. split; [exact Hpi|]. intros Hn.
  destruct (Hmiss Hn) as [_ H]. vm_compute in H. apply H.
Defined.

(** ** The invariant of a session *)

Lemma Ages_refl (e : Enemy.t) : Ages e e.
Proof. split; auto. lia. Qed.

Lemma Ages_trans (e1 e2 e3 : Enemy.t) : Ages e1 e2 -> Ages e2 e3 -> Ages e1 e3.
Proof.
  intros [M1 H1 C1] [M2 H2 C2]. split; [congruence|lia|auto].
Qed.

Lemma Evolve_refl (l : list Enemy.t) : Evolve l l.
Proof. induction l; constructor; auto using Ages_refl. Qed.

Lemma Evolve_trans (l1 l2 l3 : list Enemy.t) :
  Evolve l1 l2 -> Evolve l2 l3 -> Evolve l1 l3.
Proof.
  intros H12. revert l3. induction H12 as [|e e' l l' Ha _ IH|e l l' _ IH];
    intros l3 H23.
  - exact H23.
  - inversion H23 as [|? e3 ? l3' Ha' H'|? ? ? H']; subst.
    + apply evolve_keep; eauto using Ages_trans.
    + apply evolve_drop. auto.
  - apply evolve_drop. auto.
Qed.

Lemma Evolve_app (a a' b b' : list Enemy.t) :
  Evolve a a' -> Evolve b b' -> Evolve (a ++ b) (a' ++ b').
Proof. induction 1; simpl; intros; try constructor; auto. Qed.

Create HintDb evolve.
#[local] Hint Resolve Ages_refl Evolve_refl : evolve.

(** Every enemy of the later array is an enemy of the earlier one, aged. *)
Lemma Evolve_elem (l l' : list Enemy.t) (e' : Enemy.t) :
  Evolve l l' -> e' ∈ l' -> exists e, e ∈ l /\ Ages e e'.
Proof.
  induction 1 as [|e0 e0' l l' Ha _ IH|e0 l l' _ IH]; intros Hin.
  - inversion Hin.
  - apply elem_of_cons in Hin as [->|Hin].
    + exists e0. split; [left|exact Ha].
    + destruct (IH Hin) as (e & He & Hag). exists e. split; [right|]; auto.
  - destruct (IH Hin) as (e & He & Hag). exists e. split; [right|]; auto.
Qed.

Lemma Evolve_sublist (l l' : list Enemy.t) :
  Evolve l l' -> (Enemy.mesh <$> l') `sublist_of` (Enemy.mesh <$> l).
Proof.
  induction 1 as [|e e' l l' [Hm _ _] _ IH|e l l' _ IH]; simpl.
  - constructor.
  - rewrite Hm. apply sublist_skip, IH.
  - apply sublist_cons, IH.
Qed.

Lemma afterDamage_Evolve (enemy : Enemy.t) (damage : Z) (l1 l2 : list Enemy.t) :
  (0 <= damage)%Z ->
  Evolve (l1 ++ enemy :: l2) (afterDamage enemy damage l1 l2).
Proof.
  intros Hd. unfold afterDamage.
  destruct (Z.leb _ _); apply Evolve_app; auto with evolve.
  - apply evolve_drop, Evolve_refl.
  - apply evolve_keep; [|apply Evolve_refl]. split; simpl; auto. lia.
Qed.

Lemma afterDamage_alive (enemy : Enemy.t) (damage : Z) (l1 l2 : list Enemy.t) :
  Forall (fun e => (0 < Enemy.hp e)%Z) (l1 ++ enemy :: l2) ->
  Forall (fun e => (0 < Enemy.hp e)%Z) (afterDamage enemy damage l1 l2).
Proof.
  rewrite Forall_app, Forall_cons. intros (H1 & _ & H2). unfold afterDamage.
  destruct (Z.leb_spec (Enemy.hp enemy - damage) 0).
  - apply Forall_app. auto.
  - apply Forall_app. split; [exact H1|]. apply Forall_cons. simpl. auto.
Qed.

Lemma WEAPONS_damage (idx : nat) (weapon : Weapon.t) :
  WEAPONS idx = Some weapon -> (0 < Weapon.damage weapon)%Z.
Proof.
  destruct idx as [|[|[|[|n]]]]; simpl; intros [= <-]; simpl; lia.
Qed.

Lemma WEAPONS_slot (idx : nat) : idx < 4 -> is_Some (WEAPONS idx).
Proof. destruct idx as [|[|[|[|n]]]]; simpl; eauto; lia. Qed.

Lemma Inv_initial : Inv initialState.
Proof.
  split.
  - apply (bool_decide_unpack _). vm_compute. exact I.
  - vm_compute. repeat constructor.
  - vm_compute. constructor.
  - vm_compute. lia.
  - vm_compute. reflexivity.
Qed.

Lemma Inv_switchWeapon (detail : nat) (st : State) :
  detail < 4 -> Inv st -> Inv (switchWeapon detail st).
Proof. intros Hd [H1 H2 H3 H4 H5]. split; simpl; auto. Qed.

Lemma Inv_handleMovement (inp : Input) (st : State) :
  Inv st -> Inv (_handleMovement inp st).
Proof.
  intros [H1 H2 H3 H4 H5]. unfold _handleMovement.
  destruct (_ <? 2.5)%float; split; simpl; auto.
Qed.

Lemma handleMovement_enemies (inp : Input) (st : State) :
  enemies (_handleMovement inp st) = enemies st.
Proof. unfold _handleMovement. destruct (_ <? 2.5)%float; reflexivity. Qed.

(** [_damageEnemy] on an enemy of a sound array. *)
Lemma Inv_damageEnemy (enemy : Enemy.t) (damage : Z) (st : State) :
  Inv st -> enemy ∈ enemies st -> (0 <= damage)%Z ->
  Inv (_damageEnemy enemy damage st).1 /\
  Evolve (enemies st) (enemies (_damageEnemy enemy damage st).1).
Proof.
  intros [H1 H2 H3 H4 H5] Hin Hd.
  apply list_elem_of_split in Hin as (l1 & l2 & Hes).
  rewrite (damageEnemy_eq enemy damage st l1 l2 Hes H1). simpl.
  split.
  - split; simpl; auto.
    + apply afterDamage_NoDup. rewrite <- Hes. exact H1.
    + apply afterDamage_alive. rewrite <- Hes. exact H2.
  - rewrite Hes. apply afterDamage_Evolve, Hd.
Qed.

Lemma Inv_fireHitscan (weapon : Weapon.t) (inp : Input) (st : State) :
  Inv st -> (0 <= Weapon.damage weapon)%Z ->
  Inv (_fireHitscan weapon inp st).1 /\
  Evolve (enemies st) (enemies (_fireHitscan weapon inp st).1).
Proof.
  intros HI Hd. unfold _fireHitscan.
  destruct (enemyHits inp) as [|hit rest]; simpl; auto with evolve.
  destruct (_ <=? _)%float; simpl; auto with evolve.
  destruct (List.find _ _) as [enemy|] eqn:Hf; simpl; auto with evolve.
  apply find_split in Hf as (l1 & l2 & Hes & _ & _).
  assert (Hin : enemy ∈ enemies st).
  { rewrite Hes. apply elem_of_app. right. left. }
  pose proof (Inv_damageEnemy enemy (Weapon.damage weapon) st HI Hin Hd) as H.
  destruct (_damageEnemy enemy (Weapon.damage weapon) st). exact H.
Qed.

Lemma Inv_fireProjectile (weapon : Weapon.t) (inp : Input) (st : State) :
  Inv st -> (0 <= Weapon.damage weapon)%Z ->
  Inv (_fireProjectile weapon inp st).1 /\
  enemies (_fireProjectile weapon inp st).1 = enemies st.
Proof.
  intros [H1 H2 H3 H4 H5] Hd. split; [|reflexivity].
  split; simpl; auto. apply Forall_app. split; [exact H3|].
  apply Forall_cons. simpl. auto.
Qed.

Lemma Inv_handleShooting (inp : Input) (st st' : State) (tr : list Call) :
  Inv st -> _handleShooting inp st = Some (st', tr) ->
  Inv st' /\ Evolve (enemies st) (enemies st').
Proof.
  intros HI. unfold _handleShooting.
  destruct (mouseLeft inp); simpl;
    [|intros [= <- <-]; auto with evolve].
  destruct (WEAPONS _) as [weapon|] eqn:Hw; simpl; [|discriminate].
  apply WEAPONS_damage in Hw.
  destruct (Z.ltb _ _); [|intros [= <- <-]; auto with evolve].
  set (st1 := set_player _ st).
  assert (HI1 : Inv st1) by (destruct HI; split; simpl; auto).
  destruct (isHitscan _).
  - destruct (Inv_fireHitscan weapon inp st1 HI1) as [Ha Hb]; [lia|].
    destruct (_fireHitscan weapon inp st1). intros [= <- <-]. auto.
  - destruct (Inv_fireProjectile weapon inp st1 HI1) as [Ha Hb]; [lia|].
    destruct (_fireProjectile weapon inp st1). intros [= <- <-].
    simpl in *. split; [exact Ha|]. rewrite Hb. apply Evolve_refl.
Qed.

Lemma Inv_handleEnvironment (inp : Input) (st : State) :
  Inv st ->
  Inv (_handleEnvironment inp st).1 /\
  enemies (_handleEnvironment inp st).1 = enemies st.
Proof.
  intros [H1 H2 H3 H4 H5]. unfold _handleEnvironment.
  destruct (levelHits inp) as [|hit rest]; simpl; [split; [split|]; auto|].
  destruct (_ <? 4)%float; simpl; split; try split; auto.
Qed.

(** One call of the [forEach] callback leaves handle, hit points, speed and
    attack range of the enemy alone, and never takes it out of CHASE. *)
Lemma updateEnemy_keeps (dt : float) (playerPos : Vec3.t) (enemy : Enemy.t)
    (playerHp : float) :
  let enemy' := (updateEnemy dt playerPos enemy playerHp).1.1 in
  Enemy.mesh enemy' = Enemy.mesh enemy /\
  Enemy.hp enemy' = Enemy.hp enemy /\
  Enemy.speed enemy' = Enemy.speed enemy /\
  Enemy.attackRange enemy' = Enemy.attackRange enemy /\
  (Enemy.state enemy = CHASE -> Enemy.state enemy' = CHASE).
Proof.
  unfold updateEnemy.
  destruct (Z.leb _ _); simpl; [auto|].
  destruct (_ <? 25)%float; simpl; [|auto].
  destruct (Enemy.state enemy) eqn:Hs; simpl;
    destruct (_ <? _)%float; simpl; auto.
Qed.

Lemma updateEnemy_Ages (dt : float) (playerPos : Vec3.t) (enemy : Enemy.t)
    (playerHp : float) :
  Ages enemy (updateEnemy dt playerPos enemy playerHp).1.1.
Proof.
  destruct (updateEnemy_keeps dt playerPos enemy playerHp)
    as (Hm & Hh & _ & _ & Hc).
  split; auto. lia.
Qed.

Lemma enemyLoop_keeps (dt : float) (playerPos : Vec3.t) (es : list Enemy.t)
    (playerHp : float) :
  let es' := (enemyLoop dt playerPos es playerHp).1.1 in
  Evolve es es' /\
  Enemy.mesh <$> es' = Enemy.mesh <$> es /\
  (Forall (fun e => (0 < Enemy.hp e)%Z) es ->
   Forall (fun e => (0 < Enemy.hp e)%Z) es').
Proof.
  revert playerHp. induction es as [|e es IH]; intros playerHp; simpl.
  - repeat split; auto. constructor.
  - pose proof (updateEnemy_Ages dt playerPos e playerHp) as Ha.
    pose proof (updateEnemy_keeps dt playerPos e playerHp) as (Hm & Hh & _).
    destruct (updateEnemy dt playerPos e playerHp) as [[e' hp1] tr1].
    specialize (IH hp1).
    destruct (enemyLoop dt playerPos es hp1) as [[es' hp2] tr2].
    simpl in *. destruct IH as (IH1 & IH2 & IH3).
    split; [constructor; auto|].
    split; [f_equal; [exact Hm|exact IH2]|].
    rewrite !Forall_cons. intros [? ?]. split; [lia|auto].
Qed.

Lemma Inv_updateEnemies (dt : float) (st : State) :
  Inv st ->
  Inv (_updateEnemies dt st).1 /\
  Evolve (enemies st) (enemies (_updateEnemies dt st).1).
Proof.
  intros [H1 H2 H3 H4 H5]. unfold _updateEnemies.
  pose proof (enemyLoop_keeps dt (cameraPos st) (enemies st)
                (Player.hp (player st))) as (Ha & Hb & Hc).
  destruct (enemyLoop _ _ _ _) as [[es' hp'] tr]. simpl in *.
  split; [|exact Ha]. split; simpl; auto. rewrite Hb. exact H1.
Qed.

Lemma Inv_projectileBody (dt : float) (i : nat) (st : State) :
  Inv st ->
  Inv (projectileBody dt i st).1 /\
  Evolve (enemies st) (enemies (projectileBody dt i st).1).
Proof.
  intros HI. pose proof HI as [H1 H2 H3 H4 H5].
  destruct (projectileBody_cases dt i st H1)
    as [[_ ->]|[(p & l1 & e & l2 & Hp & Hes & ->)
               |(p & ps & Hp & Hps & ->)]]; simpl.
  - auto with evolve.
  - assert (Hd : (0 <= Projectile.damage p)%Z).
    { apply list_elem_of_lookup_2 in Hp.
      rewrite Forall_forall in H3. auto. }
    split; [split; simpl; auto|].
    + apply afterDamage_NoDup. rewrite <- Hes. exact H1.
    + apply afterDamage_alive. rewrite <- Hes. exact H2.
    + apply Forall_delete, H3.
    + rewrite Hes. apply afterDamage_Evolve, Hd.
  - split; [|apply Evolve_refl]. split; simpl; auto.
    destruct Hps as [->| ->]; [apply Forall_delete, H3|].
    apply Forall_insert; [exact H3|]. simpl.
    apply list_elem_of_lookup_2 in Hp. rewrite Forall_forall in H3. auto.
Qed.

Lemma Inv_projectileLoop (dt : float) (n : nat) (st : State) :
  Inv st ->
  Inv (projectileLoop dt n st).1 /\
  Evolve (enemies st) (enemies (projectileLoop dt n st).1).
Proof.
  revert st. induction n as [|n IH]; intros st HI; simpl.
  - auto with evolve.
  - destruct (Inv_projectileBody dt n st HI) as [HI1 He1].
    destruct (projectileBody dt n st) as [s1 t1]. simpl in *.
    destruct (IH s1 HI1) as [HI2 He2].
    destruct (projectileLoop dt n s1) as [s2 t2]. simpl in *.
    split; [exact HI2|]. eapply Evolve_trans; eauto.
Qed.

(** A frame of a sound state runs to its end, and leaves a sound state in
    which the enemies are those of before, aged. *)
Lemma Inv_gameLoop (inp : Input) (st : State) :
  Inv st ->
  exists st' tr hud,
    _gameLoop inp st = Some (st', tr, hud) /\ Inv st' /\
    Evolve (enemies st) (enemies st').
Proof.
  intros HI. unfold _gameLoop.
  match goal with |- context [mbind _ ?m] =>
    assert (H1 : exists st1 tr1,
               m = Some (st1, tr1) /\ Inv st1 /\
               Evolve (enemies st) (enemies st1))
  end.
  { destruct (isLocked inp); [|eauto with evolve].
    pose proof (Inv_handleMovement inp st HI) as HIm.
    pose proof (handleMovement_enemies inp st) as Hem. cbv zeta.
    destruct (_handleShooting inp (_handleMovement inp st)) as [[s2 t2]|] eqn:Hs.
    - destruct (Inv_handleShooting _ _ _ _ HIm Hs) as [HI2 He2].
      destruct (Inv_handleEnvironment inp s2 HI2) as [HI3 He3].
      simpl. destruct (_handleEnvironment inp s2) as [s3 t3]. simpl in *.
      eexists _, _. split; [reflexivity|]. split; [exact HI3|].
      rewrite He3, <- Hem. exact He2.
    - exfalso. unfold _handleShooting in Hs.
      destruct (mouseLeft inp); simpl in Hs; [|discriminate].
      destruct (WEAPONS_slot _ (inv_slot _ HIm)) as [weapon Hw].
      rewrite Hw in Hs. simpl in Hs.
      destruct (Z.ltb _ _); [|discriminate].
      destruct (isHitscan _); [destruct (_fireHitscan _ _ _)
                              |destruct (_fireProjectile _ _ _)];
        discriminate. }
  destruct H1 as (st1 & tr1 & -> & HI1 & He1). simpl.
  destruct (Inv_updateEnemies (dt inp) st1 HI1) as [HI2 He2].
  destruct (_updateEnemies (dt inp) st1) as [s2 t2]. simpl in *.
  destruct (Inv_projectileLoop (dt inp) (length (projectiles s2)) s2 HI2)
    as [HI3 He3].
  unfold _updateProjectiles.
  destruct (projectileLoop (dt inp) (length (projectiles s2)) s2) as [s3 t3].
  simpl in *. unfold _updateHUD.
  destruct (WEAPONS_slot _ (inv_slot _ HI3)) as [weapon Hw]. rewrite Hw. simpl.
  eexists _, _, _. split; [reflexivity|]. split; [exact HI3|].
  eauto using Evolve_trans.
Qed.

Lemma Inv_Step (st st' : State) :
  Inv st -> Step st st' -> Inv st' /\ Evolve (enemies st) (enemies st').
Proof.
  intros HI Hstep. revert HI.
  destruct Hstep as [inp s s' tr hud Hg|detail s Hd]; intros HI.
  - destruct (Inv_gameLoop inp s HI) as (s2 & tr2 & hud2 & Hg2 & HI2 & He2).
    rewrite Hg in Hg2. injection Hg2 as <- <- <-. auto.
  - split; [apply Inv_switchWeapon; auto|apply Evolve_refl].
Qed.

Lemma Inv_Steps (st st' : State) :
  Inv st -> Steps st st' -> Inv st' /\ Evolve (enemies st) (enemies st').
Proof.
  intros HI. induction 1 as [s|s s' s'' _ IH Hstep].
  - auto with evolve.
  - destruct (IH HI) as [HI' He'].
    destruct (Inv_Step _ _ HI' Hstep) as [HI'' He''].
    eauto using Evolve_trans.
Qed.

Lemma Inv_Reachable (st : State) : Reachable st -> Inv st.
Proof. intros H. apply (Inv_Steps _ _ Inv_initial H). Qed.

Lemma run_Step (inp : Input) (st st' : State) :
  run [inp] st = Some st' -> Step st st'.
Proof.
  simpl. destruct (_gameLoop inp st) as [[[s tr] hud]|] eqn:Hg; simpl;
    [|discriminate].
  intros [= <-]. eapply step_frame, Hg.
Qed.

Lemma same_mesh_same_enemy (l : list Enemy.t) (e1 e2 : Enemy.t) :
  NoDup (Enemy.mesh <$> l) -> e1 ∈ l -> e2 ∈ l ->
  Enemy.mesh e1 = Enemy.mesh e2 -> e1 = e2.
Proof.
  intros Hnd H1 H2 Hm.
  apply list_elem_of_split in H1 as (l1 & l2 & ->).
  destruct (NoDup_meshes_split _ _ _ Hnd) as [Ha Hb].
  rewrite Forall_forall in Ha, Hb.
  apply elem_of_app in H2 as [H2|H2].
  - apply Ha, sameEnemy_false in H2. congruence.
  - apply elem_of_cons in H2 as [->|H2]; [reflexivity|].
    apply Hb, sameEnemy_false in H2. congruence.
Qed.

(** ** Enemy hit points *)

(** C4.  Across any stretch of a session, from a reachable state [st] to a
    later state [st']: every enemy still active is an enemy that was active
    before, and its hit points are at most what they were; an enemy that
    had left the active set has not come back.  Active enemies have
    positive hit points: [_damageEnemy], which subtracts its non-negative
    argument, takes the enemy out of the active set in the same call when
    the result is 0 or less, and leaves it in, with the result as new hit
    points, otherwise.  The per-frame pass does nothing for an enemy whose
    hit points are 0 or less. *)
Theorem enemy_hp_never_increases (st st' : State) :
  Reachable st -> Steps st st' ->
  (forall e', e' ∈ enemies st' ->
     exists e, e ∈ enemies st /\ Enemy.mesh e = Enemy.mesh e' /\
               (Enemy.hp e' <= Enemy.hp e)%Z) /\
  (forall m, m ∉ Enemy.mesh <$> enemies st -> m ∉ Enemy.mesh <$> enemies st') /\
  Forall (fun e => (0 < Enemy.hp e)%Z) (enemies st) /\
  (forall enemy damage,
     enemy ∈ enemies st -> (0 <= damage)%Z ->
     let after := enemies (_damageEnemy enemy damage st).1 in
     ((Enemy.hp enemy - damage <= 0)%Z -> Enemy.mesh enemy ∉ Enemy.mesh <$> after) /\
     ((0 < Enemy.hp enemy - damage)%Z ->
      Enemy.set_hp (Enemy.hp enemy - damage) enemy ∈ after) /\
     forall e', e' ∈ after ->
       exists e, e ∈ enemies st /\ Enemy.mesh e = Enemy.mesh e' /\
                 (Enemy.hp e' <= Enemy.hp e)%Z) /\
  (forall dt playerPos enemy playerHp,
     (Enemy.hp enemy <= 0)%Z ->
     updateEnemy dt playerPos enemy playerHp = (enemy, playerHp, [])).
Proof.
  intros Hr Hs. pose proof (Inv_Reachable st Hr) as HI.
  destruct (Inv_Steps st st' HI Hs) as [HI' He].
  split; [|split; [|split; [|split]]].
  - intros e' Hin. destruct (Evolve_elem _ _ e' He Hin) as (e & Hin0 & [Hm Hh _]).
    exists e. auto.
  - intros m Hm Hm'. apply Hm.
    eapply elem_of_sublist; [exact Hm'|]. apply Evolve_sublist, He.
  - apply HI.
  - intros enemy damage Hin Hd after.
    pose proof Hin as Hsplit.
    apply list_elem_of_split in Hsplit as (l1 & l2 & Hes).
    pose proof (damageEnemy_eq enemy damage st l1 l2 Hes (inv_nodup _ HI)) as Heq.
    assert (Hafter : after = afterDamage enemy damage l1 l2).
    { unfold after. rewrite Heq. reflexivity. }
    pose proof (inv_nodup _ HI) as Hnd. rewrite Hes in Hnd.
    split; [|split].
    + intros Hle. rewrite Hafter. unfold afterDamage.
      destruct (Z.leb_spec (Enemy.hp enemy - damage) 0); [|lia].
      rewrite fmap_app, fmap_cons, NoDup_app, NoDup_cons in Hnd.
      destruct Hnd as (_ & Hdisj & Hnot & _).
      rewrite fmap_app, elem_of_app. intros [Hx|Hx]; [|auto].
      apply (Hdisj _ Hx). left.
    + intros Hgt. rewrite Hafter. unfold afterDamage.
      destruct (Z.leb_spec (Enemy.hp enemy - damage) 0); [lia|].
      apply elem_of_app. right. left.
    + intros e' Hin'. rewrite Hafter in Hin'.
      destruct (Evolve_elem _ _ e' (afterDamage_Evolve enemy damage l1 l2 Hd) Hin')
        as (e & Hin0 & [Hm Hh _]).
      exists e. rewrite Hes. auto.
  - intros dt playerPos enemy playerHp Hle. unfold updateEnemy.
    destruct (Z.leb_spec (Enemy.hp enemy) 0); [reflexivity|lia].
Qed.

Lemma enemy_hp_never_increases_witness :
  Reachable initialState /\
  Steps initialState armedState /\
  forall e', e' ∈ enemies armedState ->
    exists e, e ∈ enemies initialState /\ Enemy.mesh e = Enemy.mesh e' /\
              (Enemy.hp e' <= Enemy.hp e)%Z.
Proof.
  assert (Hr : Reachable initialState) by apply steps_refl.
  assert (Hs : Steps initialState armedState).
  { eapply steps_step; [eapply steps_step; [apply steps_refl|]|].
    - apply (step_switch 2). lia.
    - apply (run_Step (fireFrame 1000 [])). vm_compute. reflexivity. }
  split; [exact Hr|]. split; [exact Hs|].
  apply (enemy_hp_never_increases initialState armedState Hr Hs).
Defined.

(** ** Ammunition *)

(** C10.  In every reachable state the ammo record is the initial one,
    20 of 50.  No fire request changes it, honoured or not, whatever the
    weapon; and every frame runs to its end and shows the text
    "20 | <weapon name>" in the ammo field of the HUD. *)
Theorem ammo_never_changes (st : State) :
  Reachable st ->
  Player.ammo (player st) = Ammo.mk 20 50 /\
  (forall inp st' tr,
     _handleShooting inp st = Some (st', tr) ->
     Player.ammo (player st') = Player.ammo (player st)) /\
  (forall st', Step st st' -> Player.ammo (player st') = Player.ammo (player st)) /\
  (forall inp, exists st' tr hud weapon,
     _gameLoop inp st = Some (st', tr, hud) /\
     WEAPONS (Player.currentWeaponIdx (player st')) = Some weapon /\
     Hud.ammo hud = "20 | " +:+ Weapon.name weapon).
Proof.
  intros Hr. pose proof (Inv_Reachable st Hr) as HI.
  split; [apply HI|]. split; [|split].
  - intros inp st' tr Hs.
    destruct (Inv_handleShooting inp st st' tr HI Hs) as [HI' _].
    rewrite (inv_ammo _ HI), (inv_ammo _ HI'). reflexivity.
  - intros st' Hstep. destruct (Inv_Step st st' HI Hstep) as [HI' _].
    rewrite (inv_ammo _ HI), (inv_ammo _ HI'). reflexivity.
  - intros inp.
    destruct (Inv_gameLoop inp st HI) as (st' & tr & hud & Hg & HI' & _).
    destruct (WEAPONS_slot _ (inv_slot _ HI')) as [weapon Hw].
    exists st', tr, hud, weapon. split; [exact Hg|]. split; [exact Hw|].
    unfold _gameLoop in Hg.
    destruct (if isLocked inp then _ else _) as [[s1 t1]|]; simpl in Hg;
      [|discriminate].
    destruct (_updateEnemies (dt inp) s1) as [s2 t2].
    destruct (_updateProjectiles (dt inp) s2) as [s3 t3].
    destruct (_updateHUD s3) as [[h t4]|] eqn:Hh; simpl in Hg; [|discriminate].
    injection Hg as <- _ <-. unfold _updateHUD in Hh.
    rewrite Hw, (inv_ammo _ HI') in Hh. simpl in Hh.
    injection Hh as <- _. reflexivity.
Qed.

Lemma ammo_never_changes_witness :
  Reachable armedState /\ Player.ammo (player armedState) = Ammo.mk 20 50.
Proof.
  assert (Hr : Reachable armedState).
  { eapply steps_step; [eapply steps_step; [apply steps_refl|]|].
    - apply (step_switch 2). lia.
    - apply (run_Step (fireFrame 1000 [])). vm_compute. reflexivity. }
  split; [exact Hr|].
  destruct (ammo_never_changes armedState Hr) as [H _]. exact H.
Defined.

(** ** Facts about binary64 *)

Lemma SFcompare_antisym (x y : spec_float) :
  SFcompare y x = CompOpp <$> SFcompare x y.
Proof.
  destruct x as [sx|sx| |sx mx ex], y as [sy|sy| |sy my ey]; simpl;
    try reflexivity;
    try (destruct sx; reflexivity); try (destruct sy; reflexivity);
    try (destruct sx, sy; reflexivity).
  rewrite (Z.compare_antisym ex ey).
  change (PosDef.Pos.compare_cont Eq my mx)
    with (Pos.compare_cont (CompOpp Eq) my mx).
  rewrite <- (Pos.compare_cont_antisym mx my Eq).
  destruct sx, sy; simpl; try reflexivity;
    destruct (ex ?= ey)%Z; simpl; try reflexivity;
    destruct (Pos.compare_cont Eq mx my); reflexivity.
Qed.

(** [x <= y] rules out [y < x]. *)
Lemma leb_not_ltb (x y : float) :
  (x <=? y)%float = true -> (y <? x)%float = false.
Proof.
  rewrite leb_spec, ltb_spec. unfold SFleb, SFltb.
  rewrite (SFcompare_antisym (Prim2SF x) (Prim2SF y)).
  destruct (SFcompare (Prim2SF x) (Prim2SF y)) as [[]|]; simpl;
    intros; congruence.
Qed.

(** Adding [0 * s] changes nothing, for finite [s], except the sign of a
    negative zero. *)
Lemma add_zero_mul (y s : float) :
  Num.finite s = true -> Prim2SF y <> S754_zero true ->
  (y + 0 * s)%float = y.
Proof.
  intros Hs Hy. apply Prim2SF_inj.
  rewrite add_spec, mul_spec. unfold Num.finite in Hs.
  change (Prim2SF 0) with (S754_zero false).
  destruct (Prim2SF s) as [ss|ss| |ss ms es]; try discriminate;
    destruct (Prim2SF y) as [[]|sy| |sy my ey]; simpl; try reflexivity;
    try congruence; destruct ss; reflexivity.
Qed.

(** ** Jumping and the floor *)

(** C8, as the code has it.  A frame starts a jump exactly when the jump
    key is held and the player is grounded.  When the height the camera is
    moved to lies strictly below 2.5, the player is grounded again, the
    vertical velocity is 0 and the height is 2.5.  Otherwise the camera
    stays at that height, and either the frame started a jump, the vertical
    velocity is the jump impulse and the grounded flag is cleared, or it did
    not, the vertical velocity is the old one less gravity and the flag is
    as before. *)
Theorem jump_and_floor (inp : Input) (st : State) :
  (jumps inp st = true <->
   Keys.space (keys inp) = true /\ Player.canJump (player st) = true) /\
  ((integratedHeight inp st <? 2.5)%float = true ->
   Player.canJump (player (_handleMovement inp st)) = true /\
   Vec3.y (Player.velocity (player (_handleMovement inp st))) = 0%float /\
   Vec3.y (cameraPos (_handleMovement inp st)) = 2.5%float) /\
  ((integratedHeight inp st <? 2.5)%float = false ->
   Vec3.y (cameraPos (_handleMovement inp st)) = integratedHeight inp st /\
   if jumps inp st then
     Vec3.y (Player.velocity (player (_handleMovement inp st))) = JUMP_FORCE /\
     Player.canJump (player (_handleMovement inp st)) = false
   else
     Vec3.y (Player.velocity (player (_handleMovement inp st)))
     = (Vec3.y (Player.velocity (player st)) - GRAVITY * dt inp)%float /\
     Player.canJump (player (_handleMovement inp st))
     = Player.canJump (player st)).
Proof.
  split; [apply andb_true_iff|].
  unfold _handleMovement, integratedHeight, verticalVelocity, jumps.
  split; intros Hh.
  - rewrite Hh. simpl. auto.
  - rewrite Hh. simpl. split; [reflexivity|].
    destruct (Keys.space (keys inp) && Player.canJump (player st)); auto.
Qed.

(** C8, as the claim has it, fails on the boundary: at the end of a jump
    made of 250 ms frames the camera is moved to the height 2.5 exactly,
    which is "to or below" the floor height, and the player is left
    ungrounded with a vertical velocity of -15. *)
Lemma floor_reset_needs_strictly_below :
  run [jumpFrame false; jumpFrame true; jumpFrame false; jumpFrame false;
       jumpFrame false] initialState = Some fallingState /\
  Vec3.y (cameraPos fallingState) = 6.25%float /\
  (integratedHeight (jumpFrame false) fallingState <=? 2.5)%float = true /\
  Player.canJump (player (_handleMovement (jumpFrame false) fallingState))
  = false /\
  Vec3.y (Player.velocity
            (player (_handleMovement (jumpFrame false) fallingState)))
  = (-15)%float /\
  Vec3.y (cameraPos (_handleMovement (jumpFrame false) fallingState))
  = 2.5%float.
Proof. vm_compute. repeat split; reflexivity. Qed.

(** ** The secret wall *)

Lemma handleEnvironment_level (inp : Input) (st : State) :
  levelGeometry (_handleEnvironment inp st).1
  = (fun g => if lowers inp g then lowered g else g) <$> levelGeometry st.
Proof.
  unfold _handleEnvironment, lowers.
  destruct (levelHits inp) as [|hit rest]; simpl.
  - symmetry. apply list_fmap_id.
  - destruct (Hit.distance hit <? 4)%float; simpl.
    + apply list_fmap_ext. intros i g _. unfold openSecret, lowered.
      destruct (Nat.eqb _ _), (LevelMesh.isSecret g), (_ <? _)%float;
        reflexivity.
    + symmetry. apply list_fmap_id.
Qed.

Lemma handleShooting_level (inp : Input) (st st' : State) (tr : list Call) :
  _handleShooting inp st = Some (st', tr) ->
  levelGeometry st' = levelGeometry st.
Proof.
  unfold _handleShooting.
  destruct (mouseLeft inp); simpl; [|intros [= <- <-]; reflexivity].
  destruct (WEAPONS _) as [weapon|]; simpl; [|discriminate].
  destruct (Z.ltb _ _); [|intros [= <- <-]; reflexivity].
  set (st1 := set_player _ st).
  destruct (isHitscan _).
  - destruct (fireHitscan_frame weapon inp st1) as [[es He] _].
    destruct (_fireHitscan weapon inp st1). simpl in He. subst.
    intros [= <- <-]. reflexivity.
  - simpl. intros [= <- <-]. reflexivity.
Qed.

Lemma projectileLoop_level (dt : float) (n : nat) (st : State) :
  Inv st ->
  levelGeometry (projectileLoop dt n st).1 = levelGeometry st.
Proof.
  revert st. induction n as [|n IH]; intros st HI; simpl; [reflexivity|].
  destruct (Inv_projectileBody dt n st HI) as [HI1 _].
  assert (Hl : levelGeometry (projectileBody dt n st).1 = levelGeometry st).
  { destruct (projectileBody_cases dt n st (inv_nodup _ HI))
      as [[_ ->]|[(p & l1 & e & l2 & _ & _ & ->)|(p & ps & _ & _ & ->)]];
      reflexivity. }
  destruct (projectileBody dt n st) as [s1 t1]. simpl in *.
  specialize (IH s1 HI1).
  destruct (projectileLoop dt n s1) as [s2 t2]. simpl in *. congruence.
Qed.

(** The level after a frame: only the trigger, run while the controls are
    locked, has touched it. *)
Lemma gameLoop_level (inp : Input) (st st' : State) (tr : list Call)
    (hud : Hud.t) :
  Inv st -> _gameLoop inp st = Some (st', tr, hud) ->
  levelGeometry st'
  = if isLocked inp
    then (fun g => if lowers inp g then lowered g else g) <$> levelGeometry st
    else levelGeometry st.
Proof.
  intros HI. unfold _gameLoop.
  match goal with |- context [mbind _ ?m] =>
    assert (H1 : forall s1 t1, m = Some (s1, t1) ->
               Inv s1 /\
               levelGeometry s1
               = if isLocked inp
                 then (fun g => if lowers inp g then lowered g else g)
                        <$> levelGeometry st
                 else levelGeometry st)
  end.
  { destruct (isLocked inp); [|intros s1 t1 [= <- <-]; auto].
    cbv zeta. intros s1 t1.
    pose proof (Inv_handleMovement inp st HI) as HIm.
    assert (Hlm : levelGeometry (_handleMovement inp st) = levelGeometry st).
    { unfold _handleMovement. destruct (_ <? 2.5)%float; reflexivity. }
    destruct (_handleShooting inp (_handleMovement inp st)) as [[s2 t2]|] eqn:Hs;
      simpl; [|discriminate].
    destruct (Inv_handleShooting _ _ _ _ HIm Hs) as [HI2 _].
    apply handleShooting_level in Hs.
    pose proof (handleEnvironment_level inp s2) as He.
    destruct (Inv_handleEnvironment inp s2 HI2) as [HI3 _].
    destruct (_handleEnvironment inp s2) as [s3 t3]. simpl in *.
    intros [= <- <-]. split; [exact HI3|]. congruence. }
  destruct (if isLocked inp then _ else _) as [[s1 t1]|]; simpl;
    [|discriminate].
  destruct (H1 s1 t1 eq_refl) as [HI1 Hl1].
  destruct (Inv_updateEnemies (dt inp) s1 HI1) as [HI2 _].
  assert (Hl2 : levelGeometry (_updateEnemies (dt inp) s1).1 = levelGeometry s1).
  { unfold _updateEnemies. destruct (enemyLoop _ _ _ _) as [[? ?] ?].
    reflexivity. }
  destruct (_updateEnemies (dt inp) s1) as [s2 t2]. simpl in *.
  pose proof (projectileLoop_level (dt inp) (length (projectiles s2)) s2 HI2)
    as Hl3.
  unfold _updateProjectiles.
  destruct (projectileLoop (dt inp) (length (projectiles s2)) s2) as [s3 t3].
  simpl in *. destruct (_updateHUD s3) as [[h t4]|]; simpl; [|discriminate].
  intros [= <- _ _]. congruence.
Qed.

(** The level of a session is the level as built, with the secret wall at
    one of the heights [sink k]. *)
Lemma level_step (inp : Input) (y : float) :
  (fun g => if lowers inp g then lowered g else g) <$> levelWith y
  = levelWith y \/
  (fun g => if lowers inp g then lowered g else g) <$> levelWith y
  = levelWith (sinkStep y).
Proof.
  unfold lowers. destruct (levelHits inp) as [|hit rest]; [left; reflexivity|].
  unfold levelWith. cbn -[Nat.eqb]. rewrite !andb_false_r. cbn -[Nat.eqb].
  destruct (Hit.distance hit <? 4)%float; cbn -[Nat.eqb];
    [|left; reflexivity].
  destruct (Nat.eqb 5 (Hit.object hit)); cbn; [|left; reflexivity].
  unfold sinkStep. destruct (-5 <? y)%float; [right|left]; reflexivity.
Qed.


Lemma sink_S (k : nat) : sink (S k) = sinkStep (sink k).
Proof. reflexivity. Qed.

(** After 101 steps the wall is at rest. *)
Lemma sink_rest (j : nat) : sink (101 + j) = sink 101.
Proof.
  induction j as [|j IH]; [rewrite Nat.add_0_r; reflexivity|].
  rewrite Nat.add_succ_r, (sink_S (101 + j)), IH.
  vm_compute. reflexivity.
Qed.


(** ** Pursuit and attack *)

(** Entering the callback for an enemy known to be alive. *)
Ltac alive_turn :=
  unfold updateEnemy;
  match goal with
  | |- context [(Enemy.hp ?e <=? 0)%Z] =>
      destruct (Z.leb_spec (Enemy.hp e) 0); [lia|]
  end;
  cbv zeta.

(** The player's hit points after one call of the callback. *)
Lemma updateEnemy_hp (dt : float) (playerPos : Vec3.t) (enemy : Enemy.t)
    (playerHp : float) :
  (updateEnemy dt playerPos enemy playerHp).1.2
  = if attacks playerPos enemy then (playerHp - 0.1)%float else playerHp.
Proof.
  unfold updateEnemy, attacks.
  destruct (Z.leb _ _); simpl; [reflexivity|].
  destruct (_ <? 25)%float; simpl; [|reflexivity].
  destruct (Enemy.state enemy); simpl; destruct (_ <? _)%float; reflexivity.
Qed.

Lemma enemyLoop_hp (dt : float) (playerPos : Vec3.t) (es : list Enemy.t)
    (playerHp : float) :
  (enemyLoop dt playerPos es playerHp).1.2 = drain playerPos es playerHp.
Proof.
  unfold drain. revert playerHp.
  induction es as [|e es IH]; intros playerHp; simpl; [reflexivity|].
  pose proof (updateEnemy_hp dt playerPos e playerHp) as H.
  destruct (updateEnemy dt playerPos e playerHp) as [[e' h1] t1]. simpl in H.
  specialize (IH h1).
  destruct (enemyLoop dt playerPos es h1) as [[es' h2] t2]. simpl in *.
  rewrite IH, H. reflexivity.
Qed.

(** C7, as the claim has it, fails when the player is not at the enemy's
    height.  An enemy in pursuit at distance 20 from a camera 12 above it
    moves by 1.2, not by [speed * dt] = 1.5.  The same shows in a session:
    in the frame in which the player leaps, 0.8 s long, the first enemy, 23.3
    away, moves by 2.06, not by 2.4. *)
Lemma chase_step_shorter_below_a_jump :
  (0 <? Enemy.hp chaser)%Z = true /\
  Vec3.distanceTo (Enemy.position chaser) airborne = 20%float /\
  (20 <? 25)%float = true /\
  (Enemy.attackRange chaser <? 20)%float = true /\
  (Enemy.speed chaser * 0.5)%float = 1.5%float /\
  Enemy.position (updateEnemy 0.5 airborne chaser 100).1.1
  = Vec3.mk 0 2.5 (-14.800000000000001) /\
  Vec3.distanceTo (Enemy.position (updateEnemy 0.5 airborne chaser 100).1.1)
    (Enemy.position chaser) = 1.1999999999999993%float /\
  cameraPos (_handleMovement leapFrame (siege 1)) = airborne /\
  Enemy.position <$> enemies (siege 1) !! 0
  = Some (Vec3.mk 0 2.5 (-19.952000000000002)) /\
  Enemy.position
    <$> enemies (default initialState (run [leapFrame] (siege 1))) !! 0
  = Some (Vec3.mk 0 2.5 (-17.895327871050764)) /\
  (Enemy.speed firstSpawn * 0.8)%float = 2.4000000000000004%float.
Proof. vm_compute. repeat split; reflexivity. Qed.

(** C9, as the code has it.  An alive enemy that sees the player (distance
    below 25) from within its attack range takes exactly 0.1 from the
    player's hit points in its turn of the per-frame pass, whatever [dt]
    and whatever the hit points are, positive or not, and does not move;
    over the whole pass the player loses 0.1 once for each such enemy.
    Nothing holds the hit points at 0: with the two enemies of the level at
    arm's length they are negative from the 815th frame on, and still
    sinking. *)
Theorem attack_drains_player (dt : float) (playerPos : Vec3.t)
    (enemy : Enemy.t) (playerHp : float) :
  (0 < Enemy.hp enemy)%Z ->
  (Vec3.distanceTo (Enemy.position enemy) playerPos <? 25)%float = true ->
  (Vec3.distanceTo (Enemy.position enemy) playerPos
   <=? Enemy.attackRange enemy)%float = true ->
  (updateEnemy dt playerPos enemy playerHp).1.2 = (playerHp - 0.1)%float /\
  Enemy.position (updateEnemy dt playerPos enemy playerHp).1.1
  = Enemy.position enemy /\
  (forall st,
     Player.hp (player (_updateEnemies dt st).1)
     = drain (cameraPos st) (enemies st) (Player.hp (player st))) /\
  drain playerPos [enemy] playerHp = (playerHp - 0.1)%float /\
  (0 <=? Player.hp (player (siege 814)))%float = true /\
  forallb (fun n => (Player.hp (player (siege n)) <? 0)%float
                    && (Player.hp (player (siege (S n)))
                        <? Player.hp (player (siege n)))%float)
    (seq 815 30) = true.
Proof.
  intros Hhp Hsee Hnear. apply leb_not_ltb in Hnear.
  assert (Hatt : attacks playerPos enemy = true).
  { unfold attacks. rewrite Hsee, Hnear.
    destruct (Z.leb_spec (Enemy.hp enemy) 0); [lia|reflexivity]. }
  split; [|split; [|split; [|split; [|split]]]].
  - rewrite updateEnemy_hp, Hatt. reflexivity.
  - alive_turn. rewrite Hsee.
    destruct (Enemy.state enemy); simpl; rewrite Hnear; reflexivity.
  - intros st. unfold _updateEnemies.
    pose proof (enemyLoop_hp dt (cameraPos st) (enemies st)
                  (Player.hp (player st))) as H.
    destruct (enemyLoop _ _ _ _) as [[es h] t]. exact H.
  - unfold drain. simpl. rewrite Hatt. reflexivity.
  - vm_compute. reflexivity.
  - vm_compute. reflexivity.
Qed.

Lemma attack_drains_player_witness :
  (0 < Enemy.hp (Enemy.set_position (Vec3.mk 0 2.5 (-1.5)) chaser))%Z /\
  (Vec3.distanceTo (Vec3.mk 0 2.5 (-1.5)) standing <? 25)%float = true /\
  (Vec3.distanceTo (Vec3.mk 0 2.5 (-1.5)) standing <=? 2.0)%float = true /\
  (updateEnemy 0.016 standing
     (Enemy.set_position (Vec3.mk 0 2.5 (-1.5)) chaser) 100).1.2
  = (100 - 0.1)%float.
Proof.
  split; [vm_compute; reflexivity|].
  split; [vm_compute; reflexivity|].
  split; [vm_compute; reflexivity|].
  apply (attack_drains_player 0.016 standing
           (Enemy.set_position (Vec3.mk 0 2.5 (-1.5)) chaser) 100);
    vm_compute; reflexivity.
Defined.

(** C9, as the claim has it, fails when more than one enemy is within
    reach: the frame takes 0.1 for each of them.  With two enemies at arm's
    length the pass leaves the player with 100 - 0.1 - 0.1, not 100 - 0.1;
    so it goes in the level itself, where both enemies have closed in by the
    400th frame and the next frame takes 0.2. *)
Lemma two_attackers_take_twice :
  Player.hp (player cornered) = 100%float /\
  attacks (cameraPos cornered) <$> enemies cornered = [true; true] /\
  Player.hp (player (_updateEnemies 0.016 cornered).1)
  = (100 - 0.1 - 0.1)%float /\
  (100 - 0.1 - 0.1 <? 100 - 0.1)%float = true /\
  run [idleFrame 0.016] (siege 400) = Some (siege 401) /\
  attacks (cameraPos (siege 400)) <$> enemies (siege 400) = [true; true] /\
  Player.hp (player (siege 401))
  = (Player.hp (player (siege 400)) - 0.1 - 0.1)%float /\
  (Player.hp (player (siege 401))
   <? Player.hp (player (siege 400)) - 0.1)%float = true.
Proof. vm_compute. repeat split; reflexivity. Qed.

(** * Further properties of the code *)

(** ** The phases of a frame *)

Lemma gameLoop_phases (inp : Input) (st st' : State) (tr : list Call)
    (hud : Hud.t) :
  _gameLoop inp st = Some (st', tr, hud) ->
  exists st1 tr1 st2 tr2 tr3 tr4,
    ((isLocked inp = true /\
      exists stS trS trE,
        _handleShooting inp (_handleMovement inp st) = Some (stS, trS) /\
        _handleEnvironment inp stS = (st1, trE) /\ tr1 = trS ++ trE) \/
     (isLocked inp = false /\ st1 = st /\ tr1 = [])) /\
    _updateEnemies (dt inp) st1 = (st2, tr2) /\
    _updateProjectiles (dt inp) st2 = (st', tr3) /\
    _updateHUD st' = Some (hud, tr4) /\
    tr = tr1 ++ tr2 ++ tr3 ++ tr4.
Proof.
  unfold _gameLoop. intros Hg.
  match type of Hg with context [mbind _ ?m] =>
    destruct m as [[st1 tr1]|] eqn:H1; simpl in Hg; [|discriminate]
  end.
  destruct (_updateEnemies (dt inp) st1) as [st2 tr2] eqn:H2.
  destruct (_updateProjectiles (dt inp) st2) as [st3 tr3] eqn:H3.
  destruct (_updateHUD st3) as [[hud' tr4]|] eqn:H4; simpl in Hg;
    [|discriminate].
  injection Hg as <- <- <-.
  exists st1, tr1, st2, tr2, tr3, tr4.
  split; [|auto].
  destruct (isLocked inp); [left|right].
  - split; [reflexivity|]. cbv zeta in H1.
    destruct (_handleShooting inp (_handleMovement inp st)) as [[stS trS]|];
      simpl in H1; [|discriminate].
    destruct (_handleEnvironment inp stS) as [stE trE] eqn:HE.
    injection H1 as <- <-. eauto 10.
  - injection H1 as <- <-. auto.
Qed.

(** What a call of [_handleShooting] that returns has done: nothing, or a
    shot with the weapon of the slot. *)
Lemma handleShooting_cases (inp : Input) (st st' : State) (tr : list Call) :
  _handleShooting inp st = Some (st', tr) ->
  (st' = st /\ tr = [] /\
   (mouseLeft inp = false \/
    exists weapon,
      WEAPONS (Player.currentWeaponIdx (player st)) = Some weapon /\
      (Weapon.delay weapon <? now inp - Player.lastFireTime (player st))%Z
      = false)) \/
  (exists weapon tr',
      mouseLeft inp = true /\
      WEAPONS (Player.currentWeaponIdx (player st)) = Some weapon /\
      (Weapon.delay weapon <? now inp - Player.lastFireTime (player st))%Z
      = true /\
      (if isHitscan (Weapon.type weapon) then _fireHitscan weapon inp
       else _fireProjectile weapon inp)
        (set_player (Player.set_lastFireTime (now inp) (player st)) st)
      = (st', tr') /\
      tr = from_option (fun name => [PlaySound name]) []
             (sfxMap !! Player.currentWeaponIdx (player st)) ++ tr').
Proof.
  unfold _handleShooting.
  destruct (mouseLeft inp); simpl; [|intros [= <- <-]; auto].
  destruct (WEAPONS _) as [weapon|]; simpl; [|discriminate].
  destruct (Z.ltb _ _) eqn:Hd; [|intros [= <- <-]; left; eauto 10].
  intros H. right. exists weapon.
  destruct (isHitscan _);
    [destruct (_fireHitscan _ _ _) as [s t]
    |destruct (_fireProjectile _ _ _) as [s t]];
    injection H as <- <-; eauto 10.
Qed.

Lemma projectileBody_frame (dt : float) (i : nat) (st : State) :
  exists es ps,
    (projectileBody dt i st).1 = set_projectiles ps (set_enemies es st).
Proof.
  unfold projectileBody.
  destruct (projectiles st !! i) as [p|]; simpl.
  2:{ exists (enemies st), (projectiles st). destruct st; reflexivity. }
  set (st1 := set_projectiles _ st).
  destruct (List.find _ _) as [enemy|].
  - destruct (damageEnemy_frame enemy (Projectile.damage (advance dt p)) st1)
      as [[es He] _].
    destruct (_damageEnemy _ _ st1) as [s t]. simpl in *. subst s.
    eexists _, _. reflexivity.
  - simpl. destruct (_ <=? 0)%float; simpl.
    + exists (enemies st). eexists. reflexivity.
    + exists (enemies st). eexists. reflexivity.
Qed.

Lemma projectileLoop_frame (dt : float) (n : nat) (st : State) :
  exists es ps,
    (projectileLoop dt n st).1 = set_projectiles ps (set_enemies es st).
Proof.
  revert st. induction n as [|n IH]; intros st; simpl.
  - exists (enemies st), (projectiles st). destruct st; reflexivity.
  - destruct (projectileBody_frame dt n st) as (es & ps & H).
    destruct (projectileBody dt n st) as [s1 t1]. simpl in H. subst s1.
    destruct (IH (set_projectiles ps (set_enemies es st))) as (es' & ps' & H).
    destruct (projectileLoop dt n _) as [s2 t2]. simpl in *. subst s2.
    exists es', ps'. reflexivity.
Qed.

Lemma updateEnemies_frame (dt : float) (st : State) :
  exists es,
    (_updateEnemies dt st).1
    = set_player
        (Player.set_hp (drain (cameraPos st) (enemies st) (Player.hp (player st)))
           (player st)) (set_enemies es st).
Proof.
  unfold _updateEnemies.
  pose proof (enemyLoop_hp dt (cameraPos st) (enemies st)
                (Player.hp (player st))) as H.
  destruct (enemyLoop _ _ _ _) as [[es h] tr]. simpl in *. subst h.
  exists es. reflexivity.
Qed.

(** The player record after [_handleShooting]: only the time of the last
    shot can have changed. *)
Lemma handleShooting_player (inp : Input) (st st' : State) (tr : list Call) :
  _handleShooting inp st = Some (st', tr) ->
  cameraPos st' = cameraPos st /\
  exists t, player st' = Player.set_lastFireTime t (player st) /\
  (t = Player.lastFireTime (player st) \/ t = now inp).
Proof.
  intros H. apply handleShooting_cases in H
    as [(-> & _ & _)|(weapon & tr' & _ & _ & _ & Hf & _)].
  - split; [reflexivity|]. exists (Player.lastFireTime (player st)).
    split; [destruct (player st); reflexivity|auto].
  - set (st1 := set_player _ st) in Hf.
    destruct (isHitscan _).
    + destruct (fireHitscan_frame weapon inp st1) as [[es He] _].
      rewrite Hf in He. simpl in He. subst st'. simpl. eauto.
    + injection Hf as <- _. simpl. eauto.
Qed.

(** The frame of a state whose slot holds no weapon stops with a
    TypeError, and no other frame does. *)
Lemma gameLoop_slot_phases (inp : Input) (st : State) :
  (exists weapon, WEAPONS (Player.currentWeaponIdx (player st)) = Some weapon) ->
  exists st' tr hud, _gameLoop inp st = Some (st', tr, hud).
Proof.
  intros [weapon Hw]. unfold _gameLoop.
  match goal with |- context [mbind _ ?m] =>
    assert (H1 : exists st1 tr1,
               m = Some (st1, tr1) /\
               Player.currentWeaponIdx (player st1)
               = Player.currentWeaponIdx (player st))
  end.
  { destruct (isLocked inp); [|eauto]. cbv zeta.
    assert (Hm : Player.currentWeaponIdx (player (_handleMovement inp st))
                 = Player.currentWeaponIdx (player st)).
    { unfold _handleMovement. destruct (_ <? 2.5)%float; reflexivity. }
    destruct (_handleShooting inp (_handleMovement inp st))
      as [[s2 t2]|] eqn:Hs.
    - destruct (handleShooting_player _ _ _ _ Hs) as (_ & t & Hp & _).
      simpl. unfold _handleEnvironment.
      destruct (levelHits inp) as [|hit rest];
        [|destruct (_ <? 4)%float]; simpl;
        eexists _, _; (split; [reflexivity|]); simpl;
        rewrite Hp, <- Hm; reflexivity.
    - exfalso. unfold _handleShooting in Hs. rewrite Hm, Hw in Hs.
      destruct (mouseLeft inp); simpl in Hs; [|discriminate].
      destruct (Z.ltb _ _); [|discriminate].
      destruct (isHitscan _); [destruct (_fireHitscan _ _ _)
                              |destruct (_fireProjectile _ _ _)];
        discriminate. }
  destruct H1 as (st1 & tr1 & -> & Hi1). simpl.
  destruct (updateEnemies_frame (dt inp) st1) as [es He].
  destruct (_updateEnemies (dt inp) st1) as [s2 t2]. simpl in He. subst s2.
  unfold _updateProjectiles.
  match goal with |- context [projectileLoop ?d ?n ?s] =>
    destruct (projectileLoop_frame d n s) as (es' & ps' & Hp);
    destruct (projectileLoop d n s) as [s3 t3]
  end.
  simpl in Hp. subst s3. unfold _updateHUD. simpl. rewrite Hi1, Hw. simpl.
  eauto.
Qed.

Lemma armedState_Reachable : Reachable armedState.
Proof.
  eapply steps_step; [eapply steps_step; [apply steps_refl|]|].
  - apply (step_switch 2). lia.
  - apply (run_Step (fireFrame 1000 [])). vm_compute. reflexivity.
Qed.

Lemma WEAPONS_none (idx : nat) : WEAPONS idx = None <-> 4 <= idx.
Proof.
  destruct idx as [|[|[|[|n]]]]; simpl; split; try discriminate; try lia;
    reflexivity.
Qed.

Lemma handleMovement_frame (inp : Input) (st : State) :
  exists v j c,
    _handleMovement inp st
    = set_cameraPos c
        (set_player (Player.set_canJump j (Player.set_velocity v (player st)))
           st).
Proof.
  unfold _handleMovement. destruct (_ <? 2.5)%float; eauto.
Qed.

Lemma handleEnvironment_frame (inp : Input) (st : State) :
  exists g, (_handleEnvironment inp st).1 = set_levelGeometry g st.
Proof.
  unfold _handleEnvironment.
  destruct (levelHits inp) as [|hit rest]; [|destruct (_ <? 4)%float]; simpl;
    eauto; exists (levelGeometry st); destruct st; reflexivity.
Qed.

(** The fields a frame leaves to its first phase: after the block that runs
    under pointer lock, only the enemy pass writes to the player, and only
    to the hit points. *)
Lemma gameLoop_fields (inp : Input) (st st' : State) (tr : list Call)
    (hud : Hud.t) :
  _gameLoop inp st = Some (st', tr, hud) ->
  exists st1,
    ((isLocked inp = true /\
      exists stS trS,
        _handleShooting inp (_handleMovement inp st) = Some (stS, trS) /\
        st1 = (_handleEnvironment inp stS).1) \/
     (isLocked inp = false /\ st1 = st)) /\
    player st'
    = Player.set_hp (drain (cameraPos st1) (enemies st1) (Player.hp (player st1)))
        (player st1) /\
    cameraPos st' = cameraPos st1 /\
    levelGeometry st' = levelGeometry st1 /\
    nextId st' = nextId st1.
Proof.
  intros Hg.
  apply gameLoop_phases in Hg
    as (st1 & tr1 & st2 & tr2 & tr3 & tr4 & H1 & H2 & H3 & _ & _).
  exists st1. split.
  - destruct H1 as [(Hl & stS & trS & trE & Hs & He & _)|(Hl & -> & _)];
      [left|right; auto].
    split; [exact Hl|]. exists stS, trS. rewrite He. auto.
  - destruct (updateEnemies_frame (dt inp) st1) as [es He].
    rewrite H2 in He. simpl in He. subst st2.
    unfold _updateProjectiles in H3.
    match type of H3 with projectileLoop ?d ?n ?s = _ =>
      destruct (projectileLoop_frame d n s) as (es' & ps' & Hp)
    end.
    rewrite H3 in Hp. simpl in Hp. subst st'. simpl. auto.
Qed.

Lemma gameLoop_slot (inp : Input) (st st' : State) (tr : list Call)
    (hud : Hud.t) :
  _gameLoop inp st = Some (st', tr, hud) ->
  Player.currentWeaponIdx (player st') = Player.currentWeaponIdx (player st) /\
  is_Some (WEAPONS (Player.currentWeaponIdx (player st))).
Proof.
  intros Hg. pose proof Hg as Hp. apply gameLoop_phases in Hp
    as (_ & _ & _ & _ & _ & tr4 & _ & _ & _ & Hh & _).
  apply gameLoop_fields in Hg as (st1 & H1 & Hpl & _).
  assert (Hi : Player.currentWeaponIdx (player st')
               = Player.currentWeaponIdx (player st)).
  { rewrite Hpl. simpl.
    destruct H1 as [(_ & stS & trS & Hs & ->)|(_ & ->)]; [|reflexivity].
    destruct (handleEnvironment_frame inp stS) as [g ->]. simpl.
    apply handleShooting_player in Hs as (_ & t & -> & _). simpl.
    destruct (handleMovement_frame inp st) as (v & j & c & ->).
    reflexivity. }
  split; [exact Hi|]. unfold _updateHUD in Hh. rewrite Hi in Hh.
  destruct (WEAPONS _) as [weapon|]; [eauto|discriminate].
Qed.

(** X1.  A frame stops with a TypeError exactly when the weapon slot holds
    none of the four weapons, whatever the input: the slot is read by the
    fire gate and by the HUD, and no phase of a frame changes it. *)
Theorem frame_throws_iff_empty_slot (inp : Input) (st : State) :
  _gameLoop inp st = None <-> 4 <= Player.currentWeaponIdx (player st).
Proof.
  rewrite <- WEAPONS_none. split.
  - intros Hg.
    destruct (WEAPONS (Player.currentWeaponIdx (player st))) as [weapon|] eqn:Hw;
      [|reflexivity].
    destruct (gameLoop_slot_phases inp st) as (st' & tr & hud & H); [eauto|].
    congruence.
  - intros Hw.
    destruct (_gameLoop inp st) as [[[st' tr] hud]|] eqn:Hg; [|reflexivity].
    apply gameLoop_slot in Hg as [_ [weapon Hs]]. congruence.
Qed.

(** ** The engine's listeners *)

Lemma onKey_game (code : string) (isDown : bool) (w : World.t) :
  World.game (_onKey code isDown w) = World.game w \/
  exists detail,
    detail < 4 /\
    World.game (_onKey code isDown w) = switchWeapon detail (World.game w).
Proof.
  unfold _onKey.
  repeat (destruct (String.eqb code _); [try (left; reflexivity)|]);
    try (left; reflexivity);
    destruct isDown; try (left; reflexivity); right; simpl;
    eexists; (split; [|reflexivity]); lia.
Qed.

Lemma onKey_keys (code : string) (isDown : bool) (w : World.t) :
  let k := World.keys w in
  let upd name old := if String.eqb code name then isDown else old in
  World.keys (_onKey code isDown w)
  = Keys.mk (upd "KeyW" (Keys.w k)) (upd "KeyA" (Keys.a k))
      (upd "KeyS" (Keys.s k)) (upd "KeyD" (Keys.d k))
      (upd "ShiftLeft" (Keys.shift k)) (upd "Space" (Keys.space k)) /\
  World.mouseLeft (_onKey code isDown w) = World.mouseLeft w.
Proof.
  unfold _onKey.
  destruct (String.eqb_spec code "KeyW") as [->|?]; [split; reflexivity|].
  destruct (String.eqb_spec code "KeyA") as [->|?]; [split; reflexivity|].
  destruct (String.eqb_spec code "KeyS") as [->|?]; [split; reflexivity|].
  destruct (String.eqb_spec code "KeyD") as [->|?]; [split; reflexivity|].
  destruct (String.eqb_spec code "ShiftLeft") as [->|?];
    [split; reflexivity|].
  destruct (String.eqb_spec code "Space") as [->|?]; [split; reflexivity|].
  destruct (String.eqb code "Digit1");
    [|destruct (String.eqb code "Digit2");
      [|destruct (String.eqb code "Digit3");
        [|destruct (String.eqb code "Digit4")]]];
    destruct isDown; split; simpl; destruct (World.keys w); reflexivity.
Qed.

Lemma runEvents_app (evs evs' : list Event) (w : World.t) :
  runEvents (evs ++ evs') w = runEvents evs w ≫= runEvents evs'.
Proof.
  revert w. induction evs as [|e evs IH]; intros w; simpl; [reflexivity|].
  destruct (dispatch e w) as [w1|]; simpl; [apply IH|reflexivity].
Qed.

Lemma dispatch_Reachable (e : Event) (w : World.t) :
  Reachable (World.game w) ->
  exists w', dispatch e w = Some w' /\ Reachable (World.game w').
Proof.
  intros Hr. destruct e as [code|code|button|button|host]; simpl.
  - eexists. split; [reflexivity|].
    destruct (onKey_game code true w) as [->|(d & Hd & ->)]; [exact Hr|].
    eapply steps_step; [exact Hr|apply step_switch, Hd].
  - eexists. split; [reflexivity|].
    destruct (onKey_game code false w) as [->|(d & Hd & ->)]; [exact Hr|].
    eapply steps_step; [exact Hr|apply step_switch, Hd].
  - eexists. split; [reflexivity|]. unfold onMouseDown.
    destruct (Z.eqb button 0); exact Hr.
  - eexists. split; [reflexivity|]. unfold onMouseUp.
    destruct (Z.eqb button 0); exact Hr.
  - unfold onFrame.
    destruct (Inv_gameLoop (snapshot host w) (World.game w)
                (Inv_Reachable _ Hr)) as (st' & tr & hud & Hg & _).
    rewrite Hg. simpl. eexists. split; [reflexivity|]. simpl.
    eapply steps_step; [exact Hr|eapply step_frame, Hg].
Qed.

(** The events that bring the snapshot of the engine to given keys and
    button. *)
Lemma snapshot_events (k : Keys.t) (m : bool) (w : World.t) :
  exists evs,
    runEvents evs w = Some (World.mk (World.game w) k m).
Proof.
  pose (key code (b : bool) := if b then KeyDown code else KeyUp code).
  exists [key "KeyW" (Keys.w k); key "KeyA" (Keys.a k); key "KeyS" (Keys.s k);
          key "KeyD" (Keys.d k); key "ShiftLeft" (Keys.shift k);
          key "Space" (Keys.space k);
          if m then MouseDown 0 else MouseUp 0].
  destruct k as [[] [] [] [] [] []], m, w; reflexivity.
Qed.

(** X2.  The sessions of the engine are the sessions of [Step]: whatever
    keys and buttons go down and up and whatever frames the host runs, no
    handler throws and the game is in a reachable state; and every
    reachable state is the state of the game after some sequence of key,
    button and frame events. *)
Theorem event_sessions_are_sessions (k : Keys.t) (m : bool) :
  (forall evs, exists w,
      runEvents evs (World.mk initialState k m) = Some w /\
      Reachable (World.game w)) /\
  (forall st, Reachable st ->
     exists evs w,
       runEvents evs (World.mk initialState k m) = Some w /\
       World.game w = st).
Proof.
  split.
  - intros evs.
    assert (H : forall w, Reachable (World.game w) ->
                  exists w', runEvents evs w = Some w' /\
                             Reachable (World.game w')).
    { induction evs as [|e evs IH]; intros w Hr; simpl; [eauto|].
      destruct (dispatch_Reachable e w Hr) as (w1 & -> & Hr1). simpl.
      apply IH, Hr1. }
    apply H. apply steps_refl.
  - intros st Hr. unfold Reachable in Hr.
    remember initialState as s0 eqn:Hs0.
    induction Hr as [s|s s' s'' _ IH Hstep]; subst s.
    + exists [], (World.mk initialState k m). split; reflexivity.
    + destruct (IH eq_refl) as (evs & w & Hrun & Hw).
      destruct Hstep as [inp s s' tr hud Hg|detail s Hd].
      * destruct (snapshot_events (keys inp) (mouseLeft inp) w) as [evs1 H1].
        exists (evs ++ evs1 ++ [AnimationFrame inp]). eexists.
        rewrite runEvents_app, Hrun. simpl.
        rewrite runEvents_app, H1. simpl.
        unfold onFrame, snapshot. simpl. rewrite Hw.
        replace (mkInput _ _ _ _ _ _ _ _) with inp
          by (destruct inp; reflexivity).
        rewrite Hg. simpl. split; reflexivity.
      * exists (evs ++ [KeyDown (match detail with
                                 | 0 => "Digit1" | 1 => "Digit2"
                                 | 2 => "Digit3" | _ => "Digit4" end)]).
        eexists. rewrite runEvents_app, Hrun. simpl. split; [reflexivity|].
        rewrite <- Hw.
        destruct detail as [|[|[|[|n]]]]; try reflexivity; lia.
Qed.

Lemma dispatch_keys (e : Event) (w w' : World.t) :
  dispatch e w = Some w' ->
  let k := World.keys w in
  let upd name old :=
    match e with
    | KeyDown c => if String.eqb c name then true else old
    | KeyUp c => if String.eqb c name then false else old
    | _ => old
    end in
  World.keys w'
  = Keys.mk (upd "KeyW" (Keys.w k)) (upd "KeyA" (Keys.a k))
      (upd "KeyS" (Keys.s k)) (upd "KeyD" (Keys.d k))
      (upd "ShiftLeft" (Keys.shift k)) (upd "Space" (Keys.space k)) /\
  World.mouseLeft w'
  = match e with
    | MouseDown button => if (button =? 0)%Z then true else World.mouseLeft w
    | MouseUp button => if (button =? 0)%Z then false else World.mouseLeft w
    | _ => World.mouseLeft w
    end.
Proof.
  destruct e as [code|code|button|button|host]; simpl.
  - intros [= <-]. apply onKey_keys.
  - intros [= <-]. apply onKey_keys.
  - intros [= <-]. unfold onMouseDown.
    destruct (Z.eqb button 0); split; simpl; destruct (World.keys w);
      reflexivity.
  - intros [= <-]. unfold onMouseUp.
    destruct (Z.eqb button 0); split; simpl; destruct (World.keys w);
      reflexivity.
  - unfold onFrame. destruct (_gameLoop _ _) as [[[s t] h]|]; simpl;
      [|discriminate].
    intros [= <-]. split; simpl; destruct (World.keys w); reflexivity.
Qed.

(** X3.  The snapshot the frames read is, key by key, the direction of the
    last event of that key: events of other keys, of other buttons, digit
    keys and frames leave it alone. *)
Theorem keys_follow_last_event (evs : list Event) (w w' : World.t) :
  runEvents evs w = Some w' ->
  World.keys w'
  = Keys.mk (lastKey "KeyW" evs (Keys.w (World.keys w)))
      (lastKey "KeyA" evs (Keys.a (World.keys w)))
      (lastKey "KeyS" evs (Keys.s (World.keys w)))
      (lastKey "KeyD" evs (Keys.d (World.keys w)))
      (lastKey "ShiftLeft" evs (Keys.shift (World.keys w)))
      (lastKey "Space" evs (Keys.space (World.keys w))) /\
  World.mouseLeft w' = lastButton evs (World.mouseLeft w).
Proof.
  revert w. induction evs as [|e evs IH]; intros w; simpl.
  - intros [= <-]. destruct (World.keys w); auto.
  - destruct (dispatch e w) as [w1|] eqn:Hd; simpl; [|discriminate].
    intros Hrun. destruct (IH w1 Hrun) as [Hk Hm].
    destruct (dispatch_keys e w w1 Hd) as [Hk1 Hm1].
    rewrite Hk, Hm, Hk1, Hm1. unfold lastKey, lastButton. simpl.
    split; reflexivity.
Qed.

Lemma keys_follow_last_event_witness :
  exists w',
    runEvents [KeyDown "KeyW"; KeyDown "Digit3"; MouseDown 0;
               AnimationFrame (idleFrame 0.016); KeyUp "KeyW"; MouseDown 2]
      (World.mk initialState noKeys false) = Some w' /\
    World.keys w' = noKeys /\ World.mouseLeft w' = true.
Proof.
  eexists. split; [vm_compute; reflexivity|].
  refine (keys_follow_last_event
            [KeyDown "KeyW"; KeyDown "Digit3"; MouseDown 0;
             AnimationFrame (idleFrame 0.016); KeyUp "KeyW"; MouseDown 2]
            (World.mk initialState noKeys false) _ _).
  vm_compute. reflexivity.
Defined.

(** ** Assets *)

Lemma settleTextures_sounds (ls : list Load.t) (a : Assets.t) :
  Assets.sounds (settleTextures ls a) = Assets.sounds a.
Proof.
  revert a. induction ls as [|l ls IH]; intros a; simpl; [reflexivity|].
  unfold settleTextures in IH. rewrite IH. reflexivity.
Qed.

Lemma settleSounds_textures (ls : list Load.t) (a : Assets.t) :
  Assets.textures (settleSounds ls a) = Assets.textures a.
Proof.
  revert a. induction ls as [|l ls IH]; intros a; simpl; [reflexivity|].
  unfold settleSounds in IH. rewrite IH. reflexivity.
Qed.

Lemma settleTextures_other (ls : list Load.t) (a : Assets.t) (n : string) :
  n ∉ Load.name <$> ls ->
  Assets.textures (settleTextures ls a) !! n = Assets.textures a !! n.
Proof.
  revert a. induction ls as [|l ls IH]; intros a Hn; simpl; [reflexivity|].
  rewrite fmap_cons, not_elem_of_cons in Hn. destruct Hn as [Hn1 Hn2].
  unfold settleTextures in IH. rewrite IH by exact Hn2. simpl.
  apply lookup_insert_ne. congruence.
Qed.

Lemma settleSounds_other (ls : list Load.t) (a : Assets.t) (n : string) :
  n ∉ Load.name <$> ls ->
  Assets.sounds (settleSounds ls a) !! n = Assets.sounds a !! n.
Proof.
  revert a. induction ls as [|l ls IH]; intros a Hn; simpl; [reflexivity|].
  rewrite fmap_cons, not_elem_of_cons in Hn. destruct Hn as [Hn1 Hn2].
  unfold settleSounds in IH. rewrite IH by exact Hn2. simpl.
  apply lookup_insert_ne. congruence.
Qed.

Lemma settleTextures_lookup (ls : list Load.t) (a : Assets.t) (l : Load.t) :
  NoDup (Load.name <$> ls) -> l ∈ ls ->
  Assets.textures (settleTextures ls a) !! Load.name l
  = Some (if Load.ok l then Assets.Image (Load.path l) else Assets.RedSquare).
Proof.
  revert a. induction ls as [|l0 ls IH]; intros a Hnd Hin.
  - apply elem_of_nil in Hin. destruct Hin.
  - rewrite fmap_cons, NoDup_cons in Hnd. destruct Hnd as [Hn Hnd].
    apply elem_of_cons in Hin as [->|Hin].
    + change (settleTextures (l0 :: ls) a)
        with (settleTextures ls
                (loadTexture (Load.name l0) (Load.path l0) (Load.ok l0) a)).
      rewrite settleTextures_other by exact Hn. simpl.
      apply lookup_insert_eq.
    + apply (IH _ Hnd Hin).
Qed.

Lemma settleSounds_lookup (ls : list Load.t) (a : Assets.t) (l : Load.t) :
  NoDup (Load.name <$> ls) -> l ∈ ls ->
  Assets.sounds (settleSounds ls a) !! Load.name l
  = Some (if Load.ok l then Some (Load.path l) else None).
Proof.
  revert a. induction ls as [|l0 ls IH]; intros a Hnd Hin.
  - apply elem_of_nil in Hin. destruct Hin.
  - rewrite fmap_cons, NoDup_cons in Hnd. destruct Hnd as [Hn Hnd].
    apply elem_of_cons in Hin as [->|Hin].
    + change (settleSounds (l0 :: ls) a)
        with (settleSounds ls
                (loadSound (Load.name l0) (Load.path l0) (Load.ok l0) a)).
      rewrite settleSounds_other by exact Hn. simpl.
      apply lookup_insert_eq.
    + apply (IH _ Hnd Hin).
Qed.

Lemma answers_names (reqs : list (string * string)) (ls : list Load.t) :
  answers reqs ls -> Load.name <$> ls ≡ₚ reqs.*1.
Proof.
  intros H. unfold answers in H. rewrite <- H, <- list_fmap_compose.
  reflexivity.
Qed.

Lemma textureRequests_NoDup : NoDup textureRequests.*1.
Proof. apply (bool_decide_unpack _). vm_compute. exact I. Qed.

Lemma soundRequests_NoDup : NoDup soundRequests.*1.
Proof. apply (bool_decide_unpack _). vm_compute. exact I. Qed.

(** X4.  The asset tables do not depend on the order in which the loads
    settle, as long as no two loads share a name. *)
Theorem settlement_order_is_irrelevant (ls ls' : list Load.t) (a : Assets.t) :
  NoDup (Load.name <$> ls) -> ls ≡ₚ ls' ->
  settleTextures ls a = settleTextures ls' a /\
  settleSounds ls a = settleSounds ls' a.
Proof.
  intros Hnd Hp. revert a Hnd.
  induction Hp as [|l ls ls' Hp IH|l1 l2 ls|ls ls' ls'' Hp1 IH1 Hp2 IH2];
    intros a Hnd.
  - auto.
  - rewrite fmap_cons, NoDup_cons in Hnd. destruct Hnd as [_ Hnd].
    simpl. split; [apply (IH _ Hnd)|apply (IH _ Hnd)].
  - rewrite !fmap_cons, !NoDup_cons, not_elem_of_cons in Hnd.
    destruct Hnd as ((Hne & _) & _ & _). simpl.
    split; f_equal; unfold loadTexture, loadSound; simpl; f_equal;
      apply insert_insert_ne; congruence.
  - destruct (IH1 a Hnd) as [-> ->]. apply IH2.
    rewrite <- Hp1. exact Hnd.
Qed.

Lemma settlement_order_is_irrelevant_witness :
  settleSounds
    [Load.mk "die" "assets/sfx/enemy_die.mp3" false;
     Load.mk "alert" "assets/sfx/enemy_alert.mp3" true] Assets.empty
  = settleSounds
      [Load.mk "alert" "assets/sfx/enemy_alert.mp3" true;
       Load.mk "die" "assets/sfx/enemy_die.mp3" false] Assets.empty.
Proof.
  refine (proj2 (settlement_order_is_irrelevant _ _ Assets.empty _ _)).
  - apply (bool_decide_unpack _). vm_compute. exact I.
  - apply Permutation_swap.
Defined.

(** X5.  When [init] goes on, every name it requested is bound, whatever
    the order and the outcome of the loads: a texture to its image, or to
    the red square when the image failed; a sound to its buffer, or to
    [null] when it failed.  No other name is bound. *)
Theorem init_binds_every_asset (ts ss : list Load.t) :
  answers textureRequests ts -> answers soundRequests ss ->
  (forall l, l ∈ ts ->
     Assets.textures (initAssets ts ss) !! Load.name l
     = Some (if Load.ok l then Assets.Image (Load.path l)
             else Assets.RedSquare)) /\
  (forall l, l ∈ ss ->
     Assets.sounds (initAssets ts ss) !! Load.name l
     = Some (if Load.ok l then Some (Load.path l) else None)) /\
  (forall n, is_Some (Assets.textures (initAssets ts ss) !! n)
             <-> n ∈ textureRequests.*1) /\
  (forall n, is_Some (Assets.sounds (initAssets ts ss) !! n)
             <-> n ∈ soundRequests.*1).
Proof.
  intros Ht Hs. apply answers_names in Ht, Hs.
  assert (Hnt : NoDup (Load.name <$> ts))
    by (rewrite Ht; apply textureRequests_NoDup).
  assert (Hns : NoDup (Load.name <$> ss))
    by (rewrite Hs; apply soundRequests_NoDup).
  unfold initAssets. repeat split.
  - intros l Hl. rewrite settleSounds_textures.
    apply settleTextures_lookup; assumption.
  - intros l Hl. apply settleSounds_lookup; assumption.
  - rewrite settleSounds_textures, <- Ht. intros [x Hx].
    destruct (decide (n ∈ Load.name <$> ts)) as [Hin|Hout]; [exact Hin|].
    rewrite settleTextures_other in Hx by exact Hout. simpl in Hx.
    rewrite lookup_empty in Hx. discriminate.
  - rewrite settleSounds_textures, <- Ht. intros Hin.
    apply list_elem_of_fmap in Hin as (l & -> & Hl).
    rewrite settleTextures_lookup by assumption. eauto.
  - rewrite <- Hs. intros [x Hx].
    destruct (decide (n ∈ Load.name <$> ss)) as [Hin|Hout]; [exact Hin|].
    rewrite settleSounds_other, settleTextures_sounds in Hx by exact Hout.
    simpl in Hx. rewrite lookup_empty in Hx. discriminate.
  - rewrite <- Hs. intros Hin.
    apply list_elem_of_fmap in Hin as (l & -> & Hl).
    rewrite settleSounds_lookup by assumption. eauto.
Qed.

Lemma init_binds_every_asset_witness :
  Assets.textures
    (initAssets
       [Load.mk "wall_secret" "assets/textures/wall_secret.png" true;
        Load.mk "wall" "assets/textures/wall.png" false;
        Load.mk "floor" "assets/textures/floor.png" true;
        Load.mk "enemy_idle" "assets/images/sprites/enemy_idle.png" true;
        Load.mk "enemy_chase" "assets/images/sprites/enemy_chase.png" true]
       ((fun r => Load.mk r.1 r.2 true) <$> soundRequests)) !! "wall"
  = Some Assets.RedSquare.
Proof.
  refine (proj1 (init_binds_every_asset _ _ _ _)
            (Load.mk "wall" "assets/textures/wall.png" false) _).
  - apply Permutation_swap.
  - unfold answers. simpl. reflexivity.
  - apply list_elem_of_In. simpl. auto.
Defined.

(** ** The calls of a frame *)

Section Traces.
Variable P : Call -> Prop.
Hypothesis P_lookAt : forall m x y z, P (LookAt m x y z).
Hypothesis P_chase : forall m, P (SetMap m "enemy_chase").
Hypothesis P_alert : P (PlaySound "alert").
Hypothesis P_color : forall m c, P (SetColor m c).
Hypothesis P_die : P (PlaySound "die").
Hypothesis P_remove : forall m, P (SceneRemove m).
Hypothesis P_exit : P ExitPointerLock.

Lemma damageEnemy_calls (enemy : Enemy.t) (damage : Z) (st : State) :
  Forall P (_damageEnemy enemy damage st).2.
Proof.
  rewrite damageEnemy_trace. destruct (Z.leb _ _); repeat constructor; auto.
Qed.

Lemma enemyLoop_calls (dt : float) (playerPos : Vec3.t) (es : list Enemy.t)
    (playerHp : float) :
  Forall P (enemyLoop dt playerPos es playerHp).2.
Proof.
  revert playerHp. induction es as [|e es IH]; intros playerHp; simpl;
    [constructor|].
  assert (H1 : Forall P (updateEnemy dt playerPos e playerHp).2).
  { unfold updateEnemy. destruct (Z.leb _ _); simpl; [constructor|].
    destruct (_ <? 25)%float; simpl; [|repeat constructor; auto].
    destruct (Enemy.state e); simpl; destruct (_ <? _)%float; simpl;
      repeat constructor; auto. }
  destruct (updateEnemy dt playerPos e playerHp) as [[e' hp1] tr1].
  specialize (IH hp1).
  destruct (enemyLoop dt playerPos es hp1) as [[es' hp2] tr2]. simpl in *.
  apply Forall_app. auto.
Qed.

Lemma projectileLoop_calls (dt : float) (n : nat) (st : State) :
  Forall P (projectileLoop dt n st).2.
Proof.
  revert st. induction n as [|n IH]; intros st; simpl; [constructor|].
  assert (H1 : Forall P (projectileBody dt n st).2).
  { unfold projectileBody.
    destruct (projectiles st !! n) as [p|]; simpl; [|constructor].
    set (st1 := set_projectiles _ st).
    destruct (List.find _ _) as [enemy|].
    - pose proof (damageEnemy_calls enemy
                    (Projectile.damage (advance dt p)) st1) as Hk.
      destruct (_damageEnemy _ _ st1) as [s t]. simpl in *.
      apply Forall_app. split; [exact Hk|repeat constructor; auto].
    - simpl. destruct (_ <=? 0)%float; simpl; repeat constructor; auto. }
  destruct (projectileBody dt n st) as [s1 t1]. specialize (IH s1).
  destruct (projectileLoop dt n s1) as [s2 t2]. simpl in *.
  apply Forall_app. auto.
Qed.

(** The calls of the phases that run whether or not the pointer is
    locked. *)
Lemma unlocked_calls (inp : Input) (st1 st2 st' : State)
    (tr2 tr3 tr4 : list Call) (hud : Hud.t) :
  _updateEnemies (dt inp) st1 = (st2, tr2) ->
  _updateProjectiles (dt inp) st2 = (st', tr3) ->
  _updateHUD st' = Some (hud, tr4) ->
  Forall P (tr2 ++ tr3 ++ tr4).
Proof.
  intros H2 H3 H4. rewrite !Forall_app. repeat split.
  - unfold _updateEnemies in H2.
    pose proof (enemyLoop_calls (dt inp) (cameraPos st1) (enemies st1)
                  (Player.hp (player st1))) as Hk.
    destruct (enemyLoop _ _ _ _) as [[es h] t]. injection H2 as _ <-.
    exact Hk.
  - unfold _updateProjectiles in H3.
    pose proof (projectileLoop_calls (dt inp) (length (projectiles st2)) st2)
      as Hk.
    rewrite H3 in Hk. exact Hk.
  - unfold _updateHUD in H4.
    destruct (WEAPONS _); simpl in H4; [|discriminate].
    injection H4 as _ <-. destruct (_ <=? 0)%float; repeat constructor; auto.
Qed.

Hypothesis P_cue : forall name, name ∈ sfxMap -> P (PlaySound name).
Hypothesis P_query : forall objects, P (IntersectObjects objects).
Hypothesis P_add : forall m, P (SceneAdd m).

Lemma handleShooting_calls (inp : Input) (st st' : State) (tr : list Call) :
  _handleShooting inp st = Some (st', tr) -> Forall P tr.
Proof.
  intros H. apply handleShooting_cases in H
    as [(_ & -> & _)|(weapon & tr' & _ & Hw & _ & Hf & ->)]; [constructor|].
  apply Forall_app. split.
  - destruct (sfxMap !! _) as [name|] eqn:Hn; simpl; [|constructor].
    repeat constructor. apply P_cue. eapply list_elem_of_lookup_2, Hn.
  - set (st1 := set_player _ st) in Hf. destruct (isHitscan _).
    + unfold _fireHitscan in Hf.
      destruct (enemyHits inp) as [|hit rest];
        [injection Hf as _ <-; repeat constructor; auto|].
      destruct (_ <=? _)%float;
        [|injection Hf as _ <-; repeat constructor; auto].
      destruct (List.find _ _) as [enemy|];
        [|injection Hf as _ <-; repeat constructor; auto].
      pose proof (damageEnemy_calls enemy (Weapon.damage weapon) st1) as Hk.
      destruct (_damageEnemy _ _ st1) as [s t]. injection Hf as _ <-.
      constructor; auto.
    + injection Hf as _ <-. repeat constructor; auto.
Qed.

Lemma gameLoop_calls (inp : Input) (st st' : State) (tr : list Call)
    (hud : Hud.t) :
  _gameLoop inp st = Some (st', tr, hud) -> Forall P tr.
Proof.
  intros Hg. apply gameLoop_phases in Hg
    as (st1 & tr1 & st2 & tr2 & tr3 & tr4 & H1 & H2 & H3 & H4 & ->).
  apply Forall_app. split; [|eapply unlocked_calls; eauto].
  destruct H1 as [(_ & stS & trS & trE & Hs & He & ->)|(_ & _ & ->)];
    [|constructor].
  apply Forall_app. split; [eapply handleShooting_calls, Hs|].
  unfold _handleEnvironment in He.
  destruct (levelHits inp) as [|hit rest];
    [|destruct (_ <? 4)%float]; injection He as _ <-;
    repeat constructor; auto.
Qed.
End Traces.

Ltac names := apply list_elem_of_In; simpl; solve [auto 10].

(** X7.  Every cue a frame plays and every texture it puts on a sprite is
    one of the names [init] requests, so that [playSound] and the sprite
    materials never meet a name the tables do not bind. *)
Theorem frames_name_requested_assets (inp : Input) (st st' : State)
    (tr : list Call) (hud : Hud.t) :
  _gameLoop inp st = Some (st', tr, hud) -> Forall knownCall tr.
Proof.
  apply gameLoop_calls; simpl; try (intros; exact I);
    try (intros; names).
  intros name Hn. apply list_elem_of_In in Hn. simpl in Hn.
  destruct Hn as [<-|[<-|[<-|[<-|[]]]]]; names.
Qed.

Lemma frames_name_requested_assets_witness :
  exists st' tr hud,
    _gameLoop (fireFrame 1500 [Hit.mk 2 6])
      (set_cameraPos (Vec3.mk 0 2.5 (-18)) (switchWeapon 1 initialState))
    = Some (st', tr, hud) /\
    PlaySound "die" ∈ tr /\ Forall knownCall tr.
Proof.
  eexists _, _, _. split; [vm_compute; reflexivity|].
  split; [names|].
  refine (frames_name_requested_assets (fireFrame 1500 [Hit.mk 2 6])
            (set_cameraPos (Vec3.mk 0 2.5 (-18)) (switchWeapon 1 initialState))
            _ _ _ _).
  vm_compute. reflexivity.
Defined.

(** X6.  [playSound] on the tables [init] leaves: a requested cue is
    played, at half volume, when its load succeeded, and is silently
    dropped when it failed.  A name that was never requested is silently
    dropped too, unless it is one of the names every object inherits
    ([constructor], [toString], ...): for those the guard passes and
    [play] throws.  No frame asks for such a name, so no frame makes
    [playSound] throw. *)
Theorem playSound_plays_what_was_loaded (ts ss : list Load.t) :
  answers soundRequests ss ->
  (forall l, l ∈ ss ->
     playSound (Load.name l) (initAssets ts ss)
     = Some (if Load.ok l then [Audio.mk (Load.path l) 0.5] else [])) /\
  (forall n, n ∉ soundRequests.*1 ->
     playSound n (initAssets ts ss)
     = if bool_decide (n ∈ objectPrototype) then None else Some []) /\
  (forall inp st st' tr hud name,
     _gameLoop inp st = Some (st', tr, hud) -> PlaySound name ∈ tr ->
     is_Some (playSound name (initAssets ts ss))).
Proof.
  intros Hs. apply answers_names in Hs.
  assert (Hns : NoDup (Load.name <$> ss))
    by (rewrite Hs; apply soundRequests_NoDup).
  assert (H1 : forall l, l ∈ ss ->
            playSound (Load.name l) (initAssets ts ss)
            = Some (if Load.ok l then [Audio.mk (Load.path l) 0.5] else [])).
  { intros l Hl. unfold playSound, initAssets.
    rewrite settleSounds_lookup by assumption.
    destruct (Load.ok l); reflexivity. }
  split; [exact H1|]. split.
  - intros n Hn. rewrite <- Hs in Hn. unfold playSound, initAssets.
    rewrite settleSounds_other, settleTextures_sounds by exact Hn.
    simpl. rewrite lookup_empty. reflexivity.
  - intros inp st st' tr hud name Hg Hin.
    assert (Hk : Forall knownCall tr).
    { revert Hg. apply gameLoop_calls; simpl; try (intros; exact I);
        try (intros; names).
      intros n Hn. apply list_elem_of_In in Hn. simpl in Hn.
      destruct Hn as [<-|[<-|[<-|[<-|[]]]]]; names. }
    rewrite Forall_forall in Hk. specialize (Hk _ Hin). simpl in Hk.
    rewrite <- Hs in Hk. apply list_elem_of_fmap in Hk as (l & -> & Hl).
    rewrite (H1 l Hl). eauto.
Qed.

Lemma playSound_plays_what_was_loaded_witness :
  playSound "die"
    (initAssets ((fun r => Load.mk r.1 r.2 true) <$> textureRequests)
       ((fun r => Load.mk r.1 r.2 (negb (String.eqb r.1 "die")))
          <$> soundRequests))
  = Some [] /\
  playSound "toString"
    (initAssets ((fun r => Load.mk r.1 r.2 true) <$> textureRequests)
       ((fun r => Load.mk r.1 r.2 (negb (String.eqb r.1 "die")))
          <$> soundRequests))
  = None.
Proof.
  destruct (playSound_plays_what_was_loaded
              ((fun r => Load.mk r.1 r.2 true) <$> textureRequests)
              ((fun r => Load.mk r.1 r.2 (negb (String.eqb r.1 "die")))
                 <$> soundRequests)) as (H1 & H2 & _).
  - unfold answers. simpl. reflexivity.
  - split.
    + apply (H1 (Load.mk "die" "assets/sfx/enemy_die.mp3" false)).
      apply list_elem_of_In. simpl. auto 10.
    + apply (H2 "toString"). intros Hin. apply list_elem_of_In in Hin.
      simpl in Hin. intuition discriminate.
Defined.

(** ** Frames with and without pointer lock *)

Lemma projectileBody_projectiles (dt : float) (i : nat) (st : State) :
  projectiles (projectileBody dt i st).1 = projectiles st \/
  exists p,
    projectiles st !! i = Some p /\
    (projectiles (projectileBody dt i st).1 = delete i (projectiles st) \/
     projectiles (projectileBody dt i st).1
     = <[i:=advance dt p]> (projectiles st)).
Proof.
  unfold projectileBody.
  destruct (projectiles st !! i) as [p|] eqn:Hp; simpl; [|auto].
  right. exists p. split; [reflexivity|].
  set (st1 := set_projectiles _ st).
  destruct (List.find _ _) as [enemy|].
  - destruct (damageEnemy_frame enemy (Projectile.damage (advance dt p)) st1)
      as [[es He] _].
    destruct (_damageEnemy _ _ st1) as [s t]. simpl in *. subst s. simpl.
    left. apply delete_insert_same.
  - simpl. destruct (_ <=? 0)%float; simpl; [left|right; reflexivity].
    apply delete_insert_same.
Qed.

Section Projectiles.
Variable Q : Projectile.t -> Prop.
Hypothesis Q_advance : forall dt p, Q p -> Q (advance dt p).

Lemma projectileLoop_projectiles (dt : float) (n : nat) (st : State) :
  length (projectiles (projectileLoop dt n st).1) <= length (projectiles st) /\
  (Forall Q (projectiles st) ->
   Forall Q (projectiles (projectileLoop dt n st).1)).
Proof.
  revert st. induction n as [|n IH]; intros st; simpl; [auto|].
  assert (H1 : length (projectiles (projectileBody dt n st).1)
               <= length (projectiles st) /\
               (Forall Q (projectiles st) ->
                Forall Q (projectiles (projectileBody dt n st).1))).
  { destruct (projectileBody_projectiles dt n st)
      as [->|(p & Hp & [-> | ->])]; [auto| |].
    - rewrite length_delete by eauto. split; [lia|]. apply Forall_delete.
    - rewrite length_insert. split; [lia|]. intros HQ.
      apply Forall_insert; [exact HQ|]. apply Q_advance.
      rewrite Forall_forall in HQ. eapply HQ, list_elem_of_lookup_2, Hp. }
  destruct (projectileBody dt n st) as [s1 t1]. specialize (IH s1).
  destruct (projectileLoop dt n s1) as [s2 t2]. simpl in *.
  destruct H1 as [Ha Hb], IH as [Hc Hd]. split; [lia|auto].
Qed.
End Projectiles.

Lemma updateProjectiles_length (dt : float) (st : State) :
  length (projectiles (_updateProjectiles dt st).1) <= length (projectiles st).
Proof.
  apply (projectileLoop_projectiles (fun _ => True)). auto.
Qed.

Lemma updateEnemies_projectiles (dt : float) (st : State) :
  projectiles (_updateEnemies dt st).1 = projectiles st.
Proof. destruct (updateEnemies_frame dt st) as [es ->]. reflexivity. Qed.

(** X9.  The time of the last shot is written by an honoured fire request
    and by nothing else in a frame: it becomes [now] when the pointer is
    locked, the button is held and more than the delay of the weapon in
    hand has passed, and is kept otherwise.  A frame adds at most one
    projectile, and only on such a request with a weapon that is not
    hitscan. *)
Theorem fire_rate_of_a_frame (inp : Input) (st st' : State)
    (tr : list Call) (hud : Hud.t) :
  _gameLoop inp st = Some (st', tr, hud) ->
  exists weapon,
    WEAPONS (Player.currentWeaponIdx (player st)) = Some weapon /\
    Player.lastFireTime (player st')
    = (if fires inp st weapon then now inp
       else Player.lastFireTime (player st)) /\
    length (projectiles st')
    <= length (projectiles st)
       + (if fires inp st weapon && negb (isHitscan (Weapon.type weapon))
          then 1 else 0).
Proof.
  intros Hg.
  destruct (WEAPONS (Player.currentWeaponIdx (player st))) as [weapon|] eqn:Hw.
  2:{ apply gameLoop_slot in Hg as [_ [weapon Hs]]. congruence. }
  exists weapon. split; [reflexivity|].
  pose proof Hg as Hp.
  apply gameLoop_fields in Hg as (st1 & H1 & Hpl & _).
  apply gameLoop_phases in Hp
    as (st1' & tr1 & st2 & tr2 & tr3 & tr4 & H1' & H2 & H3 & _ & _).
  pose proof (updateProjectiles_length (dt inp) st2) as Hlen.
  rewrite H3 in Hlen. simpl in Hlen.
  pose proof (updateEnemies_projectiles (dt inp) st1') as He.
  rewrite H2 in He. simpl in He. rewrite He in Hlen. clear H2 H3 He.
  rewrite Hpl. simpl. unfold fires.
  destruct H1' as [(Hl & stS & trS & trE & Hs & HE & _)|(Hl & -> & _)].
  2:{ destruct H1 as [(Hl' & _)|(_ & ->)]; [congruence|].
      rewrite Hl. simpl. split; [reflexivity|lia]. }
  destruct H1 as [(_ & stS' & trS' & Hs' & ->)|(Hl' & _)]; [|congruence].
  rewrite Hs in Hs'. injection Hs' as <- <-.
  assert (HE1 : st1' = (_handleEnvironment inp stS).1) by (rewrite HE; auto).
  destruct (handleEnvironment_frame inp stS) as [g Hg1].
  rewrite Hg1 in HE1 |- *. subst st1'. simpl in *. rewrite Hl. simpl.
  destruct (handleMovement_frame inp st) as (v & j & c & Hm).
  rewrite Hm in Hs. clear Hm.
  apply handleShooting_cases in Hs
    as [(-> & _ & Hno)|(w' & tr' & Hmouse & Hw' & Hd & Hf & _)]; simpl in *.
  - destruct Hno as [->|(w' & Hw' & Hd)]; simpl; [split; [auto|lia]|].
    rewrite Hw in Hw'. injection Hw' as <-. rewrite Hd, andb_false_r.
    simpl. split; [reflexivity|lia].
  - rewrite Hw in Hw'. injection Hw' as <-. rewrite Hmouse, Hd. simpl.
    match type of Hf with _ ?s = _ => set (st1 := s) in Hf end.
    destruct (isHitscan _); simpl.
    + destruct (fireHitscan_frame weapon inp st1) as [[es Hes] _].
      rewrite Hf in Hes. simpl in Hes. subst stS. simpl in *.
      split; [reflexivity|lia].
    + injection Hf as <- _. simpl in *. rewrite length_app in Hlen.
      simpl in Hlen. split; [reflexivity|lia].
Qed.

Lemma fire_rate_of_a_frame_witness :
  exists st' tr hud,
    _gameLoop (fireFrame 1100 []) armedState = Some (st', tr, hud) /\
    exists weapon,
      WEAPONS (Player.currentWeaponIdx (player armedState)) = Some weapon /\
      Player.lastFireTime (player st')
      = (if fires (fireFrame 1100 []) armedState weapon then 1100%Z
         else Player.lastFireTime (player armedState)) /\
      length (projectiles st')
      <= length (projectiles armedState)
         + (if fires (fireFrame 1100 []) armedState weapon
               && negb (isHitscan (Weapon.type weapon))
            then 1 else 0).
Proof.
  eexists _, _, _. split; [vm_compute; reflexivity|].
  refine (fire_rate_of_a_frame (fireFrame 1100 []) armedState _ _ _ _).
  vm_compute. reflexivity.
Defined.

(** ** The floor *)

Lemma handleMovement_floor (inp : Input) (st : State) :
  (Vec3.y (cameraPos (_handleMovement inp st)) <? 2.5)%float = false.
Proof.
  unfold _handleMovement. cbv zeta.
  match goal with |- context [if ?c then set_cameraPos _ _ else _] =>
    destruct c eqn:Hy
  end; simpl; [reflexivity|exact Hy].
Qed.

Lemma gameLoop_camera (inp : Input) (st st' : State) (tr : list Call)
    (hud : Hud.t) :
  _gameLoop inp st = Some (st', tr, hud) ->
  cameraPos st'
  = if isLocked inp then cameraPos (_handleMovement inp st) else cameraPos st.
Proof.
  intros Hg. apply gameLoop_fields in Hg as (st1 & H1 & _ & -> & _).
  destruct H1 as [(-> & stS & trS & Hs & ->)|(-> & ->)]; [|reflexivity].
  destruct (handleEnvironment_frame inp stS) as [g ->]. simpl.
  apply handleShooting_player in Hs as [-> _]. reflexivity.
Qed.

(** X10.  The camera is below eye height only where the constructor left
    it: at the origin, until the first frame under pointer lock.  From
    then on no frame, whatever its clock delta and its keys, leaves it
    below 2.5. *)
Theorem camera_never_sinks_below_eye_height (st : State) :
  Reachable st ->
  cameraPos st = Vec3.zero \/ (Vec3.y (cameraPos st) <? 2.5)%float = false.
Proof.
  intros Hr. unfold Reachable in Hr. remember initialState as s0 eqn:Hs0.
  induction Hr as [s|s s' s'' _ IH Hstep]; subst s.
  - left. reflexivity.
  - specialize (IH eq_refl).
    destruct Hstep as [inp s s' tr hud Hg|detail s Hd]; [|exact IH].
    rewrite (gameLoop_camera _ _ _ _ _ Hg).
    destruct (isLocked inp); [right; apply handleMovement_floor|exact IH].
Qed.

Lemma camera_never_sinks_below_eye_height_witness :
  Reachable armedState /\
  (cameraPos armedState = Vec3.zero \/
   (Vec3.y (cameraPos armedState) <? 2.5)%float = false).
Proof.
  split; [exact armedState_Reachable|].
  apply (camera_never_sinks_below_eye_height _ armedState_Reachable).
Defined.

(** ** What a frame does to enemies and projectiles *)

Lemma fireHitscan_cases (weapon : Weapon.t) (inp : Input) (st : State) :
  NoDup (Enemy.mesh <$> enemies st) ->
  _fireHitscan weapon inp st
  = (st, [IntersectObjects (Enemy.mesh <$> enemies st)]) \/
  exists l1 enemy l2,
    enemies st = l1 ++ enemy :: l2 /\
    _fireHitscan weapon inp st
    = (set_enemies (afterDamage enemy (Weapon.damage weapon) l1 l2) st,
       IntersectObjects (Enemy.mesh <$> enemies st)
         :: (_damageEnemy enemy (Weapon.damage weapon) st).2).
Proof.
  intros Hnd. unfold _fireHitscan.
  destruct (enemyHits inp) as [|hit rest]; [auto|].
  destruct (_ <=? _)%float; [|auto].
  destruct (List.find _ _) as [enemy|] eqn:Hf; [|auto].
  right. apply find_split in Hf as (l1 & l2 & Hes & _ & _).
  exists l1, enemy, l2. split; [exact Hes|].
  pose proof (damageEnemy_eq enemy (Weapon.damage weapon) st l1 l2 Hes Hnd)
    as E.
  destruct (_damageEnemy enemy (Weapon.damage weapon) st) as [s t].
  simpl in *. subst s. reflexivity.
Qed.

Lemma projectileBody_full (dt : float) (i : nat) (st : State) :
  NoDup (Enemy.mesh <$> enemies st) ->
  projectileBody dt i st = (st, []) \/
  (exists p l1 enemy l2,
      projectiles st !! i = Some p /\ enemies st = l1 ++ enemy :: l2 /\
      projectileBody dt i st
      = (set_projectiles (delete i (projectiles st))
           (set_enemies (afterDamage enemy (Projectile.damage p) l1 l2) st),
         (_damageEnemy enemy (Projectile.damage p) st).2
           ++ [SceneRemove (Projectile.mesh p)])) \/
  (exists p ps tr,
      projectiles st !! i = Some p /\
      projectileBody dt i st = (set_projectiles ps st, tr) /\
      (tr = [] \/ tr = [SceneRemove (Projectile.mesh p)])).
Proof.
  intros Hnd. destruct (projectiles st !! i) as [p|] eqn:Hp.
  - right. destruct (List.find (near (advance dt p)) (enemies st))
      as [enemy|] eqn:Hf.
    + left. apply find_split in Hf as (l1 & l2 & Hes & Hn & H1).
      exists p, l1, enemy, l2. split; [reflexivity|]. split; [exact Hes|].
      apply projectileBody_hit; auto.
    + right. apply find_none_Forall in Hf.
      rewrite (projectileBody_miss dt i st p Hp Hf).
      exists p. destruct (_ <=? 0)%float; eexists _, _; eauto.
  - left. unfold projectileBody. rewrite Hp. reflexivity.
Qed.

Section Enemies.
Variable R : Enemy.t -> Prop.
Hypothesis R_hp : forall h e, R e -> R (Enemy.set_hp h e).
Hypothesis R_update :
  forall dt playerPos e playerHp,
    R e -> R (updateEnemy dt playerPos e playerHp).1.1.

Lemma afterDamage_all (enemy : Enemy.t) (damage : Z) (l1 l2 : list Enemy.t) :
  Forall R (l1 ++ enemy :: l2) -> Forall R (afterDamage enemy damage l1 l2).
Proof.
  rewrite Forall_app, Forall_cons. intros (H1 & He & H2). unfold afterDamage.
  destruct (Z.leb _ _); rewrite Forall_app; [auto|].
  rewrite Forall_cons. auto.
Qed.

Lemma handleShooting_all (inp : Input) (st st' : State) (tr : list Call) :
  Inv st -> Forall R (enemies st) ->
  _handleShooting inp st = Some (st', tr) -> Forall R (enemies st').
Proof.
  intros HI HR H. apply handleShooting_cases in H
    as [(-> & _ & _)|(weapon & tr' & _ & _ & _ & Hf & _)]; [exact HR|].
  set (st1 := set_player _ st) in Hf. destruct (isHitscan _).
  - destruct (fireHitscan_cases weapon inp st1 (inv_nodup _ HI))
      as [H|(l1 & enemy & l2 & Hes & H)];
      rewrite H in Hf; injection Hf as <- _; [exact HR|].
    simpl. apply afterDamage_all. simpl in Hes. rewrite <- Hes. exact HR.
  - injection Hf as <- _. exact HR.
Qed.

Lemma enemyLoop_all (dt : float) (playerPos : Vec3.t) (es : list Enemy.t)
    (playerHp : float) :
  Forall R es -> Forall R (enemyLoop dt playerPos es playerHp).1.1.
Proof.
  revert playerHp. induction es as [|e es IH]; intros playerHp; simpl;
    [auto|].
  rewrite Forall_cons. intros [He Hes].
  pose proof (R_update dt playerPos e playerHp He) as H1.
  destruct (updateEnemy dt playerPos e playerHp) as [[e' hp1] tr1].
  specialize (IH hp1 Hes).
  destruct (enemyLoop dt playerPos es hp1) as [[es' hp2] tr2]. simpl in *.
  apply Forall_cons. auto.
Qed.

Lemma projectileLoop_all (dt : float) (n : nat) (st : State) :
  Inv st -> Forall R (enemies st) ->
  Forall R (enemies (projectileLoop dt n st).1).
Proof.
  revert st. induction n as [|n IH]; intros st HI HR; simpl; [exact HR|].
  destruct (Inv_projectileBody dt n st HI) as [HI1 _].
  assert (H1 : Forall R (enemies (projectileBody dt n st).1)).
  { destruct (projectileBody_full dt n st (inv_nodup _ HI))
      as [->|[(p & l1 & e & l2 & _ & Hes & ->)|(p & ps & tr & _ & -> & _)]];
      simpl; auto.
    apply afterDamage_all. rewrite <- Hes. exact HR. }
  destruct (projectileBody dt n st) as [s1 t1]. simpl in *.
  specialize (IH s1 HI1 H1).
  destruct (projectileLoop dt n s1) as [s2 t2]. exact IH.
Qed.

Lemma gameLoop_all (inp : Input) (st st' : State) (tr : list Call)
    (hud : Hud.t) :
  Inv st -> Forall R (enemies st) ->
  _gameLoop inp st = Some (st', tr, hud) -> Forall R (enemies st').
Proof.
  intros HI HR Hg. apply gameLoop_phases in Hg
    as (st1 & tr1 & st2 & tr2 & tr3 & tr4 & H1 & H2 & H3 & _ & _).
  assert (H : Inv st1 /\ Forall R (enemies st1)).
  { destruct H1 as [(_ & stS & trS & trE & Hs & He & _)|(_ & -> & _)];
      [|auto].
    pose proof (Inv_handleMovement inp st HI) as HIm.
    destruct (Inv_handleShooting _ _ _ _ HIm Hs) as [HIs _].
    destruct (Inv_handleEnvironment inp stS HIs) as [HIe Hee].
    rewrite He in HIe, Hee. simpl in *. split; [exact HIe|]. rewrite Hee.
    eapply handleShooting_all; [exact HIm| |exact Hs].
    rewrite handleMovement_enemies. exact HR. }
  destruct H as [HI1 HR1].
  destruct (Inv_updateEnemies (dt inp) st1 HI1) as [HI2 _].
  assert (HR2 : Forall R (enemies st2)).
  { unfold _updateEnemies in H2.
    pose proof (enemyLoop_all (dt inp) (cameraPos st1) (enemies st1)
                  (Player.hp (player st1)) HR1) as Hk.
    destruct (enemyLoop _ _ _ _) as [[es h] t]. injection H2 as <- _.
    exact Hk. }
  rewrite H2 in HI2. simpl in HI2.
  pose proof (projectileLoop_all (dt inp) (length (projectiles st2)) st2
                HI2 HR2) as Hk.
  unfold _updateProjectiles in H3. rewrite H3 in Hk. exact Hk.
Qed.

Lemma Steps_all (st st' : State) :
  Inv st -> Forall R (enemies st) -> Steps st st' -> Forall R (enemies st').
Proof.
  intros HI HR. induction 1 as [s|s s' s'' Hsteps IH Hstep]; [exact HR|].
  destruct (Inv_Steps _ _ HI Hsteps) as [HI' _]. specialize (IH HI HR).
  inversion Hstep as [inp s1 s2 tr hud Hg|detail s1 Hd]; subst;
    [|exact IH].
  eapply gameLoop_all; [exact HI'|exact IH|exact Hg].
Qed.
End Enemies.

(** ** Frames without pointer lock *)

(** What the callback does to the enemy does not depend on the player's
    hit points; so the pass is the callback applied along the array. *)
Lemma updateEnemy_enemy (dt : float) (playerPos : Vec3.t) (enemy : Enemy.t)
    (h h' : float) :
  (updateEnemy dt playerPos enemy h).1.1
  = (updateEnemy dt playerPos enemy h').1.1.
Proof.
  unfold updateEnemy. destruct (Z.leb _ _); simpl; [reflexivity|].
  destruct (_ <? 25)%float; simpl; [|reflexivity].
  destruct (Enemy.state enemy); simpl; destruct (_ <? _)%float; reflexivity.
Qed.

Lemma enemyLoop_lookup (dt : float) (playerPos : Vec3.t) (es : list Enemy.t)
    (playerHp h : float) (i : nat) (enemy : Enemy.t) :
  es !! i = Some enemy ->
  (enemyLoop dt playerPos es playerHp).1.1 !! i
  = Some (updateEnemy dt playerPos enemy h).1.1.
Proof.
  revert playerHp i. induction es as [|e es IH]; intros playerHp i Hi;
    [discriminate|].
  simpl.
  pose proof (updateEnemy_enemy dt playerPos e playerHp h) as He.
  destruct (updateEnemy dt playerPos e playerHp) as [[e' hp1] tr1].
  specialize (IH hp1).
  destruct (enemyLoop dt playerPos es hp1) as [[es' hp2] tr2]. simpl in *.
  destruct i as [|i]; simpl in *.
  - injection Hi as <-. rewrite He. reflexivity.
  - apply IH, Hi.
Qed.

Lemma updateEnemies_lookup (dt : float) (st : State) (i : nat)
    (enemy : Enemy.t) :
  enemies st !! i = Some enemy ->
  enemies (_updateEnemies dt st).1 !! i
  = Some (updateEnemy dt (cameraPos st) enemy (Player.hp (player st))).1.1.
Proof.
  intros Hi. unfold _updateEnemies.
  pose proof (enemyLoop_lookup dt (cameraPos st) (enemies st)
                (Player.hp (player st)) (Player.hp (player st)) i enemy Hi)
    as H.
  destruct (enemyLoop _ _ _ _) as [[es h] tr]. exact H.
Qed.

(** A projectile above the part of the array still to be swept stays in
    the array. *)
Lemma projectileLoop_stays (dt : float) (n : nat) (st : State) (k : nat)
    (q : Projectile.t) :
  n <= k -> projectiles st !! k = Some q ->
  q ∈ projectiles (projectileLoop dt n st).1.
Proof.
  revert st k. induction n as [|n IH]; intros st k Hk Hq; simpl.
  - eapply list_elem_of_lookup_2, Hq.
  - assert (H1 : exists k', n <= k' /\
                   projectiles (projectileBody dt n st).1 !! k' = Some q).
    { destruct (projectileBody_projectiles dt n st)
        as [->|(p & Hp & [-> | ->])].
      - exists k. split; [lia|exact Hq].
      - exists (k - 1). split; [lia|].
        rewrite list_lookup_delete_ge by lia.
        replace (S (k - 1)) with k by lia. exact Hq.
      - exists k. split; [lia|].
        rewrite list_lookup_insert_ne by lia. exact Hq. }
    destruct H1 as (k' & Hk' & Hq').
    destruct (projectileBody dt n st) as [s1 t1]. simpl in *.
    specialize (IH s1 k' Hk' Hq').
    destruct (projectileLoop dt n s1) as [s2 t2]. exact IH.
Qed.

(** A projectile that no enemy is near, and that has time left, is in the
    array after the sweep, moved on by one step. *)
Lemma projectileLoop_advances (dt : float) (n : nat) (st : State) (i : nat)
    (p : Projectile.t) :
  i < n -> NoDup (Enemy.mesh <$> enemies st) ->
  projectiles st !! i = Some p ->
  Forall (fun e => near (advance dt p) e = false) (enemies st) ->
  (Projectile.lifetime (advance dt p) <=? 0)%float = false ->
  advance dt p ∈ projectiles (projectileLoop dt n st).1.
Proof.
  intros Hi Hnd Hp Hfar Hlife. revert st Hi Hnd Hp Hfar.
  induction n as [|n IH]; intros st Hi Hnd Hp Hfar; [lia|]. simpl.
  destruct (decide (i = n)) as [->|Hne].
  - rewrite (projectileBody_miss dt n st p Hp Hfar), Hlife.
    pose proof (projectileLoop_stays dt n
                  (set_projectiles (<[n:=advance dt p]> (projectiles st)) st)
                  n (advance dt p) (le_n n)) as H.
    destruct (projectileLoop dt n _) as [s2 t2]. apply H. simpl.
    apply list_lookup_insert_eq. eapply lookup_lt_Some, Hp.
  - pose proof (projectileBody_NoDup dt n st Hnd) as Hnd1.
    pose proof (projectileBody_below dt n i st Hnd ltac:(lia)) as Hp1.
    assert (Hfar1 : Forall (fun e => near (advance dt p) e = false)
                      (enemies (projectileBody dt n st).1)).
    { destruct (projectileBody_full dt n st Hnd)
        as [->|[(q & l1 & e & l2 & _ & Hes & ->)|(q & ps & tr & _ & -> & _)]];
        simpl; auto.
      apply afterDamage_all; [auto|]. rewrite <- Hes. exact Hfar. }
    destruct (projectileBody dt n st) as [s1 t1]. simpl in *.
    rewrite Hp in Hp1.
    specialize (IH s1 ltac:(lia) Hnd1 Hp1 Hfar1).
    destruct (projectileLoop dt n s1) as [s2 t2]. exact IH.
Qed.

(** X8.  Without pointer lock the player is out of the game but the game
    goes on.  A frame leaves the camera, the level and the player record
    alone except for the hit points, which the enemies in reach still
    drain; it fires no shot, so no cue of a weapon, no ray query and no
    new projectile.  But the enemy pass and the projectile pass run as
    ever: every enemy takes its turn of the callback, seeing, chasing and
    striking the player where the camera stands, and a projectile in
    flight that is near no enemy and has time left is moved on by its
    step. *)
Theorem frame_without_pointer_lock (inp : Input) (st st' : State)
    (tr : list Call) (hud : Hud.t) :
  isLocked inp = false ->
  _gameLoop inp st = Some (st', tr, hud) ->
  cameraPos st' = cameraPos st /\
  levelGeometry st' = levelGeometry st /\
  player st'
  = Player.set_hp (drain (cameraPos st) (enemies st) (Player.hp (player st)))
      (player st) /\
  length (projectiles st') <= length (projectiles st) /\
  Forall (fun c => isShot c = false) tr /\
  exists st2 tr2 tr3 tr4,
    _updateEnemies (dt inp) st = (st2, tr2) /\
    _updateProjectiles (dt inp) st2 = (st', tr3) /\
    _updateHUD st' = Some (hud, tr4) /\
    tr = tr2 ++ tr3 ++ tr4 /\
    (forall i enemy,
       enemies st !! i = Some enemy ->
       enemies st2 !! i
       = Some (updateEnemy (dt inp) (cameraPos st) enemy
                 (Player.hp (player st))).1.1) /\
    projectiles st2 = projectiles st /\
    (forall i p,
       NoDup (Enemy.mesh <$> enemies st) ->
       projectiles st !! i = Some p ->
       Forall (fun e => near (advance (dt inp) p) e = false) (enemies st2) ->
       (Projectile.lifetime (advance (dt inp) p) <=? 0)%float = false ->
       advance (dt inp) p ∈ projectiles st').
Proof.
  intros Hl Hg. pose proof Hg as Hp.
  apply gameLoop_fields in Hg as (st1 & H1 & Hpl & Hc & Hlv & _).
  apply gameLoop_phases in Hp
    as (st1' & tr1 & st2 & tr2 & tr3 & tr4 & H1' & H2 & H3 & H4 & ->).
  destruct H1 as [(Hl' & _)|(_ & ->)]; [congruence|].
  destruct H1' as [(Hl' & _)|(_ & -> & ->)]; [congruence|].
  pose proof (updateEnemies_projectiles (dt inp) st) as He.
  rewrite H2 in He. simpl in He.
  split; [exact Hc|]. split; [exact Hlv|]. split; [exact Hpl|].
  split; [|split].
  - pose proof (updateProjectiles_length (dt inp) st2) as Hlen.
    rewrite H3 in Hlen. simpl in Hlen. rewrite He in Hlen. exact Hlen.
  - simpl. eapply (unlocked_calls (fun c => isShot c = false)); eauto.
  - exists st2, tr2, tr3, tr4. repeat split; auto.
    + intros i enemy Hi.
      pose proof (updateEnemies_lookup (dt inp) st i enemy Hi) as Hk.
      rewrite H2 in Hk. exact Hk.
    + intros i p Hnd Hi Hfar Hlife.
      assert (Hnd2 : NoDup (Enemy.mesh <$> enemies st2)).
      { unfold _updateEnemies in H2.
        pose proof (enemyLoop_keeps (dt inp) (cameraPos st) (enemies st)
                      (Player.hp (player st))) as (_ & Hm & _).
        destruct (enemyLoop _ _ _ _) as [[es h] t]. injection H2 as <- _.
        simpl in *. rewrite Hm. exact Hnd. }
      rewrite <- He in Hi.
      pose proof (projectileLoop_advances (dt inp) (length (projectiles st2))
                    st2 i p (lookup_lt_Some _ _ _ Hi) Hnd2 Hi Hfar Hlife)
        as Hk.
      unfold _updateProjectiles in H3. rewrite H3 in Hk. exact Hk.
Qed.

Lemma frame_without_pointer_lock_witness :
  isLocked pausedFrame = false /\
  projectiles armedState = [nail] /\
  exists st' tr hud,
    _gameLoop pausedFrame armedState = Some (st', tr, hud) /\
    cameraPos st' = cameraPos armedState /\
    advance 0.016 nail ∈ projectiles st' /\
    Enemy.position <$> enemies st' !! 0
    = Enemy.position
        <$> Some (updateEnemy 0.016 (cameraPos armedState)
                    (default firstSpawn (enemies armedState !! 0))
                    (Player.hp (player armedState))).1.1.
Proof.
  split; [reflexivity|]. split; [vm_compute; reflexivity|].
  assert (Hg : exists r, _gameLoop pausedFrame armedState = Some r)
    by (eexists; vm_compute; reflexivity).
  destruct Hg as [[[st' tr] hud] Hg]. exists st', tr, hud.
  split; [exact Hg|].
  destruct (frame_without_pointer_lock pausedFrame armedState st' tr hud
              eq_refl Hg)
    as (Hc & _ & _ & _ & _ & st2 & tr2 & tr3 & tr4 & H2 & H3 & _ & _
        & Hen & _ & Hfly).
  split; [exact Hc|]. split.
  - apply (Hfly 0 nail).
    + apply (bool_decide_unpack _). vm_compute. exact I.
    + vm_compute. reflexivity.
    + vm_compute in H2. injection H2 as <- _. vm_compute.
      repeat constructor.
    + vm_compute. reflexivity.
  - vm_compute in H2, H3. injection H2 as <- _. injection H3 as <- _.
    vm_compute. reflexivity.
Defined.

Lemma handleShooting_projectiles (inp : Input) (st st' : State)
    (tr : list Call) :
  _handleShooting inp st = Some (st', tr) ->
  projectiles st' = projectiles st \/
  exists weapon mesh position velocity,
    WEAPONS (Player.currentWeaponIdx (player st)) = Some weapon /\
    isHitscan (Weapon.type weapon) = false /\
    projectiles st'
    = projectiles st
        ++ [Projectile.mk mesh position velocity (Weapon.type weapon)
              (Weapon.damage weapon) 2.0].
Proof.
  intros H. apply handleShooting_cases in H
    as [(-> & _ & _)|(weapon & tr' & _ & Hw & _ & Hf & _)]; [auto|].
  set (st1 := set_player _ st) in Hf.
  destruct (isHitscan _) eqn:Hh.
  - left. destruct (fireHitscan_frame weapon inp st1) as [[es He] _].
    rewrite Hf in He. simpl in He. subst st'. reflexivity.
  - right. injection Hf as <- _. simpl. eauto 10.
Qed.

Lemma gameLoop_loaded (inp : Input) (st st' : State) (tr : list Call)
    (hud : Hud.t) :
  Forall loaded (projectiles st) ->
  _gameLoop inp st = Some (st', tr, hud) -> Forall loaded (projectiles st').
Proof.
  intros HQ Hg. apply gameLoop_phases in Hg
    as (st1 & tr1 & st2 & tr2 & tr3 & tr4 & H1 & H2 & H3 & _ & _).
  assert (HQ1 : Forall loaded (projectiles st1)).
  { destruct H1 as [(_ & stS & trS & trE & Hs & He & _)|(_ & -> & _)];
      [|exact HQ].
    destruct (handleEnvironment_frame inp stS) as [g Hg].
    rewrite He in Hg. simpl in Hg. subst st1. simpl.
    destruct (handleMovement_frame inp st) as (v & j & c & Hm).
    rewrite Hm in Hs.
    apply handleShooting_projectiles in Hs
      as [->|(weapon & m & q & w & Hw & Hh & ->)]; [exact HQ|].
    simpl. apply Forall_app. split; [exact HQ|].
    apply Forall_cons. split; [|constructor].
    simpl in Hw. eexists _, weapon. simpl. eauto. }
  pose proof (updateEnemies_projectiles (dt inp) st1) as He.
  rewrite H2 in He. simpl in He. rewrite <- He in HQ1.
  unfold _updateProjectiles in H3.
  pose proof (projectileLoop_projectiles loaded) as Hl.
  destruct (Hl (fun _ p H => H) (dt inp) (length (projectiles st2)) st2)
    as [_ Hk].
  rewrite H3 in Hk. apply Hk, HQ1.
Qed.

(** X11.  Every projectile in flight carries the type and the damage of
    the weapon that fired it, a weapon that is not hitscan: a nail with 15
    or a rocket with 120.  Neither the flight nor a change of weapon
    alters what a projectile does on impact. *)
Theorem projectiles_carry_their_weapon (st : State) :
  Reachable st -> Forall loaded (projectiles st).
Proof.
  intros Hr. unfold Reachable in Hr. remember initialState as s0 eqn:Hs0.
  induction Hr as [s|s s' s'' _ IH Hstep]; subst s.
  - constructor.
  - specialize (IH eq_refl).
    destruct Hstep as [inp s s' tr hud Hg|detail s Hd]; [|exact IH].
    eapply gameLoop_loaded; eauto.
Qed.

Lemma projectiles_carry_their_weapon_witness :
  Reachable armedState /\
  projectiles armedState <> [] /\ Forall loaded (projectiles armedState).
Proof.
  split; [exact armedState_Reachable|]. split; [vm_compute; discriminate|].
  apply (projectiles_carry_their_weapon _ armedState_Reachable).
Defined.

Lemma asSpawned_hp (e0 : Enemy.t) (h : Z) (e : Enemy.t) :
  asSpawned e0 e -> asSpawned e0 (Enemy.set_hp h e).
Proof. intros H. exact H. Qed.

Lemma asSpawned_update (e0 : Enemy.t) (dt : float) (playerPos : Vec3.t)
    (e : Enemy.t) (playerHp : float) :
  asSpawned e0 e -> asSpawned e0 (updateEnemy dt playerPos e playerHp).1.1.
Proof.
  intros (Hm & Hs & Ha & Hst). unfold updateEnemy, asSpawned.
  destruct (Z.leb _ _); simpl; [auto|].
  destruct (_ <? 25)%float; simpl; [|auto].
  destruct (Enemy.state e) eqn:He; simpl;
    destruct (_ <? _)%float; simpl; rewrite ?He; auto.
Qed.

(** X12.  Every enemy of a session is one of the spawned ones, with the
    speed and the attack range it was spawned with.  As long as it is
    idle it stands where it was spawned and shows the idle texture, also
    after it has been shot at; in pursuit it shows the texture of
    pursuit. *)
Theorem enemies_are_as_spawned (st : State) :
  Reachable st ->
  Forall (fun e => exists e0, e0 ∈ enemies initialState /\ asSpawned e0 e)
    (enemies st).
Proof.
  intros Hr.
  refine (Steps_all _ _ _ initialState st Inv_initial _ Hr).
  - intros h e (e0 & Hin & H). exists e0. split; [exact Hin|].
    apply asSpawned_hp, H.
  - intros dt playerPos e playerHp (e0 & Hin & H). exists e0.
    split; [exact Hin|]. apply asSpawned_update, H.
  - rewrite Forall_forall. intros e He. exists e. split; [exact He|].
    revert e He. apply Forall_forall. vm_compute.
    repeat constructor.
Qed.

Lemma enemies_are_as_spawned_witness :
  Reachable armedState /\
  Forall (fun e => exists e0, e0 ∈ enemies initialState /\ asSpawned e0 e)
    (enemies armedState).
Proof.
  split; [exact armedState_Reachable|].
  apply (enemies_are_as_spawned _ armedState_Reachable).
Defined.

(** ** Deaths *)

Lemma dies_app (tr tr' : list Call) : dies (tr ++ tr') = dies tr + dies tr'.
Proof. unfold dies. rewrite List.filter_app, length_app. reflexivity. Qed.

Lemma dies_none (tr : list Call) :
  Forall (fun c => isDie c = false) tr -> dies tr = 0.
Proof.
  unfold dies. induction 1 as [|c tr Hc _ IH]; simpl; [reflexivity|].
  rewrite Hc. exact IH.
Qed.

Lemma afterDamage_count (enemy : Enemy.t) (damage : Z) (st : State)
    (l1 l2 : list Enemy.t) :
  dies (_damageEnemy enemy damage st).2
  + length (afterDamage enemy damage l1 l2)
  = length (l1 ++ enemy :: l2).
Proof.
  rewrite damageEnemy_trace. unfold afterDamage.
  destruct (Z.leb _ _); rewrite !length_app; simpl; lia.
Qed.

Lemma handleShooting_count (inp : Input) (st st' : State) (tr : list Call) :
  Inv st -> _handleShooting inp st = Some (st', tr) ->
  dies tr + length (enemies st') = length (enemies st).
Proof.
  intros HI H. apply handleShooting_cases in H
    as [(-> & -> & _)|(weapon & tr' & _ & Hw & _ & Hf & ->)]; [reflexivity|].
  rewrite dies_app.
  assert (Hc : dies (from_option (fun name => [PlaySound name]) []
                       (sfxMap !! Player.currentWeaponIdx (player st))) = 0).
  { destruct (Player.currentWeaponIdx (player st)) as [|[|[|[|n]]]];
      reflexivity. }
  rewrite Hc. simpl. clear Hc.
  set (st1 := set_player _ st) in Hf. destruct (isHitscan _).
  - destruct (fireHitscan_cases weapon inp st1 (inv_nodup _ HI))
      as [H|(l1 & enemy & l2 & Hes & H)];
      rewrite H in Hf; injection Hf as <- <-; [reflexivity|].
    simpl in *. rewrite Hes. apply afterDamage_count.
  - injection Hf as <- <-. reflexivity.
Qed.

Lemma projectileLoop_count (dt : float) (n : nat) (st : State) :
  Inv st ->
  dies (projectileLoop dt n st).2
  + length (enemies (projectileLoop dt n st).1)
  = length (enemies st).
Proof.
  revert st. induction n as [|n IH]; intros st HI; simpl; [reflexivity|].
  destruct (Inv_projectileBody dt n st HI) as [HI1 _].
  assert (H1 : dies (projectileBody dt n st).2
               + length (enemies (projectileBody dt n st).1)
               = length (enemies st)).
  { destruct (projectileBody_full dt n st (inv_nodup _ HI))
      as [->|[(p & l1 & e & l2 & _ & Hes & ->)
             |(p & ps & tr & _ & -> & [->| ->])]];
      simpl; auto.
    rewrite dies_app, Hes. simpl. rewrite Nat.add_0_r.
    apply afterDamage_count. }
  destruct (projectileBody dt n st) as [s1 t1]. simpl in *.
  specialize (IH s1 HI1).
  destruct (projectileLoop dt n s1) as [s2 t2]. simpl in *.
  rewrite dies_app. lia.
Qed.

(** X13.  The death cue is played once for every enemy that leaves the
    active set, and for nothing else: in a frame of a session, the number
    of death cues is the number of enemies the frame removes. *)
Theorem one_death_cue_per_kill (inp : Input) (st st' : State)
    (tr : list Call) (hud : Hud.t) :
  Reachable st ->
  _gameLoop inp st = Some (st', tr, hud) ->
  dies tr + length (enemies st') = length (enemies st).
Proof.
  intros Hr Hg. pose proof (Inv_Reachable st Hr) as HI.
  apply gameLoop_phases in Hg
    as (st1 & tr1 & st2 & tr2 & tr3 & tr4 & H1 & H2 & H3 & H4 & ->).
  assert (H : Inv st1 /\ dies tr1 + length (enemies st1) = length (enemies st)).
  { destruct H1 as [(_ & stS & trS & trE & Hs & He & ->)|(_ & -> & ->)];
      [|auto].
    pose proof (Inv_handleMovement inp st HI) as HIm.
    destruct (Inv_handleShooting _ _ _ _ HIm Hs) as [HIs _].
    destruct (Inv_handleEnvironment inp stS HIs) as [HIe Hee].
    rewrite He in HIe, Hee. simpl in *. split; [exact HIe|]. rewrite Hee.
    apply handleShooting_count in Hs; [|exact HIm].
    rewrite handleMovement_enemies in Hs. rewrite dies_app.
    assert (HtE : dies trE = 0).
    { unfold _handleEnvironment in He.
      destruct (levelHits inp) as [|hit rest];
        [|destruct (_ <? 4)%float]; injection He as _ <-; reflexivity. }
    lia. }
  destruct H as [HI1 Hc1].
  destruct (Inv_updateEnemies (dt inp) st1 HI1) as [HI2 _].
  assert (Hc2 : dies tr2 = 0 /\ length (enemies st2) = length (enemies st1)).
  { unfold _updateEnemies in H2.
    pose proof (enemyLoop_calls (fun c => isDie c = false)
                  (fun _ _ _ _ => eq_refl) (fun _ => eq_refl) eq_refl
                  (dt inp) (cameraPos st1) (enemies st1)
                  (Player.hp (player st1))) as Hk.
    pose proof (enemyLoop_keeps (dt inp) (cameraPos st1) (enemies st1)
                  (Player.hp (player st1))) as (_ & Hm & _).
    destruct (enemyLoop _ _ _ _) as [[es h] t]. injection H2 as <- <-.
    simpl in *. split; [apply dies_none, Hk|].
    rewrite <- (length_fmap Enemy.mesh es), Hm, length_fmap. reflexivity. }
  rewrite H2 in HI2. simpl in HI2.
  pose proof (projectileLoop_count (dt inp) (length (projectiles st2)) st2 HI2)
    as Hc3.
  unfold _updateProjectiles in H3. rewrite H3 in Hc3. simpl in Hc3.
  assert (Hc4 : dies tr4 = 0).
  { unfold _updateHUD in H4.
    destruct (WEAPONS _); simpl in H4; [|discriminate].
    injection H4 as _ <-. destruct (_ <=? 0)%float; reflexivity. }
  rewrite !dies_app. lia.
Qed.

Lemma one_death_cue_per_kill_witness :
  Reachable (switchWeapon 1 initialState) /\
  exists st' tr hud,
    _gameLoop (fireFrame 1500 [Hit.mk 2 6]) (switchWeapon 1 initialState)
    = Some (st', tr, hud) /\
    dies tr = 1 /\
    dies tr + length (enemies st')
    = length (enemies (switchWeapon 1 initialState)).
Proof.
  assert (Hr : Reachable (switchWeapon 1 initialState)).
  { eapply steps_step; [apply steps_refl|]. apply (step_switch 1). lia. }
  split; [exact Hr|].
  eexists _, _, _. split; [vm_compute; reflexivity|].
  split; [vm_compute; reflexivity|].
  refine (one_death_cue_per_kill (fireFrame 1500 [Hit.mk 2 6])
            (switchWeapon 1 initialState) _ _ _ Hr _).
  vm_compute. reflexivity.
Defined.

(** ** The secret wall only sinks *)

Lemma level_Steps_mono (st st' : State) (k : nat) :
  Inv st -> levelGeometry st = levelWith (sink k) -> Steps st st' ->
  exists k', k <= k' /\ levelGeometry st' = levelWith (sink k').
Proof.
  intros HI Hl Hs. induction Hs as [s|s s' s'' Hs IH Hstep]; [eauto|].
  destruct (IH HI Hl) as (k' & Hle & Hk').
  destruct (Inv_Steps _ _ HI Hs) as [HI' _]. revert HI' Hk'.
  destruct Hstep as [inp s1 s2 tr hud Hg|detail s1 Hd]; intros HI' Hk'.
  - rewrite (gameLoop_level inp s1 s2 tr hud HI' Hg), Hk'.
    destruct (isLocked inp); [|eauto].
    destruct (level_step inp (sink k')) as [-> | ->];
      [exists k'|exists (S k')]; split; auto.
  - exists k'. auto.
Qed.

Lemma sink_clamp (k : nat) : sink k = sink (Nat.min k 101).
Proof.
  destruct (le_lt_dec k 101) as [Hk|Hk].
  - rewrite Nat.min_l by exact Hk. reflexivity.
  - rewrite Nat.min_r by lia.
    replace k with (101 + (k - 101)) by lia. apply sink_rest.
Qed.

Lemma sink_antitone (k k' : nat) :
  k <= k' -> (sink k' <=? sink k)%float = true.
Proof.
  intros Hle.
  assert (H : forallb
                (fun k => forallb (fun k' => (sink k' <=? sink k)%float)
                            (seq k (102 - k))) (seq 0 102) = true)
    by (vm_compute; reflexivity).
  rewrite forallb_forall in H.
  rewrite (sink_clamp k), (sink_clamp k').
  assert (Hin : In (Nat.min k 101) (seq 0 102)) by (apply in_seq; lia).
  specialize (H _ Hin). cbv beta in H. rewrite forallb_forall in H.
  apply H. apply in_seq. lia.
Qed.

(** X14.  Between two moments of a session the secret wall has not risen,
    and no other surface of the level has moved. *)
Theorem secret_wall_never_rises (st st' : State) :
  Reachable st -> Steps st st' ->
  exists y y',
    levelGeometry st = levelWith y /\ levelGeometry st' = levelWith y' /\
    (y' <=? y)%float = true.
Proof.
  intros Hr Hs.
  destruct (level_Steps_mono initialState st 0 Inv_initial) as (k & _ & Hk);
    [vm_compute; reflexivity|exact Hr|].
  destruct (level_Steps_mono st st' k (Inv_Reachable st Hr) Hk Hs)
    as (k' & Hle & Hk').
  exists (sink k), (sink k'). auto using sink_antitone.
Qed.

Lemma secret_wall_never_rises_witness :
  exists y y',
    levelGeometry initialState = levelWith y /\
    levelGeometry (default initialState (run [lookFrame] initialState))
    = levelWith y' /\
    (y' <=? y)%float = true.
Proof.
  refine (secret_wall_never_rises initialState
            (default initialState (run [lookFrame] initialState)) _ _).
  - apply steps_refl.
  - eapply steps_step; [apply steps_refl|].
    apply (run_Step lookFrame). vm_compute. reflexivity.
Defined.

(** ** Death *)

Lemma iter_pos_shr_nonneg (p : positive) (mrs : shr_record) :
  (0 <= shr_m mrs)%Z -> (0 <= shr_m (SpecFloat.iter_pos shr_1 p mrs))%Z.
Proof.
  assert (H1 : forall mrs, (0 <= shr_m mrs)%Z -> (0 <= shr_m (shr_1 mrs))%Z).
  { intros [m r s]. destruct m as [|[q|q|]|[q|q|]]; simpl; lia. }
  revert mrs. induction p as [p IH|p IH|]; intros mrs Hm; simpl; auto.
Qed.

Lemma shr_fexp_nonneg (prec emax m e : Z) (l : location) :
  (0 <= m)%Z -> (0 <= shr_m (shr_fexp prec emax m e l).1)%Z.
Proof.
  intros Hm. unfold shr_fexp, shr.
  assert (H0 : (0 <= shr_m (shr_record_of_loc m l))%Z)
    by (destruct l as [|[]]; exact Hm).
  destruct (_ - e)%Z; simpl; auto using iter_pos_shr_nonneg.
Qed.

(** Rounding keeps the sign it is given. *)
Lemma binary_round_sign (prec emax : Z) (sx : bool) (mx : positive) (ex : Z) :
  match binary_round prec emax sx mx ex with
  | S754_zero s | S754_infinity s | S754_finite s _ _ => s = sx
  | S754_nan => False
  end.
Proof.
  unfold binary_round. destruct (shl_align _ _ _) as [mz ez].
  unfold binary_round_aux.
  pose proof (shr_fexp_nonneg prec emax (Z.pos mz) ez loc_Exact) as H1.
  destruct (shr_fexp prec emax (Z.pos mz) ez loc_Exact) as [mrs' e'].
  simpl in H1. specialize (H1 ltac:(lia)).
  assert (H2 : (0 <= round_nearest_even (shr_m mrs') (loc_of_shr_record mrs'))%Z).
  { unfold round_nearest_even.
    destruct (loc_of_shr_record mrs') as [|[]]; try lia.
    destruct (IntDef.Z.even _); lia. }
  pose proof (shr_fexp_nonneg prec emax _ e' loc_Exact H2) as H3.
  destruct (shr_fexp prec emax _ e' loc_Exact) as [mrs'' e''].
  simpl in H3. destruct (shr_m mrs''); [reflexivity| |lia].
  destruct (_ <=? _)%Z; reflexivity.
Qed.

(** Below zero there is no way back by taking a tenth away. *)
Lemma sub_tenth_nonpos (h : float) :
  (h <=? 0)%float = true -> (h - 0.1 <=? 0)%float = true.
Proof.
  rewrite !leb_spec, sub_spec.
  change (Prim2SF 0) with (S754_zero false).
  change (Prim2SF 0.1) with (S754_finite false 7205759403792794 (-56)).
  destruct (Prim2SF h) as [s|s| |s m e].
  - intros _. destruct s; reflexivity.
  - destruct s; [reflexivity|discriminate].
  - discriminate.
  - destruct s; [intros _|discriminate].
    unfold SF64sub, SFsub.
    set (ez := IntDef.Z.min e (-56)).
    set (a := fst (shl_align m e ez)).
    set (b := fst (shl_align 7205759403792794 (-56) ez)).
    change (cond_Zopp true (Z.pos a) - cond_Zopp false (Z.pos b))%Z
      with (Z.neg (a + b)).
    unfold binary_normalize.
    pose proof (binary_round_sign prec emax true (a + b) ez) as Hs.
    destruct (binary_round prec emax true (a + b) ez) as [s|s| |s m' e'];
      try subst s; try reflexivity.
    destruct Hs.
Qed.

Lemma drain_nonpos (playerPos : Vec3.t) (es : list Enemy.t) (h : float) :
  (h <=? 0)%float = true -> (drain playerPos es h <=? 0)%float = true.
Proof.
  unfold drain. revert h. induction es as [|e es IH]; intros h Hh; simpl;
    [exact Hh|].
  apply IH. destruct (attacks playerPos e); [apply sub_tenth_nonpos|];
    exact Hh.
Qed.

Lemma gameLoop_hp (inp : Input) (st st' : State) (tr : list Call)
    (hud : Hud.t) :
  _gameLoop inp st = Some (st', tr, hud) ->
  exists es,
    Player.hp (player st') = drain (cameraPos st') es (Player.hp (player st)).
Proof.
  intros Hg. apply gameLoop_fields in Hg as (st1 & H1 & -> & -> & _).
  exists (enemies st1). simpl. f_equal.
  destruct H1 as [(_ & stS & trS & Hs & ->)|(_ & ->)]; [|reflexivity].
  destruct (handleEnvironment_frame inp stS) as [g ->]. simpl.
  apply handleShooting_player in Hs as (_ & t & -> & _). simpl.
  destruct (handleMovement_frame inp st) as (v & j & c & ->). reflexivity.
Qed.

(** X15.  Death is final: a frame that starts with the player at 0 hit
    points or below ends there, shows the dead face and releases the
    pointer lock as its last call, whatever the input; nothing in a frame
    gives hit points back. *)
Theorem death_is_final (inp : Input) (st st' : State) (tr : list Call)
    (hud : Hud.t) :
  (Player.hp (player st) <=? 0)%float = true ->
  _gameLoop inp st = Some (st', tr, hud) ->
  (Player.hp (player st') <=? 0)%float = true /\
  Hud.face hud = "assets/images/ui/face_dead.png" /\
  last tr = Some ExitPointerLock.
Proof.
  intros Hh Hg.
  assert (Hh' : (Player.hp (player st') <=? 0)%float = true).
  { destruct (gameLoop_hp _ _ _ _ _ Hg) as [es ->].
    apply drain_nonpos, Hh. }
  split; [exact Hh'|].
  apply gameLoop_phases in Hg
    as (st1 & tr1 & st2 & tr2 & tr3 & tr4 & _ & _ & _ & H4 & ->).
  unfold _updateHUD in H4. rewrite Hh' in H4.
  destruct (WEAPONS _); simpl in H4; [|discriminate].
  injection H4 as <- <-. split; [reflexivity|].
  rewrite !app_assoc. apply last_snoc.
Qed.

Lemma death_is_final_witness :
  (Player.hp (player (siege 900)) <=? 0)%float = true /\
  exists st' tr hud,
    _gameLoop (jumpFrame true) (siege 900) = Some (st', tr, hud) /\
    (Player.hp (player st') <=? 0)%float = true /\
    last tr = Some ExitPointerLock.
Proof.
  split; [vm_compute; reflexivity|].
  eexists _, _, _. split; [vm_compute; reflexivity|].
  destruct (death_is_final (jumpFrame true) (siege 900) _ _ _
              ltac:(vm_compute; reflexivity) ltac:(vm_compute; reflexivity))
    as (H1 & _ & H3).
  split; [exact H1|exact H3].
Defined.

(** ** Opposite keys *)

(** Forth and back, and back and forth, along a finite axis. *)
Lemma add_sub_cancel (f : float) :
  Num.finite f = true -> (0 + f - f)%float = 0%float.
Proof.
  intros Hf. apply Prim2SF_inj. rewrite sub_spec, add_spec.
  unfold Num.finite in Hf. change (Prim2SF 0) with (S754_zero false).
  destruct (Prim2SF f) as [s|s| |s m e]; try discriminate.
  - destruct s; reflexivity.
  - unfold SF64add, SF64sub. simpl SFadd. unfold SFsub.
    rewrite Z.sub_diag. reflexivity.
Qed.

Lemma sub_add_cancel (f : float) :
  Num.finite f = true -> (0 - f + f)%float = 0%float.
Proof.
  intros Hf. apply Prim2SF_inj. rewrite add_spec, sub_spec.
  unfold Num.finite in Hf. change (Prim2SF 0) with (S754_zero false).
  destruct (Prim2SF f) as [s|s| |s m e]; try discriminate.
  - destruct s; reflexivity.
  - unfold SF64add, SF64sub. simpl SFsub. unfold SFadd.
    set (a := fst (shl_align m e (IntDef.Z.min e e))).
    replace (cond_Zopp (negb s) (Z.pos a) + cond_Zopp s (Z.pos a))%Z
      with 0%Z by (destruct s; simpl; lia).
    reflexivity.
Qed.

Lemma finiteVec_split (v : Vec3.t) :
  finiteVec v = true ->
  Num.finite (Vec3.x v) = true /\ Num.finite (Vec3.y v) = true /\
  Num.finite (Vec3.z v) = true.
Proof.
  unfold finiteVec. rewrite !andb_true_iff. tauto.
Qed.

(** The direction of travel when each key is held together with its
    opposite, or not at all. *)
Lemma direction_cancels (w a : bool) (front side : Vec3.t) :
  finiteVec front = true -> finiteVec side = true ->
  (let direction := Vec3.zero in
   let direction := if w then Vec3.add direction front else direction in
   let direction := if w then Vec3.sub direction front else direction in
   let direction := if a then Vec3.sub direction side else direction in
   let direction := if a then Vec3.add direction side else direction in
   direction) = Vec3.zero.
Proof.
  intros Hf Hs. apply finiteVec_split in Hf as (Hf1 & Hf2 & Hf3).
  apply finiteVec_split in Hs as (Hs1 & Hs2 & Hs3).
  assert (H1 : (if w then Vec3.sub (Vec3.add Vec3.zero front) front
                else Vec3.zero) = Vec3.zero).
  { destruct w; [|reflexivity]. unfold Vec3.sub, Vec3.add. simpl.
    rewrite !add_sub_cancel by assumption. reflexivity. }
  cbv zeta.
  replace (if w then Vec3.sub (if w then Vec3.add Vec3.zero front
                               else Vec3.zero) front
           else if w then Vec3.add Vec3.zero front else Vec3.zero)
    with Vec3.zero by (destruct w; [symmetry; exact H1|reflexivity]).
  destruct a; [|reflexivity]. unfold Vec3.sub, Vec3.add. simpl.
  rewrite !sub_add_cancel by assumption. reflexivity.
Qed.

(** X16.  Opposite keys cancel: with forward held together with back, or
    neither, and left together with right, or neither, the player has no
    horizontal velocity after the frame, sprinting or not, and stays in
    place horizontally. *)
Theorem opposite_keys_cancel (inp : Input) (st : State) :
  Keys.w (keys inp) = Keys.s (keys inp) ->
  Keys.a (keys inp) = Keys.d (keys inp) ->
  finiteVec (frontOf inp) = true -> finiteVec (sideOf inp) = true ->
  let st' := _handleMovement inp st in
  Vec3.x (Player.velocity (player st')) = 0%float /\
  Vec3.z (Player.velocity (player st')) = 0%float /\
  (Num.finite (dt inp) = true ->
   (Prim2SF (Vec3.x (cameraPos st)) <> S754_zero true ->
    Vec3.x (cameraPos st') = Vec3.x (cameraPos st)) /\
   (Prim2SF (Vec3.z (cameraPos st)) <> S754_zero true ->
    Vec3.z (cameraPos st') = Vec3.z (cameraPos st))).
Proof.
  intros Hws Had Hf Hs.
  pose proof (direction_cancels (Keys.w (keys inp)) (Keys.a (keys inp))
                (frontOf inp) (sideOf inp) Hf Hs) as Hd.
  cbv zeta in Hd. unfold sideOf, frontOf in Hd.
  unfold _handleMovement. cbv zeta. rewrite <- Hws, <- Had, Hd.
  assert (Hv : (Vec3.x (Vec3.normalize Vec3.zero)
                * (if Keys.shift (keys inp)
                   then PLAYER_SPEED * SPRINT_MULTIPLIER else PLAYER_SPEED)
                = 0)%float /\
               (Vec3.z (Vec3.normalize Vec3.zero)
                * (if Keys.shift (keys inp)
                   then PLAYER_SPEED * SPRINT_MULTIPLIER else PLAYER_SPEED)
                = 0)%float)
    by (destruct (Keys.shift (keys inp)); split; vm_compute; reflexivity).
  destruct Hv as [-> ->].
  match goal with |- context [if ?c then set_cameraPos _ _ else _] =>
    destruct c
  end; simpl; (split; [reflexivity|]); (split; [reflexivity|]);
    intros Hdt; split; intros H0; apply add_zero_mul; assumption.
Qed.

Lemma opposite_keys_cancel_witness :
  Vec3.x (Player.velocity (player (_handleMovement allKeysFrame fallingState)))
  = 0%float /\
  Vec3.z (Player.velocity (player (_handleMovement allKeysFrame fallingState)))
  = 0%float.
Proof.
  destruct (opposite_keys_cancel allKeysFrame fallingState
              eq_refl eq_refl eq_refl eq_refl) as (Hx & Hz & _).
  split; assumption.
Defined.

(** ** Walls *)

Lemma damageEnemy_level (g : list LevelMesh.t) (enemy : Enemy.t) (damage : Z)
    (st : State) :
  _damageEnemy enemy damage (set_levelGeometry g st)
  = (set_levelGeometry g (_damageEnemy enemy damage st).1,
     (_damageEnemy enemy damage st).2).
Proof.
  unfold _damageEnemy, _killEnemy. simpl.
  destruct (Z.leb _ _); [|reflexivity].
  destruct (indexOf _ _); reflexivity.
Qed.

Lemma handleShooting_scenery (g : list LevelMesh.t) (inp : Input) (st : State) :
  _handleShooting inp (set_levelGeometry g st)
  = (fun r => (set_levelGeometry g r.1, r.2)) <$> _handleShooting inp st.
Proof.
  unfold _handleShooting. simpl.
  destruct (mouseLeft inp); simpl; [|reflexivity].
  destruct (WEAPONS _) as [weapon|]; simpl; [|reflexivity].
  destruct (Z.ltb _ _); [|reflexivity].
  set (st1 := set_player _ st).
  change (set_player _ (set_levelGeometry g st))
    with (set_levelGeometry g st1).
  destruct (isHitscan _); [|reflexivity].
  unfold _fireHitscan. simpl.
  destruct (enemyHits inp) as [|hit rest]; [reflexivity|].
  destruct (_ <=? _)%float; [|reflexivity].
  destruct (List.find _ _) as [enemy|]; [|reflexivity].
  rewrite damageEnemy_level.
  destruct (_damageEnemy enemy (Weapon.damage weapon) st1) as [s t].
  reflexivity.
Qed.

Lemma projectileLoop_scenery (g : list LevelMesh.t) (dt : float) (n : nat)
    (st : State) :
  projectileLoop dt n (set_levelGeometry g st)
  = (set_levelGeometry g (projectileLoop dt n st).1,
     (projectileLoop dt n st).2).
Proof.
  revert st. induction n as [|n IH]; intros st; simpl; [reflexivity|].
  assert (H : projectileBody dt n (set_levelGeometry g st)
              = (set_levelGeometry g (projectileBody dt n st).1,
                 (projectileBody dt n st).2)).
  { unfold projectileBody. simpl.
    destruct (projectiles st !! n) as [p|]; [|reflexivity].
    set (st1 := set_projectiles _ st).
    change (set_projectiles _ (set_levelGeometry g st))
      with (set_levelGeometry g st1).
    change (enemies (set_levelGeometry g st1)) with (enemies st1).
    destruct (List.find _ _) as [enemy|].
    - rewrite damageEnemy_level.
      destruct (_damageEnemy enemy _ st1) as [s t]. reflexivity.
    - simpl. destruct (_ <=? 0)%float; reflexivity. }
  rewrite H. destruct (projectileBody dt n st) as [s1 t1]. simpl.
  rewrite IH. destruct (projectileLoop dt n s1) as [s2 t2]. reflexivity.
Qed.

(** The frame after the block that runs under pointer lock. *)
Lemma gameLoop_tail_scenery (g : list LevelMesh.t) (dt : float) (st : State) :
  let r := _updateProjectiles dt (_updateEnemies dt st).1 in
  let r' := _updateProjectiles dt
              (_updateEnemies dt (set_levelGeometry g st)).1 in
  r'.1 = set_levelGeometry g r.1 /\ r'.2 = r.2 /\
  (_updateEnemies dt (set_levelGeometry g st)).2 = (_updateEnemies dt st).2.
Proof.
  unfold _updateEnemies, _updateProjectiles. simpl.
  destruct (enemyLoop _ _ _ _) as [[es h] t]. simpl.
  match goal with |- context [projectileLoop dt ?n (set_player ?p ?s)] =>
    change (set_player p s) with (set_levelGeometry g (set_player p (set_enemies es st)));
    rewrite (projectileLoop_scenery g dt n)
  end.
  simpl. auto.
Qed.

(** X17.  Walls are scenery: the level takes no part in the simulation.
    Whatever surfaces stand in the level, and wherever, a frame moves the
    player, resolves shots and projectiles, moves the enemies and drains
    the player in the same way, shows the same HUD and makes the same
    calls, but for the one ray query of the secret-wall trigger, which
    lists the surfaces of the level.  So no other query mentions a
    surface: the ray of a hitscan shot is asked of the enemy sprites
    alone, and nothing stops at a wall. *)
Theorem walls_are_scenery (g : list LevelMesh.t) (inp : Input) (st : State) :
  match _gameLoop inp st, _gameLoop inp (set_levelGeometry g st) with
  | Some (s, tr, hud), Some (s', tr', hud') =>
      player s' = player s /\ cameraPos s' = cameraPos s /\
      enemies s' = enemies s /\ projectiles s' = projectiles s /\
      hud' = hud /\
      if isLocked inp then
        exists trS trR,
          tr = trS ++ IntersectObjects (LevelMesh.mesh <$> levelGeometry st)
                 :: trR /\
          tr' = trS ++ IntersectObjects (LevelMesh.mesh <$> g) :: trR
      else tr' = tr
  | None, None => True
  | _, _ => False
  end.
Proof.
  assert (Htail : forall g1 g2 s1 t1 t2,
    match
      (let '(st, tr2) := _updateEnemies (dt inp) (set_levelGeometry g1 s1) in
       let '(st, tr3) := _updateProjectiles (dt inp) st in
       '(hud, tr4) ← _updateHUD st; Some (st, t1 ++ tr2 ++ tr3 ++ tr4, hud)),
      (let '(st, tr2) := _updateEnemies (dt inp) (set_levelGeometry g2 s1) in
       let '(st, tr3) := _updateProjectiles (dt inp) st in
       '(hud, tr4) ← _updateHUD st; Some (st, t2 ++ tr2 ++ tr3 ++ tr4, hud))
    with
    | Some (s, tr, hud), Some (s', tr', hud') =>
        player s' = player s /\ cameraPos s' = cameraPos s /\
        enemies s' = enemies s /\ projectiles s' = projectiles s /\
        hud' = hud /\
        exists trR, tr = t1 ++ trR /\ tr' = t2 ++ trR
    | None, None => True
    | _, _ => False
    end).
  { intros g1 g2 s1 t1 t2.
    destruct (gameLoop_tail_scenery g1 (dt inp) s1) as (A1 & A2 & A3).
    destruct (gameLoop_tail_scenery g2 (dt inp) s1) as (B1 & B2 & B3).
    destruct (_updateEnemies (dt inp) s1) as [s2 u2].
    destruct (_updateEnemies (dt inp) (set_levelGeometry g1 s1)) as [a2 b2].
    destruct (_updateEnemies (dt inp) (set_levelGeometry g2 s1)) as [c2 d2].
    simpl in *. subst b2 d2.
    destruct (_updateProjectiles (dt inp) s2) as [s3 u3].
    destruct (_updateProjectiles (dt inp) a2) as [a3 b3].
    destruct (_updateProjectiles (dt inp) c2) as [c3 d3].
    simpl in *. subst a3 b3 c3 d3. unfold _updateHUD. simpl.
    destruct (WEAPONS _); simpl; [|exact I].
    repeat split; auto. eexists. split; reflexivity. }
  unfold _gameLoop. destruct (isLocked inp); simpl.
  - assert (Hm : _handleMovement inp (set_levelGeometry g st)
                 = set_levelGeometry g (_handleMovement inp st)).
    { unfold _handleMovement. simpl.
      match goal with |- context [if ?c then set_cameraPos _ _ else _] =>
        destruct c
      end; reflexivity. }
    rewrite Hm, handleShooting_scenery.
    pose proof (handleShooting_level inp (_handleMovement inp st)) as Hlv.
    destruct (_handleShooting inp (_handleMovement inp st)) as [[sS tS]|];
      simpl; [|exact I].
    specialize (Hlv sS tS eq_refl).
    assert (Hlm : levelGeometry (_handleMovement inp st) = levelGeometry st).
    { destruct (handleMovement_frame inp st) as (v & j & c & ->).
      reflexivity. }
    rewrite Hlm in Hlv.
    destruct (handleEnvironment_frame inp sS) as [g1 H1].
    destruct (handleEnvironment_frame inp (set_levelGeometry g sS))
      as [g2 H2].
    assert (HtE : (_handleEnvironment inp (set_levelGeometry g sS)).2
                  = [IntersectObjects (LevelMesh.mesh <$> g)] /\
                  (_handleEnvironment inp sS).2
                  = [IntersectObjects (LevelMesh.mesh <$> levelGeometry sS)]).
    { unfold _handleEnvironment.
      destruct (levelHits inp) as [|hit rest];
        [|destruct (_ <? 4)%float]; auto. }
    destruct HtE as [Ht2 Ht1]. rewrite Hlv in Ht1.
    destruct (_handleEnvironment inp sS) as [sE tE].
    destruct (_handleEnvironment inp (set_levelGeometry g sS)) as [sE' tE'].
    simpl in *. subst sE sE' tE tE'.
    pose proof (Htail g1 g2 sS
                  (tS ++ [IntersectObjects (LevelMesh.mesh <$> levelGeometry st)])
                  (tS ++ [IntersectObjects (LevelMesh.mesh <$> g)])) as Hb.
    change (set_levelGeometry g2 (set_levelGeometry g sS))
      with (set_levelGeometry g2 sS).
    destruct (_updateEnemies (dt inp) (set_levelGeometry g1 sS)) as [a1 b1].
    destruct (_updateEnemies (dt inp) (set_levelGeometry g2 sS)) as [a2 b2].
    destruct (_updateProjectiles (dt inp) a1) as [a3 b3].
    destruct (_updateProjectiles (dt inp) a2) as [a4 b4].
    destruct (_updateHUD a3) as [[h3 c3]|], (_updateHUD a4) as [[h4 c4]|];
      simpl in *; auto.
    destruct Hb as (? & ? & ? & ? & ? & trR & -> & ->).
    repeat split; auto. exists tS, trR.
    rewrite <- !app_assoc. split; reflexivity.
  - pose proof (Htail (levelGeometry st) g st [] []) as Hb.
    replace (set_levelGeometry (levelGeometry st) st) with st in Hb
      by (destruct st; reflexivity).
    destruct (_updateEnemies (dt inp) st) as [a1 b1].
    destruct (_updateEnemies (dt inp) (set_levelGeometry g st)) as [a2 b2].
    destruct (_updateProjectiles (dt inp) a1) as [a3 b3].
    destruct (_updateProjectiles (dt inp) a2) as [a4 b4].
    destruct (_updateHUD a3) as [[h3 c3]|], (_updateHUD a4) as [[h4 c4]|];
      simpl in *; auto.
    destruct Hb as (? & ? & ? & ? & ? & trR & -> & ->).
    repeat split; auto.
Qed.

(** * The enemy pass, the step of pursuit and the secret wall in a session *)

(** ** The enemy's state machine in a frame *)

Lemma filter_none {A} (f : A -> bool) (l : list A) :
  Forall (fun x => f x = false) l -> List.filter f l = [].
Proof.
  induction 1 as [|x l Hx _ IH]; simpl; [reflexivity|].
  rewrite Hx. exact IH.
Qed.

Lemma run_Steps (inps : list Input) (st st' : State) :
  run inps st = Some st' -> Steps st st'.
Proof.
  assert (Htrans : forall a b, Steps a b ->
            forall inps c, run inps b = Some c -> Steps a c).
  { intros a b Hab l. revert b Hab.
    induction l as [|inp l IH]; intros b Hab c; simpl.
    - intros [= <-]. exact Hab.
    - destruct (_gameLoop inp b) as [[[s t] h]|] eqn:Hg; simpl;
        [|discriminate].
      apply IH. eapply steps_step; [exact Hab|eapply step_frame, Hg]. }
  apply Htrans, steps_refl.
Qed.

(** The pass over alive enemies: who turns to CHASE, and the calls that
    say so. *)
Lemma enemyLoop_turns (dt : float) (playerPos : Vec3.t) (es : list Enemy.t)
    (playerHp : float) :
  Forall (fun e => (0 < Enemy.hp e)%Z) es ->
  Forall2
    (fun e e2 =>
       Enemy.mesh e2 = Enemy.mesh e /\
       Enemy.state e2 = if turns playerPos e then CHASE else Enemy.state e)
    es (enemyLoop dt playerPos es playerHp).1.1 /\
  List.filter isAlert (enemyLoop dt playerPos es playerHp).2
  = flat_map (alertOf playerPos) es.
Proof.
  revert playerHp. induction es as [|e es IH]; intros playerHp Hal; simpl.
  - split; [constructor|reflexivity].
  - apply Forall_cons in Hal as [He Hes].
    assert (H1 : let r := updateEnemy dt playerPos e playerHp in
                 (Enemy.mesh r.1.1 = Enemy.mesh e /\
                  Enemy.state r.1.1
                  = if turns playerPos e then CHASE else Enemy.state e) /\
                 List.filter isAlert r.2 = alertOf playerPos e).
    { unfold updateEnemy, alertOf, turns.
      destruct (Z.leb_spec (Enemy.hp e) 0); [lia|]. cbv zeta.
      destruct (_ <? 25)%float; destruct (Enemy.state e) eqn:Hst; simpl;
        try (destruct (_ <? _)%float; simpl); rewrite ?Hst; auto. }
    destruct (updateEnemy dt playerPos e playerHp) as [[e' hp1] tr1].
    specialize (IH hp1 Hes).
    destruct (enemyLoop dt playerPos es hp1) as [[es' hp2] tr2].
    simpl in *. destruct H1 as [H1 Ht], IH as [IH1 IH2]. split.
    + constructor; assumption.
    + rewrite List.filter_app, Ht, IH2. reflexivity.
Qed.

(** C6.  In a frame of a session, the enemy pass takes each enemy it finds
    in IDLE to CHASE exactly when that enemy is less than 25 from the
    camera, and leaves every other enemy in its state; the texture swap
    and the alert cue of the whole frame are those transitions, one pair
    for each enemy that turns, and nothing for an enemy already in CHASE.
    The enemies the pass finds are those of the start of the frame, less
    the hit points the shot of the frame has taken; those the frame leaves
    are the ones the pass has left, less the hit points taken by
    projectiles.  Across any stretch of a session an enemy found in CHASE
    is in CHASE for as long as it is active, whatever the distances. *)
Theorem chase_is_one_way (st st' : State) :
  Reachable st -> Steps st st' ->
  (forall inp st1 tr hud,
     _gameLoop inp st = Some (st1, tr, hud) ->
     exists sE st2 tr2,
       _updateEnemies (dt inp) sE = (st2, tr2) /\
       cameraPos sE = cameraPos st1 /\
       Forall (fun e1 => exists e, e ∈ enemies st /\
                                   e1 = Enemy.set_hp (Enemy.hp e1) e)
         (enemies sE) /\
       Forall2
         (fun e e2 =>
            Enemy.mesh e2 = Enemy.mesh e /\
            Enemy.state e2
            = if turns (cameraPos sE) e then CHASE else Enemy.state e)
         (enemies sE) (enemies st2) /\
       List.filter isAlert tr = flat_map (alertOf (cameraPos sE)) (enemies sE) /\
       Forall (fun e' => exists e2, e2 ∈ enemies st2 /\
                                    e' = Enemy.set_hp (Enemy.hp e') e2)
         (enemies st1)) /\
  (forall e e',
     e ∈ enemies st -> e' ∈ enemies st' -> Enemy.mesh e' = Enemy.mesh e ->
     Enemy.state e = CHASE -> Enemy.state e' = CHASE).
Proof.
  intros Hr Hs. pose proof (Inv_Reachable st Hr) as HI.
  destruct (Inv_Steps st st' HI Hs) as [HI' He]. split.
  - intros inp st1 tr hud Hg.
    apply gameLoop_phases in Hg
      as (sE & tr1 & st2 & tr2 & tr3 & tr4 & H1 & H2 & H3 & H4 & ->).
    set (R0 := fun e1 => exists e, e ∈ enemies st /\
                                   e1 = Enemy.set_hp (Enemy.hp e1) e).
    assert (R0_hp : forall h e1, R0 e1 -> R0 (Enemy.set_hp h e1)).
    { intros h e1 (e & Hin & Heq). exists e. split; [exact Hin|].
      rewrite Heq. reflexivity. }
    assert (HR0 : Forall R0 (enemies st)).
    { apply Forall_forall. intros e Hin. exists e. split; [exact Hin|].
      destruct e; reflexivity. }
    assert (HE : Inv sE /\ Forall R0 (enemies sE) /\
                 List.filter isAlert tr1 = []).
    { destruct H1 as [(_ & stS & trS & trE & Hsh & Henv & ->)|(_ & -> & ->)];
        [|auto].
      pose proof (Inv_handleMovement inp st HI) as HIm.
      destruct (Inv_handleShooting _ _ _ _ HIm Hsh) as [HIs _].
      destruct (Inv_handleEnvironment inp stS HIs) as [HIe Hee].
      rewrite Henv in HIe, Hee. simpl in *. split; [exact HIe|]. split.
      - rewrite Hee.
        eapply (handleShooting_all R0 R0_hp); [exact HIm| |exact Hsh].
        rewrite handleMovement_enemies. exact HR0.
      - apply filter_none, Forall_app. split.
        + revert Hsh.
          apply (handleShooting_calls (fun c => isAlert c = false));
            try (intros; reflexivity).
          intros name Hn. apply list_elem_of_In in Hn. simpl in Hn.
          destruct Hn as [<-|[<-|[<-|[<-|[]]]]]; reflexivity.
        + unfold _handleEnvironment in Henv.
          destruct (levelHits inp) as [|hit rest];
            [|destruct (_ <? 4)%float]; injection Henv as _ <-;
            repeat constructor. }
    destruct HE as (HIE & HRE & Ht1).
    destruct (Inv_updateEnemies (dt inp) sE HIE) as [HI2 _].
    rewrite H2 in HI2. simpl in HI2.
    exists sE, st2, tr2. split; [exact H2|].
    assert (Hcam : cameraPos sE = cameraPos st1).
    { destruct (updateEnemies_frame (dt inp) sE) as [es Hes].
      rewrite H2 in Hes. simpl in Hes.
      unfold _updateProjectiles in H3.
      destruct (projectileLoop_frame (dt inp) (length (projectiles st2)) st2)
        as (es' & ps' & Hps).
      rewrite H3 in Hps. simpl in Hps. rewrite Hps, Hes. reflexivity. }
    split; [exact Hcam|]. split; [exact HRE|].
    pose proof (enemyLoop_turns (dt inp) (cameraPos sE) (enemies sE)
                  (Player.hp (player sE)) (inv_alive _ HIE)) as [Hf2 Hal].
    assert (Hes2 : enemies st2
                   = (enemyLoop (dt inp) (cameraPos sE) (enemies sE)
                        (Player.hp (player sE))).1.1 /\
                   tr2 = (enemyLoop (dt inp) (cameraPos sE) (enemies sE)
                            (Player.hp (player sE))).2).
    { unfold _updateEnemies in H2.
      destruct (enemyLoop _ _ _ _) as [[es h] t]. injection H2 as <- <-.
      auto. }
    destruct Hes2 as [Hes2 Htr2]. rewrite <- Hes2 in Hf2.
    rewrite <- Htr2 in Hal.
    split; [exact Hf2|]. split.
    + rewrite !List.filter_app, Ht1, Hal. simpl.
      assert (Ht3 : List.filter isAlert tr3 = []).
      { apply filter_none. unfold _updateProjectiles in H3.
        pose proof (projectileLoop_calls (fun c => isAlert c = false)
                      (fun _ _ => eq_refl) eq_refl (fun _ => eq_refl)
                      (dt inp) (length (projectiles st2)) st2) as Hk.
        rewrite H3 in Hk. exact Hk. }
      assert (Ht4 : List.filter isAlert tr4 = []).
      { unfold _updateHUD in H4.
        destruct (WEAPONS _); simpl in H4; [|discriminate].
        injection H4 as _ <-. destruct (_ <=? 0)%float; reflexivity. }
      rewrite Ht3, Ht4, app_nil_r. reflexivity.
    + set (R1 := fun e' => exists e2, e2 ∈ enemies st2 /\
                                      e' = Enemy.set_hp (Enemy.hp e') e2).
      assert (R1_hp : forall h e1, R1 e1 -> R1 (Enemy.set_hp h e1)).
      { intros h e1 (e & Hin & Heq). exists e. split; [exact Hin|].
        rewrite Heq. reflexivity. }
      assert (HR1 : Forall R1 (enemies st2)).
      { apply Forall_forall. intros e Hin. exists e. split; [exact Hin|].
        destruct e; reflexivity. }
      pose proof (projectileLoop_all R1 R1_hp (dt inp)
                    (length (projectiles st2)) st2 HI2 HR1) as Hk.
      unfold _updateProjectiles in H3. rewrite H3 in Hk. exact Hk.
  - intros e e' Hin Hin' Hm Hc.
    destruct (Evolve_elem _ _ e' He Hin') as (e0 & Hin0 & [Hm0 _ Hc0]).
    assert (e0 = e) as ->; [|auto].
    apply (same_mesh_same_enemy (enemies st)); auto using inv_nodup.
    congruence.
Qed.

Lemma chase_is_one_way_witness :
  Reachable (fled 1) /\
  Steps (fled 1) (fled 60) /\
  exists e e',
    enemies (fled 1) !! 0 = Some e /\ enemies (fled 60) !! 0 = Some e' /\
    Enemy.mesh e' = Enemy.mesh e /\
    Enemy.state e = CHASE /\
    (25 <? Vec3.distanceTo (Enemy.position e') (cameraPos (fled 60)))%float
    = true /\
    Enemy.state e' = CHASE.
Proof.
  assert (Hr : Reachable (fled 1)).
  { apply (run_Steps [retreatFrame]). vm_compute. reflexivity. }
  assert (Hs : Steps (fled 1) (fled 60)).
  { apply (run_Steps (repeat retreatFrame 59)). vm_compute. reflexivity. }
  split; [exact Hr|]. split; [exact Hs|].
  assert (He : exists e, enemies (fled 1) !! 0 = Some e)
    by (eexists; vm_compute; reflexivity).
  assert (He' : exists e', enemies (fled 60) !! 0 = Some e')
    by (eexists; vm_compute; reflexivity).
  destruct He as [e He], He' as [e' He']. exists e, e'.
  assert (Hm : Enemy.mesh e' = Enemy.mesh e).
  { vm_compute in He, He'. injection He as <-. injection He' as <-.
    reflexivity. }
  assert (Hc : Enemy.state e = CHASE).
  { vm_compute in He. injection He as <-. reflexivity. }
  split; [exact He|]. split; [exact He'|]. split; [exact Hm|].
  split; [exact Hc|]. split.
  - vm_compute in He'. injection He' as <-. vm_compute. reflexivity.
  - destruct (chase_is_one_way (fled 1) (fled 60) Hr Hs) as [_ H].
    apply (H e e'); auto; eapply list_elem_of_lookup_2; eassumption.
Defined.

(** ** More facts about binary64 *)

Lemma binary_round_aux_sign (prec emax : Z) (sx : bool) (mx : positive)
    (ex : Z) (lx : location) :
  match binary_round_aux prec emax sx (Z.pos mx) ex lx with
  | S754_zero s | S754_infinity s | S754_finite s _ _ => s = sx
  | S754_nan => False
  end.
Proof.
  unfold binary_round_aux.
  pose proof (shr_fexp_nonneg prec emax (Z.pos mx) ex lx) as H1.
  destruct (shr_fexp prec emax (Z.pos mx) ex lx) as [mrs' e'].
  simpl in H1. specialize (H1 ltac:(lia)).
  assert (H2 : (0 <= round_nearest_even (shr_m mrs') (loc_of_shr_record mrs'))%Z).
  { unfold round_nearest_even.
    destruct (loc_of_shr_record mrs') as [|[]]; try lia.
    destruct (IntDef.Z.even _); lia. }
  pose proof (shr_fexp_nonneg prec emax _ e' loc_Exact H2) as H3.
  destruct (shr_fexp prec emax _ e' loc_Exact) as [mrs'' e''].
  simpl in H3. destruct (shr_m mrs''); [reflexivity| |lia].
  destruct (_ <=? _)%Z; reflexivity.
Qed.

(** Multiplying by one changes nothing. *)
Lemma mul_one_l (x : float) : (1 * x)%float = x.
Proof.
  apply Prim2SF_inj. rewrite mul_spec.
  change (Prim2SF 1) with (S754_finite false 4503599627370496 (-52)).
  pose proof (Prim2SF_valid x) as Hv.
  destruct (Prim2SF x) as [s|s| |s m e]; try reflexivity.
  unfold SpecFloat.valid_binary, bounded, canonical_mantissa in Hv.
  apply andb_true_iff in Hv as [Hc He]. apply Z.eqb_eq in Hc.
  unfold SF64mul, SFmul. change (xorb false s) with s.
  unfold binary_round_aux, shr_fexp.
  set (q := (4503599627370496 * m)%positive).
  assert (Hq : Zdigits2 (Z.pos q) = (Z.pos (digits2_pos m) + 52)%Z).
  { subst q. cbv [Pos.mul PosDef.Pos.mul Zdigits2 digits2_pos]. fold digits2_pos. lia. }
  rewrite Hq.
  replace (Z.pos (digits2_pos m) + 52 + (-52 + e))%Z
    with (Z.pos (digits2_pos m) + e)%Z by lia.
  rewrite Hc.
  replace (e - (-52 + e))%Z with 52%Z by lia.
  unfold shr.
  set (r := SpecFloat.iter_pos shr_1 52 (shr_record_of_loc (Z.pos q) loc_Exact)).
  assert (Hr : r = {| shr_m := Z.pos m; shr_r := false; shr_s := false |})
    by (subst r q; vm_compute; reflexivity).
  rewrite Hr. cbn [shr_m loc_of_shr_record round_nearest_even Zdigits2].
  replace (-52 + e + 52)%Z with e by lia.
  rewrite Hc, Z.sub_diag. cbn [shr_record_of_loc shr_m]. rewrite He.
  reflexivity.
Qed.

(** From a standstill on the ground plane, one step of gravity ends below
    eye height, whatever the step. *)
Lemma first_fall (dt : float) :
  Num.finite dt = true -> (0 + (0 - 30 * dt) * dt <? 2.5)%float = true.
Proof.
  intros Hf. unfold Num.finite in Hf.
  rewrite ltb_spec, add_spec, mul_spec, sub_spec, mul_spec.
  change (Prim2SF 0) with (S754_zero false).
  change (Prim2SF 30) with (S754_finite false 8444249301319680 (-48)).
  change (Prim2SF 2.5) with (S754_finite false 5629499534213120 (-51)).
  destruct (Prim2SF dt) as [s|s| |s m e]; try discriminate.
  - destruct s; reflexivity.
  - set (a := SF64mul (S754_finite false 8444249301319680 (-48))
                (S754_finite s m e)).
    assert (Ha : match a with
                 | S754_zero sa | S754_infinity sa | S754_finite sa _ _ =>
                     sa = s
                 | S754_nan => False
                 end)
      by apply (binary_round_aux_sign prec emax (xorb false s)).
    clearbody a. destruct a as [sa|sa| |sa ma ea]; try subst sa.
    + destruct s; reflexivity.
    + destruct s; reflexivity.
    + destruct Ha.
    + change (SF64sub (S754_zero false) (S754_finite s ma ea))
        with (S754_finite (negb s) ma ea).
      set (c := SF64mul (S754_finite (negb s) ma ea) (S754_finite s m e)).
      assert (Hc : match c with
                   | S754_zero sc | S754_infinity sc | S754_finite sc _ _ =>
                       sc = true
                   | S754_nan => False
                   end).
      { pose proof (binary_round_aux_sign prec emax (xorb (negb s) s)
                      (ma * m) (ea + e) loc_Exact) as H.
        destruct s; exact H. }
      clearbody c. destruct c as [sc|sc| |sc mc ec]; try subst sc;
        try reflexivity.
      destruct Hc.
Qed.

Lemma finite_mul_r (c dt : float) :
  Num.finite (c * dt) = true -> Num.finite dt = true.
Proof.
  unfold Num.finite. rewrite mul_spec.
  destruct (Prim2SF c), (Prim2SF dt); simpl; congruence.
Qed.

(** ** The step of pursuit *)

(** The first frame under pointer lock: the camera drops to eye height at
    the origin and the first enemy, 20 units straight ahead, steps toward
    it. *)
Lemma opening_frame (dt : float) :
  Num.finite (Enemy.speed firstSpawn * dt) = true ->
  exists st' tr hud,
    _gameLoop (openingFrame dt) initialState = Some (st', tr, hud) /\
    cameraPos st' = standing /\
    enemies st' !! 0
    = Some (Enemy.mk 6 (Vec3.mk 0 2.5 (-20 + Enemy.speed firstSpawn * dt))
              "enemy_chase" 50 CHASE 3 2).
Proof.
  intros H3. pose proof (finite_mul_r _ _ H3) as Hdt.
  change (Enemy.speed firstSpawn) with 3%float in *.
  assert (Hz : (0 + 0 * dt)%float = 0%float)
    by (apply add_zero_mul; [exact Hdt|discriminate]).
  assert (Hz3 : (0 + 0 * (3 * dt))%float = 0%float)
    by (apply add_zero_mul; [exact H3|discriminate]).
  assert (Hy3 : (2.5 + 0 * (3 * dt))%float = 2.5%float)
    by (apply add_zero_mul; [exact H3|discriminate]).
  pose proof (first_fall dt Hdt) as Hfall.
  eexists _, _, _. split.
  - vm_compute. rewrite Hfall, !Hz. vm_compute.
    rewrite !Hz3, !Hy3, !mul_one_l. reflexivity.
  - split; reflexivity.
Qed.

(** C7, as the code has it.  In the enemy pass, an alive enemy that sees
    the camera (distance below 25) from beyond its attack range is in
    CHASE after its turn, keeps its sprite and hit points, does not strike,
    and has moved by the unit vector toward the camera, with the vertical
    component of that vector set to 0, times [speed * dt]: a horizontal
    step, which keeps the enemy's height (for a finite [speed * dt]).  The
    vector is not normalised again after its vertical component is
    dropped.  In the first frame of a session, under pointer lock with
    nothing held, whatever its length [dt'], the camera comes to stand at
    the origin and the first enemy of the level, spawned 20 units straight
    ahead at the height of the eyes, moves toward it by exactly
    [speed * dt']. *)
Theorem chase_step (dt : float) (st : State) (i : nat) (enemy : Enemy.t) :
  enemies st !! i = Some enemy ->
  (0 < Enemy.hp enemy)%Z ->
  (Vec3.distanceTo (Enemy.position enemy) (cameraPos st) <? 25)%float = true ->
  (Enemy.attackRange enemy
   <? Vec3.distanceTo (Enemy.position enemy) (cameraPos st))%float = true ->
  (exists enemy',
     enemies (_updateEnemies dt st).1 !! i = Some enemy' /\
     Enemy.mesh enemy' = Enemy.mesh enemy /\
     Enemy.hp enemy' = Enemy.hp enemy /\
     Enemy.state enemy' = CHASE /\
     Enemy.position enemy'
     = Vec3.addScaledVector (Enemy.position enemy)
         (Vec3.set_y
            (Vec3.normalize
               (Vec3.subVectors (cameraPos st) (Enemy.position enemy))) 0)
         (Enemy.speed enemy * dt)%float /\
     (Num.finite (Enemy.speed enemy * dt)%float = true ->
      Prim2SF (Vec3.y (Enemy.position enemy)) <> S754_zero true ->
      Vec3.y (Enemy.position enemy') = Vec3.y (Enemy.position enemy)) /\
     attacks (cameraPos st) enemy = false) /\
  enemies initialState !! 0 = Some firstSpawn /\
  Vec3.distanceTo (Enemy.position firstSpawn) standing = 20%float /\
  (forall dt',
     Num.finite (Enemy.speed firstSpawn * dt')%float = true ->
     exists st' tr hud,
       _gameLoop (openingFrame dt') initialState = Some (st', tr, hud) /\
       cameraPos st' = standing /\
       enemies st' !! 0
       = Some (Enemy.mk 6
                 (Vec3.mk 0 2.5 (-20 + Enemy.speed firstSpawn * dt'))
                 "enemy_chase" 50 CHASE 3 2)).
Proof.
  intros Hi Hhp Hsee Hfar.
  split; [|split; [reflexivity|split; [vm_compute; reflexivity|]]];
    [|exact opening_frame].
  exists (updateEnemy dt (cameraPos st) enemy (Player.hp (player st))).1.1.
  split; [apply updateEnemies_lookup, Hi|].
  assert (Hpos : Enemy.position
                   (updateEnemy dt (cameraPos st) enemy
                      (Player.hp (player st))).1.1
     = Vec3.addScaledVector (Enemy.position enemy)
         (Vec3.set_y
            (Vec3.normalize
               (Vec3.subVectors (cameraPos st) (Enemy.position enemy))) 0)
         (Enemy.speed enemy * dt)%float).
  { alive_turn. rewrite Hsee.
    destruct (Enemy.state enemy); simpl; rewrite Hfar; reflexivity. }
  destruct (updateEnemy_keeps dt (cameraPos st) enemy (Player.hp (player st)))
    as (Hm & Hh & _).
  split; [exact Hm|]. split; [exact Hh|]. split; [|split; [exact Hpos|split]].
  - alive_turn. rewrite Hsee.
    destruct (Enemy.state enemy) eqn:Hst; simpl; rewrite Hfar; simpl; auto.
  - intros Hfin Hy. rewrite Hpos. simpl. apply add_zero_mul; auto.
  - unfold attacks. rewrite Hfar, andb_false_r. reflexivity.
Qed.

Lemma chase_step_witness :
  exists enemy,
    enemies (siege 1) !! 0 = Some enemy /\
    (0 < Enemy.hp enemy)%Z /\
    (Vec3.distanceTo (Enemy.position enemy) (cameraPos (siege 1)) <? 25)%float
    = true /\
    (Enemy.attackRange enemy
     <? Vec3.distanceTo (Enemy.position enemy) (cameraPos (siege 1)))%float
    = true /\
    exists enemy',
      enemies (_updateEnemies 0.016 (siege 1)).1 !! 0 = Some enemy' /\
      Enemy.state enemy' = CHASE /\
      Vec3.y (Enemy.position enemy') = Vec3.y (Enemy.position enemy).
Proof.
  assert (He : exists e, enemies (siege 1) !! 0 = Some e)
    by (eexists; vm_compute; reflexivity).
  destruct He as [enemy He]. exists enemy. split; [exact He|].
  pose proof He as Hv. vm_compute in Hv. injection Hv as Hv.
  assert (H1 : (0 < Enemy.hp enemy)%Z) by (subst enemy; vm_compute; reflexivity).
  assert (H2 : (Vec3.distanceTo (Enemy.position enemy) (cameraPos (siege 1))
                <? 25)%float = true)
    by (subst enemy; vm_compute; reflexivity).
  assert (H3 : (Enemy.attackRange enemy
                <? Vec3.distanceTo (Enemy.position enemy)
                     (cameraPos (siege 1)))%float = true)
    by (subst enemy; vm_compute; reflexivity).
  split; [exact H1|]. split; [exact H2|]. split; [exact H3|].
  destruct (chase_step 0.016 (siege 1) 0 enemy He H1 H2 H3)
    as [(enemy' & Hl & _ & _ & Hst & _ & Hy & _) _].
  exists enemy'. split; [exact Hl|]. split; [exact Hst|].
  apply Hy; subst enemy; [vm_compute; reflexivity|vm_compute; discriminate].
Defined.

(** ** Where the secret wall stops *)







